(** * MIGraphX to TOSA lowering: a shallow embedding of the rewrite rules

    The development follows [mlir/lib/Conversion/MIGraphXToTosa/MIGraphXToTosa.cpp].
    Shapes are lists of 64-bit extents, the operation graph is a store of
    operations keyed by id together with the per-value use lists, and every
    rewrite rule is a computation in a small state-and-error monad that
    either completes, reports a failure, or aborts (a failed assertion or an
    out-of-range index). *)

From Stdlib Require Import ZArith Lia List String.
From stdpp Require Import base decidable option list gmap strings.

Set Default Proof Using "Type".
Local Open Scope Z_scope.

(** ** Machine integers *)

(** [size_t] arithmetic: subtraction wraps modulo 2^64. *)
Definition u64 (z : Z) : Z := z mod 2 ^ 64.

(** [uint32_t] arithmetic: wraps modulo 2^32. *)
Definition u32 (z : Z) : Z := z mod 2 ^ 32.

(** [int64_t] arithmetic, two's complement wrap-around. *)
Definition s64 (z : Z) : Z := (z + 2 ^ 63) mod 2 ^ 64 - 2 ^ 63.

(** ** Shapes and tensor types *)

Inductive ElemType : Type :=
  | F16 | F32 | F64
  | IntTy (width : N)
  | IndexTy.

#[global] Instance ElemType_eq_dec : EqDecision ElemType.
Proof. solve_decision. Defined.

(** [Type::isInteger(8)] *)
Definition isInteger8 (t : ElemType) : bool :=
  match t with IntTy 8 => true | _ => false end.

(** [Type::isIntOrIndex()] *)
Definition isIntOrIndex (t : ElemType) : bool :=
  match t with IntTy _ | IndexTy => true | _ => false end.

(** A ranked tensor type: static extents and an element type. *)
Record TensorType : Type := TT { tshape : list Z; telem : ElemType }.

#[global] Instance TensorType_eq_dec : EqDecision TensorType.
Proof. solve_decision. Defined.

(** [ArrayRef::size()] seen as a [size_t]. *)
Definition rank (s : list Z) : Z := Z.of_nat (length s).

(** [ArrayRef::operator[]] with a [size_t] index: [None] when the index is
    not below the length (the access asserts). *)
Definition at_ (s : list Z) (i : Z) : option Z :=
  if (0 <=? i) && (i <? rank s) then s !! Z.to_nat i else None.

(** [ShapedType::cloneWith(nullopt, elemTy)]: same shape, new element type. *)
Definition cloneWith (t : TensorType) (e : ElemType) : TensorType :=
  TT (tshape t) e.

(** ** Pure outcomes of shape computations *)

Inductive Exc (A : Type) : Type :=
  | Val (a : A)            (* the computation produced a value *)
  | Err (msg : string)     (* a reportable failure ([emitError] / [failure()]) *)
  | Abort.                 (* assertion failure or out-of-range access *)
Arguments Val {A} a.
Arguments Err {A} msg.
Arguments Abort {A}.

Definition exc_bind {A B} (m : Exc A) (k : A -> Exc B) : Exc B :=
  match m with Val a => k a | Err s => Err s | Abort => Abort end.

Definition of_opt {A} (o : option A) : Exc A :=
  match o with Some a => Val a | None => Abort end.

Declare Scope exc_scope.
Delimit Scope exc_scope with exc.
Notation "x <-! m ; k" := (exc_bind m (fun x => k))
  (at level 100, m at next level, right associativity) : exc_scope.

(** ** Batched dot: dimension algebra (DotConverter, lines 332-364) *)

(** The loops [for (size_t i = 0; i < bound; i++) acc *= dims[i];]
    [rest] is the part of [dims] from index [i] on. *)
Fixpoint batch_loop (bound i acc : Z) (rest : list Z) : option Z :=
  if i <? bound then
    match rest with
    | [] => None
    | d :: rest' => batch_loop bound (i + 1) (s64 (acc * d)) rest'
    end
  else Some acc.

(** Batch size of a shape: the loop bound is the [size_t] value [rank - 2]. *)
Definition batchSize (dims : list Z) : option Z :=
  batch_loop (u64 (rank dims - 2)) 0 1 dims.

(** The initialisers [{batch, dims[outRank - 2], dims[outRank - 1]}]. *)
Definition rowsCols (dims : list Z) (outRank : Z) : option (Z * Z) :=
  r ← at_ dims (u64 (outRank - 2));
  c ← at_ dims (u64 (outRank - 1));
  Some (r, c).

(** The condition guarding the flattening path (lines 332 and 386). *)
Definition needsFlatten (orgDimsA orgDimsB orgOutDims : list Z) : bool :=
  negb (rank orgOutDims =? 3)
  || negb (rank orgDimsA =? rank orgDimsB)
  || ((rank orgOutDims =? 3) && negb (bool_decide (orgDimsA = orgDimsB))).

Record DotDims : Type := mkDotDims {
  newDimsA : list Z;
  newDimsB : list Z;
  newDimsOut : list Z
}.

Definition dot_error : string := "tosa.matmul can't broadcast input.".

(** Body of the flattening branch up to the creation of the reshapes. *)
Definition dotFlatten (orgDimsA orgDimsB orgOutDims : list Z) : Exc DotDims :=
  (let outRank := rank orgOutDims in
   batchSizeC <-! of_opt (batchSize orgOutDims);
   batchSizeA <-! of_opt (batchSize orgDimsA);
   batchSizeB <-! of_opt (batchSize orgDimsB);
   rcA <-! of_opt (rowsCols orgDimsA outRank);
   rcB <-! of_opt (rowsCols orgDimsB outRank);
   rcO <-! of_opt (rowsCols orgOutDims outRank);
   if negb (batchSizeA =? batchSizeB) then
     if batchSizeB =? 1 then
       Val (mkDotDims [1; s64 (rcA.1 * batchSizeA); rcA.2]
                      [batchSizeB; rcB.1; rcB.2]
                      [1; s64 (rcO.1 * batchSizeC); rcO.2])
     else Err dot_error
   else
     Val (mkDotDims [batchSizeA; rcA.1; rcA.2]
                    [batchSizeB; rcB.1; rcB.2]
                    [batchSizeC; rcO.1; rcO.2]))%exc.

(** ** The operation graph *)

Inductive OpKind : Type :=
  (* source vocabulary *)
  | MConvolution | MBroadcast | MMultiBroadcast | MDot | MSoftmax
  | MReshape | MReduceMean | MQuantizeLinear
  (* target vocabulary *)
  | TConv2D | TTranspose | TReshape | TMatMul | TReduceMax | TReduceSum
  | TSub | TExp | TReciprocal | TMul | TAdd | TCast | TConst
  | ArithConstant
  (* any other operation of the surrounding graph *)
  | OtherOp (name : string).

#[global] Instance OpKind_eq_dec : EqDecision OpKind.
Proof. solve_decision. Defined.

#[local] Unset Elimination Schemes.
Inductive Attr : Type :=
  | AInt (ty : ElemType) (z : Z)            (* IntegerAttr *)
  | AFloat (ty : ElemType) (z : Z)          (* FloatAttr of the finite value z *)
  | AFloatInf (ty : ElemType) (neg : bool)  (* FloatAttr of an infinity *)
  | ABool (b : bool)
  | AStr (s : string)
  | AArray (l : list Attr)                  (* ArrayAttr *)
  | ADenseI64 (l : list Z)                  (* DenseI64ArrayAttr / dense i64 elements *)
  | ADense (ty : TensorType) (l : list Attr)(* DenseElementsAttr *)
  | AZero (ty : TensorType)                 (* getZeroAttr *)
  | AConvQuant (inputZp weightZp : Z).      (* tosa::ConvOpQuantizationAttr *)

#[local] Set Elimination Schemes.

Definition Attrs : Type := list (string * Attr).

Fixpoint getAttr (name : string) (attrs : Attrs) : option Attr :=
  match attrs with
  | [] => None
  | (n, a) :: rest => if String.eqb n name then Some a else getAttr name rest
  end.

Fixpoint putAttr (name : string) (a : Attr) (attrs : Attrs) : Attrs :=
  match attrs with
  | [] => [(name, a)]
  | (n, b) :: rest =>
      if String.eqb n name then (n, a) :: rest else (n, b) :: putAttr name a rest
  end.

(** Values and operations are named by natural numbers; an operation has a
    single result, named like the operation itself. *)
Definition Value : Type := nat.

Record Op : Type := mkOp {
  op_kind : OpKind;
  op_operands : list Value;
  op_attrs : Attrs
}.

(** A use is an operand slot: the owning operation and the operand index. *)
Definition Use : Type := (nat * nat)%type.

(** One entry of the rewriter's creation log: the operation as it was at
    the moment it was built. *)
Record Created : Type := mkCreated {
  c_id : nat;
  c_op : Op;                      (* kind, operands, attributes when built *)
  c_inputs : list TensorType;     (* the operand types *)
  c_type : TensorType;            (* the declared result type *)
  c_inferred : bool               (* built through [createOpAndInfer]? *)
}.

Record Graph : Type := mkGraph {
  g_ops : gmap nat Op;
  g_types : gmap nat TensorType;
  g_uses : gmap nat (list Use);   (* use list of each value, head first *)
  g_next : nat;
  g_log : list Created
}.

Definition usesOf (g : Graph) (v : Value) : list Use :=
  default [] (g_uses g !! v).

(** ** The rewrite monad *)

Inductive Res (A : Type) : Type :=
  | Ok (a : A) (g : Graph)
  | Failure (msg : string) (g : Graph)   (* reportable failure, graph as left *)
  | Crash                                (* assertion / out-of-range access *)
  | OutOfFuel.                           (* iteration budget exhausted *)
Arguments Ok {A} a g.
Arguments Failure {A} msg g.
Arguments Crash {A}.
Arguments OutOfFuel {A}.

Definition M (A : Type) : Type := Graph -> Res A.

Definition ret {A} (a : A) : M A := fun g => Ok a g.

Definition bind {A B} (m : M A) (k : A -> M B) : M B :=
  fun g =>
    match m g with
    | Ok a g' => k a g'
    | Failure s g' => Failure s g'
    | Crash => Crash
    | OutOfFuel => OutOfFuel
    end.

Declare Scope rw_scope.
Delimit Scope rw_scope with rw.
Notation "x <- m ;; k" := (bind m (fun x => k))
  (at level 100, m at next level, right associativity) : rw_scope.
Notation "m ;;; k" := (bind m (fun _ => k))
  (at level 100, right associativity) : rw_scope.

Definition failure {A} (msg : string) : M A := fun g => Failure msg g.
Definition crash {A} : M A := fun _ => Crash.

(** An access that asserts: a missing value aborts the rewrite. *)
Definition must {A} (o : option A) : M A :=
  match o with Some a => ret a | None => crash end.

Definition liftExc {A} (e : Exc A) : M A :=
  match e with Val a => ret a | Err s => failure s | Abort => crash end.

Definition getType (v : Value) : M TensorType :=
  fun g => must (g_types g !! v) g.

Definition getOp (o : nat) : M Op :=
  fun g => must (g_ops g !! o) g.

(** *** Use lists *)

(** [IROperand::insertIntoCurrent]: the slot becomes the head of the list. *)
Definition pushUse (u : Use) (v : Value) (uses : gmap nat (list Use))
  : gmap nat (list Use) :=
  <[v := u :: default [] (uses !! v)]> uses.

(** [IROperand::removeFromCurrent] *)
Definition dropUse (u : Use) (v : Value) (uses : gmap nat (list Use))
  : gmap nat (list Use) :=
  alter (filter (fun x => x <> u)) v uses.

(** Uses added when an operation [o] is built over [operands]. *)
Fixpoint addUses (o : nat) (i : nat) (operands : list Value)
  (uses : gmap nat (list Use)) : gmap nat (list Use) :=
  match operands with
  | [] => uses
  | v :: rest => addUses o (S i) rest (pushUse (o, i) v uses)
  end.

(** The graph after the rewriter has built the operation logged as [e]. *)
Definition addCreated (e : Created) (g : Graph) : Graph :=
  {| g_ops := <[c_id e := c_op e]> (g_ops g);
     g_types := <[c_id e := c_type e]> (g_types g);
     g_uses := addUses (c_id e) 0 (op_operands (c_op e)) (g_uses g);
     g_next := S (g_next g);
     g_log := g_log g ++ [e] |}.

(** [rewriter.create<...>(loc, type, operands, attrs)]. *)
Definition create (inferred : bool) (kind : OpKind) (ty : TensorType)
  (operands : list Value) (attrs : Attrs) : M Value :=
  fun g =>
    match mapM (fun v => g_types g !! v) operands with
    | None => Crash
    | Some tys =>
        let n := g_next g in
        Ok n (addCreated (mkCreated n (mkOp kind operands attrs) tys ty inferred) g)
    end.

(** The graph with operation [o] overwritten by [op]. *)
Definition setOp (o : nat) (op : Op) (g : Graph) : Graph :=
  {| g_ops := <[o := op]> (g_ops g);
     g_types := g_types g; g_uses := g_uses g;
     g_next := g_next g; g_log := g_log g |}.

(** [Operation::setAttr] *)
Definition setAttr (o : nat) (name : string) (a : Attr) : M unit :=
  fun g =>
    match g_ops g !! o with
    | None => Crash
    | Some op =>
        Ok tt (setOp o (mkOp (op_kind op) (op_operands op)
                             (putAttr name a (op_attrs op))) g)
    end.

(** [Operation::setOperand(i, v)] / [OpOperand::set(v)]: the slot leaves the
    use list of the value it held and becomes the head of [v]'s use list. *)
Definition setOperand (o i : nat) (v : Value) : M unit :=
  fun g =>
    match g_ops g !! o with
    | None => Crash
    | Some op =>
        match op_operands op !! i with
        | None => Crash
        | Some old =>
            Ok tt {| g_ops := <[o := mkOp (op_kind op) (<[i := v]> (op_operands op))
                                          (op_attrs op)]> (g_ops g);
                     g_types := g_types g;
                     g_uses := pushUse (o, i) v (dropUse (o, i) old (g_uses g));
                     g_next := g_next g; g_log := g_log g |}
        end
    end.

(** The slot following [u] in a use list. *)
Fixpoint succ_in (u : Use) (l : list Use) : option Use :=
  match l with
  | [] => None
  | x :: rest => if decide (x = u) then head rest else succ_in u rest
  end.

(** [ValueUseIterator::operator++]: the iterator points at an operand slot
    and advances through that slot's own [nextUse] link. The link belongs
    to the use list of the value the slot holds now: once the loop body has
    redirected the slot ([OpOperand::set]), the walk goes on in the use
    list of the new value. *)
Definition nextUse (u : Use) : M (option Use) :=
  fun g =>
    match g_ops g !! u.1 with
    | None => Crash
    | Some op =>
        match op_operands op !! u.2 with
        | None => Crash
        | Some v => Ok (succ_in u (usesOf g v)) g
        end
    end.

(** [for (auto &use : value.getUses()) body(use)], with an iteration budget. *)
Fixpoint forUses (fuel : nat) (body : Use -> M unit) (it : option Use) : M unit :=
  match it with
  | None => ret tt
  | Some u =>
      match fuel with
      | O => fun _ => OutOfFuel
      | S fuel' =>
          (body u ;;;
           it' <- nextUse u ;;
           forUses fuel' body it')%rw
      end
  end.

Definition firstUse (v : Value) : M (option Use) :=
  fun g => Ok (head (usesOf g v)) g.

(** Outcome of a successful rule: what the driver is asked to do with the
    matched operation. *)
Inductive Rewrite : Type :=
  | ReplaceWith (v : Value)    (* rewriter.replaceOp(op, {v}) *)
  | Erase.                     (* rewriter.eraseOp(op) *)

Local Open Scope rw_scope.

Definition getTypes (vs : list Value) : M (list TensorType) :=
  fun g => must (mapM (fun v => g_types g !! v) vs) g.

(** [op->getAttr(name).cast<IntegerAttr>().getInt()] *)
Definition intAttr (name : string) (attrs : Attrs) : option Z :=
  match getAttr name attrs with Some (AInt _ z) => Some z | _ => None end.

(** [op->getAttr(name).cast<ArrayAttr>()] *)
Definition arrayAttr (name : string) (attrs : Attrs) : option (list Attr) :=
  match getAttr name attrs with Some (AArray l) => Some l | _ => None end.

(** [arr[i].dyn_cast<IntegerAttr>().getInt()] *)
Definition intAt (arr : list Attr) (i : nat) : option Z :=
  match arr !! i with Some (AInt _ z) => Some z | _ => None end.

Definition newShapeAttr (s : list Z) : Attrs := [("new_shape"%string, ADenseI64 s)].

(** [op->getAttrOfType<BoolAttr>(name)] *)
Definition boolAttr (name : string) (attrs : Attrs) : option Attr :=
  match getAttr name attrs with Some (ABool b) => Some (ABool b) | _ => None end.

(** [op->getAttrOfType<StringAttr>(name)] *)
Definition strAttr (name : string) (attrs : Attrs) : option Attr :=
  match getAttr name attrs with Some (AStr s) => Some (AStr s) | _ => None end.

(** The optional attributes copied to the target operation. *)
Definition copyOptionalAttrs (src dst : nat) : M unit :=
  o <- getOp src ;;
  match boolAttr "xdlopsV2" (op_attrs o) with
  | Some attr => setAttr dst "xdlopsV2" attr
  | None => ret tt
  end ;;;
  match strAttr "perf_config" (op_attrs o) with
  | Some attr => setAttr dst "perf_config" attr
  | None => ret tt
  end.

(** ** isBroadcastable (lines 30-40) *)

Definition isBroadcastable (op operand : nat) : M bool :=
  o <- getOp op ;;
  if negb (length (op_operands o) =? 2)%nat then ret false
  else
    v1 <- must (op_operands o !! 1%nat) ;;
    if negb (v1 =? operand)%nat then
      (* swap, if possible *)
      setOperand op 0 v1 ;;;
      setOperand op 1 operand ;;;
      ret true
    else ret true.

(** The "replace the uses" loop: the first operand slot of [expandedOp]
    holding the result of [op] is redirected to [newOperand]. *)
Fixpoint findOperand (v : Value) (i : nat) (operands : list Value) : option nat :=
  match operands with
  | [] => None
  | x :: rest => if (x =? v)%nat then Some i else findOperand v (S i) rest
  end.

Definition replaceFirstUse (expandedOp op : nat) (newOperand : Value) : M unit :=
  o <- getOp expandedOp ;;
  match findOperand op 0 (op_operands o) with
  | Some i => setOperand expandedOp i newOperand
  | None => ret tt
  end.

(** ** ConvConverter (lines 69-182) *)

Definition NCHW2NHWC : list Z := [0; 2; 3; 1].
Definition NHWC2NCHW : list Z := [0; 3; 1; 2].

(** The shape stamped on the transpose: [inputShape[permutation[k]]], k < 4. *)
Definition permuteShape (inputShape permutation : list Z) : option (list Z) :=
  p0 ← at_ permutation 0; p1 ← at_ permutation 1;
  p2 ← at_ permutation 2; p3 ← at_ permutation 3;
  d0 ← at_ inputShape (u64 p0); d1 ← at_ inputShape (u64 p1);
  d2 ← at_ inputShape (u64 p2); d3 ← at_ inputShape (u64 p3);
  Some [d0; d1; d2; d3].

Definition getZeroBias (elemType : ElemType) (filterOutputChannels : Z) : M Value :=
  let biasTy := TT [filterOutputChannels] elemType in
  create false ArithConstant biasTy [] [("value"%string, AZero biasTy)].

Definition getRank4TransposeOp (input : Value) (permutation : list Z) : M Value :=
  permutationValue <-
    create false ArithConstant (TT [4] (IntTy 64)) []
           [("value"%string, ADenseI64 permutation)] ;;
  inputTy <- getType input ;;
  newShape <- must (permuteShape (tshape inputTy) permutation) ;;
  create false TTranspose (TT newShape (telem inputTy)) [input; permutationValue] [].

Definition ConvConverter (op : nat) (operands : list Value) : M Rewrite :=
  input_t <- must (operands !! 0%nat) ;;
  filter_t <- must (operands !! 1%nat) ;;
  o <- getOp op ;;
  in0 <- must (op_operands o !! 0%nat) ;;
  in0Ty <- getType in0 ;;
  let elementTy := telem in0Ty in
  outputTy <- getType op ;;
  (* insert transpose to input and filter tensors *)
  input_t <- getRank4TransposeOp input_t NCHW2NHWC ;;
  filter_t <- getRank4TransposeOp filter_t NCHW2NHWC ;;
  let outShape := tshape outputTy in
  (* original output shape was NCHW, change it into NHWC *)
  o0 <- must (at_ outShape 0) ;; o2 <- must (at_ outShape 2) ;;
  o3 <- must (at_ outShape 3) ;; o1 <- must (at_ outShape 1) ;;
  let newOutTy := TT [o0; o2; o3; o1] (telem outputTy) in
  filterTy <- getType filter_t ;;
  channels <- must (at_ (tshape filterTy) 0) ;;
  bias <- getZeroBias (telem outputTy) channels ;;
  cop <- create false TConv2D newOutTy [input_t; filter_t; bias] [] ;;
  (* translate attributes *)
  padAttr <- must (arrayAttr "padding" (op_attrs o)) ;;
  strideAttr <- must (arrayAttr "stride" (op_attrs o)) ;;
  dilationAttr <- must (arrayAttr "dilation" (op_attrs o)) ;;
  padTop <- must (intAt padAttr 0) ;;
  padBottom <- must (intAt padAttr 1) ;;
  padLeft <- must (intAt padAttr 2) ;;
  padRight <- must (intAt padAttr 3) ;;
  strideHeight <- must (intAt strideAttr 0) ;;
  strideWidth <- must (intAt strideAttr 1) ;;
  dilationHeight <- must (intAt dilationAttr 0) ;;
  dilationWidth <- must (intAt dilationAttr 1) ;;
  setAttr cop "dilation" (ADenseI64 [dilationHeight; dilationWidth]) ;;;
  setAttr cop "stride" (ADenseI64 [strideHeight; strideWidth]) ;;;
  setAttr cop "pad" (ADenseI64 [padTop; padBottom; padLeft; padRight]) ;;;
  copyOptionalAttrs op cop ;;;
  (if isInteger8 elementTy
   then setAttr cop "quantization_info" (AConvQuant 0 0)
   else ret tt) ;;;
  (* transpose the output back to NCHW *)
  top <- getRank4TransposeOp cop NHWC2NCHW ;;
  ret (ReplaceWith top).

(** ** BroadcastConverter (lines 184-239) *)

(** Lines 206-212: [outRank] ones, then [newShape[axis] = inShape[0]]. *)
Definition broadcastShape (outRank axis : Z) (inShape : list Z) : option (list Z) :=
  let newShape := replicate (Z.to_nat outRank) 1 in
  d ← at_ inShape 0;
  let i := u64 axis in
  if i <? rank newShape then Some (<[Z.to_nat i := d]> newShape) else None.

(** Lines 195-218: the operand the consumers are rewired to. *)
Definition broadcastAlign (op : nat) (input_t : Value) : M Value :=
  o <- getOp op ;;
  axis <- must (intAttr "axis" (op_attrs o)) ;;
  outTy <- getType op ;;
  let outShape := tshape outTy in
  let outElemType := telem outTy in
  let outRank := u32 (rank outShape) in
  inTy <- getType input_t ;;
  let inShape := tshape inTy in
  if negb (outRank =? rank inShape) then
    newShape <- must (broadcastShape outRank axis inShape) ;;
    create false TReshape (TT newShape outElemType) [input_t] (newShapeAttr newShape)
  else ret input_t.

Definition broadcastUse (op : nat) (newOperand : Value) (use : Use) : M unit :=
  let expandedOp := use.1 in
  b <- isBroadcastable expandedOp op ;;
  if b then replaceFirstUse expandedOp op newOperand
  else failure EmptyString.

Definition BroadcastConverter (fuel : nat) (op : nat) (operands : list Value)
  : M Rewrite :=
  input_t <- must (operands !! 0%nat) ;;
  newOperand <- broadcastAlign op input_t ;;
  it <- firstUse op ;;
  forUses fuel (broadcastUse op newOperand) it ;;;
  (* erase broadcast *)
  ret Erase.

(** ** MultiBroadcastConverter (lines 241-302) *)

(** Lines 274-276: [for (; i < bound; i++) newShape.push_back(inShape[i])]. *)
Fixpoint copy_loop (bound i : Z) (rest acc : list Z) : option (list Z * Z) :=
  if i <? bound then
    match rest with
    | [] => None
    | d :: rest' => copy_loop bound (i + 1) rest' (acc ++ [d])
    end
  else Some (acc, i).

(** Lines 277-279: [for (; i < outRank; i++) newShape.push_back(1)]. *)
Definition ones_loop (outRank i : Z) (acc : list Z) : list Z :=
  acc ++ replicate (Z.to_nat (outRank - i)) 1.

Definition multiBroadcastShape (inShape : list Z) (outRank : Z) : option (list Z) :=
  let inRank := u32 (rank inShape) in
  '(acc, i) ← copy_loop (u32 (outRank - inRank)) 0 inShape [];
  Some (ones_loop outRank i acc).

(** Lines 261-285: the operand one consumer is rewired to. *)
Definition multiBroadcastAlign (input_t : Value) (inShape : list Z)
  (expandedOp : nat) : M Value :=
  outTy <- getType expandedOp ;;
  let outShape := tshape outTy in
  let outElemType := telem outTy in
  let outRank := u32 (rank outShape) in
  if negb (outRank =? rank inShape) then
    newShape <- must (multiBroadcastShape inShape outRank) ;;
    create false TReshape (TT newShape outElemType) [input_t] (newShapeAttr newShape)
  else ret input_t.

Definition multiBroadcastUse (op : nat) (input_t : Value) (inShape : list Z)
  (use : Use) : M unit :=
  let expandedOp := use.1 in
  if (expandedOp =? op)%nat then ret tt
  else
    b <- isBroadcastable expandedOp op ;;
    if b then
      newOperand <- multiBroadcastAlign input_t inShape expandedOp ;;
      replaceFirstUse expandedOp op newOperand
    else failure EmptyString.

Definition MultiBroadcastConverter (fuel : nat) (op : nat) (operands : list Value)
  : M Rewrite :=
  input_t <- must (operands !! 0%nat) ;;
  inTy <- getType input_t ;;
  let inShape := tshape inTy in
  it <- firstUse op ;;
  forUses fuel (multiBroadcastUse op input_t inShape) it ;;;
  (* erase broadcast *)
  ret Erase.

(** ** DotConverter (lines 304-396) *)

Definition DotConverter (op : nat) (operands : list Value) : M Rewrite :=
  in_A <- must (operands !! 0%nat) ;;
  in_B <- must (operands !! 1%nat) ;;
  o <- getOp op ;;
  in0 <- must (op_operands o !! 0%nat) ;;
  in0Ty <- getType in0 ;;
  let elementTy := telem in0Ty in
  outputTy <- getType op ;;
  let orgOutDims := tshape outputTy in
  tyA <- getType in_A ;;
  tyB <- getType in_B ;;
  let orgDimsA := tshape tyA in
  let orgDimsB := tshape tyB in
  if needsFlatten orgDimsA orgDimsB orgOutDims then
    d <- liftExc (dotFlatten orgDimsA orgDimsB orgOutDims) ;;
    reshapeAOp <- create false TReshape (TT (newDimsA d) elementTy) [in_A]
                         (newShapeAttr (newDimsA d)) ;;
    reshapeBOp <- create false TReshape (TT (newDimsB d) elementTy) [in_B]
                         (newShapeAttr (newDimsB d)) ;;
    mop <- create false TMatMul (TT (newDimsOut d) elementTy)
                  [reshapeAOp; reshapeBOp] [] ;;
    copyOptionalAttrs op mop ;;;
    rop <- create false TReshape outputTy [mop] (newShapeAttr orgOutDims) ;;
    ret (ReplaceWith rop)
  else
    mop <- create false TMatMul (TT orgOutDims elementTy) [in_A; in_B] [] ;;
    copyOptionalAttrs op mop ;;;
    ret (ReplaceWith mop).

(** ** ReshapeConverter (lines 430-453) *)

Fixpoint intsOf (l : list Attr) : option (list Z) :=
  match l with
  | [] => Some []
  | AInt _ z :: rest => zs ← intsOf rest; Some (z :: zs)
  | _ => None
  end.

Definition ReshapeConverter (op : nat) (operands : list Value) : M Rewrite :=
  o <- getOp op ;;
  dims <- must (arrayAttr "dims" (op_attrs o)) ;;
  input <- must (operands !! 0%nat) ;;
  outputTy <- getType op ;;
  newShape <- must (intsOf dims) ;;
  rop <- create false TReshape outputTy [input] (newShapeAttr newShape) ;;
  ret (ReplaceWith rop).

(** [createCastOp] (lines 60-67) *)
Definition createCastOp (resElementType : ElemType) (input : Value) : M Value :=
  inputType <- getType input ;;
  create false TCast (cloneWith inputType resElementType) [input] [].

(** ** Rules built on the shape-inference interface *)

Section WithInference.

(** [InferShapedTypeOpInterface::inferReturnTypeComponents]: the dimensions
    computed from the operation's kind, operand types and attributes, or
    [None] when inference does not succeed. *)
Variable infer : OpKind -> list TensorType -> Attrs -> option (list Z).

(** [createOpAndInfer] (lines 42-58): the result type is the inferred
    dimensions with the element type given by the caller. *)
Definition createOpAndInfer (kind : OpKind) (elemType : ElemType)
  (operands : list Value) (attrs : Attrs) : M Value :=
  tys <- getTypes operands ;;
  dims <- must (infer kind tys attrs) ;;
  create true kind (TT dims elemType) operands attrs.

Definition shift0 : Attrs := [("shift"%string, AInt (IntTy 32) 0)].

(** *** SoftmaxConverter (lines 398-428) *)
Definition SoftmaxConverter (op : nat) (operands : list Value) : M Rewrite :=
  input <- must (operands !! 0%nat) ;;
  o <- getOp op ;;
  axisAttr <- must (match getAttr "axis" (op_attrs o) with
                    | Some (AInt t z) => Some (AInt t z)
                    | _ => None
                    end) ;;
  inputType <- getType input ;;
  let elementType := telem inputType in
  let axis := [("axis"%string, axisAttr)] in
  tosaMax <- createOpAndInfer TReduceMax elementType [input] axis ;;
  tosaSub <- createOpAndInfer TSub elementType [input; tosaMax] [] ;;
  tosaExp <- createOpAndInfer TExp elementType [tosaSub] [] ;;
  tosaReduceSum <- createOpAndInfer TReduceSum elementType [tosaExp] axis ;;
  tosaReciprocal <- createOpAndInfer TReciprocal elementType [tosaReduceSum] [] ;;
  tosaMul <- createOpAndInfer TMul elementType [tosaExp; tosaReciprocal] shift0 ;;
  ret (ReplaceWith tosaMul).

(** *** ReduceMeanConverter (lines 455-502) *)
Definition reduce_mean_error : string := "We only support single axes reductions!".

(** [Builder::getIntegerAttr(type, int64_t value)]: the value is stored in
    an [APInt] of the width of the type (64 for an index), which keeps the
    low bits of a narrower width and zero-extends the 64-bit pattern to a
    wider one (the element types here are signless).  [AInt] holds the value
    [getInt()] reads back, the stored bits seen in two's complement. *)
Definition getIntegerAttr (type : ElemType) (value : Z) : Attr :=
  match type with
  | IntTy w =>
      let width := Z.of_N w in
      if width <=? 64
      then AInt type ((value + 2 ^ (width - 1)) mod 2 ^ width - 2 ^ (width - 1))
      else AInt type (u64 value)
  | _ => AInt type (s64 value)
  end.

(** The integer nearest to [z] among those with at most [p] significant
    bits, ties going to the even significand (round-to-nearest-even). *)
Definition roundToBits (p : Z) (z : Z) : Z :=
  let a := Z.abs z in
  if a <? 2 ^ p then z
  else
    let q := 2 ^ (Z.log2 a + 1 - p) in
    let lo := a / q in
    let r := a mod q in
    let half := q / 2 in
    let m := if r <? half then lo
             else if half <? r then lo + 1
             else if Z.even lo then lo else lo + 1 in
    Z.sgn z * (m * q).

(** [static_cast<double>(int64_t)] *)
Definition toDouble (z : Z) : Z := roundToBits 53 z.

(** Significand width and largest finite value of the narrow formats. *)
Definition floatPrecision (type : ElemType) : Z :=
  match type with F16 => 11 | F32 => 24 | _ => 53 end.

Definition floatMax (type : ElemType) : Z :=
  match type with
  | F16 => 65504
  | F32 => (2 ^ 24 - 1) * 2 ^ 104
  | _ => (2 ^ 53 - 1) * 2 ^ 971
  end.

(** [Builder::getFloatAttr(type, double value)]: an f64 attribute holds the
    double as it is; for a narrower format the double is converted with
    round-to-nearest-even, a result beyond the largest finite value being
    an infinity. *)
Definition getFloatAttr (type : ElemType) (value : Z) : Attr :=
  match type with
  | F16 | F32 =>
      let r := roundToBits (floatPrecision type) value in
      if floatMax type <? Z.abs r then AFloatInf type (r <? 0) else AFloat type r
  | _ => AFloat type value
  end.

Definition createNumElementsTosaConst (inputTensor : Value) (axis : Z) : M Value :=
  inputTy <- getType inputTensor ;;
  let elementType := telem inputTy in
  n <- must (at_ (tshape inputTy) (u64 axis)) ;;
  let numElements :=
    if isIntOrIndex elementType then getIntegerAttr elementType n
    else getFloatAttr elementType (toDouble n) in
  let tensorType := TT [1] elementType in
  create false TConst tensorType [] [("value"%string, ADense tensorType [numElements])].

Definition ReduceMeanConverter (op : nat) (operands : list Value) : M Rewrite :=
  o <- getOp op ;;
  axes <- must (arrayAttr "axes" (op_attrs o)) ;;
  if negb (length axes =? 1)%nat then failure reduce_mean_error
  else
    axis <- must (match axes !! 0%nat with
                  | Some (AInt t z) => Some (AInt t z, z)
                  | _ => None
                  end) ;;
    input <- must (op_operands o !! 0%nat) ;;
    inputTy <- getType input ;;
    let elementType := telem inputTy in
    tosaConstantNumElements <- createNumElementsTosaConst input axis.2 ;;
    tosaReciprocal <-
      createOpAndInfer TReciprocal elementType [tosaConstantNumElements] [] ;;
    tosaMul <- createOpAndInfer TMul elementType [input; tosaReciprocal] shift0 ;;
    tosaReduceSum <-
      createOpAndInfer TReduceSum elementType [tosaMul] [("axis"%string, axis.1)] ;;
    ret (ReplaceWith tosaReduceSum).

(** *** QuantizeLinearConverter (lines 504-535) *)
Definition QuantizeLinearConverter (op : nat) (operands : list Value) : M Rewrite :=
  o <- getOp op ;;
  input <- must (op_operands o !! 0%nat) ;;
  scale <- must (op_operands o !! 1%nat) ;;
  inputType <- getType input ;;
  let elementType := telem inputType in
  shifted <- match op_operands o !! 2%nat with
             | Some bias => createOpAndInfer TAdd elementType [input; bias] []
             | None => ret input
             end ;;
  let intermediateElementType := F32 in
  upCast <- createCastOp intermediateElementType shifted ;;
  scaled <- createOpAndInfer TMul intermediateElementType [upCast; scale] shift0 ;;
  let destElementType := IntTy 8 in
  downCast <- createCastOp destElementType scaled ;;
  ret (ReplaceWith downCast).

(** *** The rule set (populateMIGraphXToTosaConversionPatterns) *)
Inductive Rule : Type :=
  | RConv | RBroadcast | RMultiBroadcast | RReshape
  | RSoftmax | RDot | RReduceMean | RQuantizeLinear.

Definition runRule (r : Rule) (fuel : nat) (op : nat) (operands : list Value)
  : M Rewrite :=
  match r with
  | RConv => ConvConverter op operands
  | RBroadcast => BroadcastConverter fuel op operands
  | RMultiBroadcast => MultiBroadcastConverter fuel op operands
  | RReshape => ReshapeConverter op operands
  | RSoftmax => SoftmaxConverter op operands
  | RDot => DotConverter op operands
  | RReduceMean => ReduceMeanConverter op operands
  | RQuantizeLinear => QuantizeLinearConverter op operands
  end.

End WithInference.

(** ** Building concrete graphs *)

Definition emptyGraph : Graph := mkGraph ∅ ∅ ∅ 0 [].

(** A graph boundary input of the given type. *)
Definition addInput (ty : TensorType) : M Value :=
  fun g =>
    let n := g_next g in
    Ok n {| g_ops := g_ops g; g_types := <[n := ty]> (g_types g);
            g_uses := g_uses g; g_next := S n; g_log := g_log g |}.

(** An operation that is part of the graph before any rule runs. *)
Definition addOp (kind : OpKind) (ty : TensorType) (operands : list Value)
  (attrs : Attrs) : M Value :=
  fun g =>
    let n := g_next g in
    Ok n {| g_ops := <[n := mkOp kind operands attrs]> (g_ops g);
            g_types := <[n := ty]> (g_types g);
            g_uses := addUses n 0 operands (g_uses g);
            g_next := S n; g_log := g_log g |}.

Definition graphOf {A} (m : M A) : Graph :=
  match m emptyGraph with Ok _ g | Failure _ g => g | _ => emptyGraph end.

Definition operandsOf (g : Graph) (o : nat) : option (list Value) :=
  op_operands <$> (g_ops g !! o).

Definition opOf (r : Res Rewrite) (o : nat) : option Op :=
  match r with
  | Ok _ g | Failure _ g => g_ops g !! o
  | _ => None
  end.

(** ** Well-formed graphs and the operations the rules log *)

(** Identifiers at or above [g_next] are unused. *)
Definition fresh_ok (g : Graph) : Prop :=
  map_Forall (fun k _ => (k < g_next g)%nat) (g_types g) /\
  map_Forall (fun k _ => (k < g_next g)%nat) (g_ops g).

#[global] Instance fresh_ok_dec g : Decision (fresh_ok g).
Proof. unfold fresh_ok. apply _. Defined.

(** Log entries of the operations built by hand. *)
Definition permConst (n : nat) (p : list Z) : Created :=
  mkCreated n (mkOp ArithConstant [] [("value"%string, ADenseI64 p)]) []
            (TT [4] (IntTy 64)) false.

Definition transposeOp (n : nat) (input : Value) (s s' : list Z) (e : ElemType)
  : Created :=
  mkCreated (S n) (mkOp TTranspose [input; n] [])
            [TT s e; TT [4] (IntTy 64)] (TT s' e) false.

Definition reshapeOp (n : nat) (input : Value) (tyIn : TensorType)
  (newShape : list Z) (e : ElemType) : Created :=
  mkCreated n (mkOp TReshape [input] (newShapeAttr newShape)) [tyIn]
            (TT newShape e) false.

Definition castOp (n : nat) (input : Value) (tyIn : TensorType) (e : ElemType)
  : Created :=
  mkCreated n (mkOp TCast [input] []) [tyIn] (cloneWith tyIn e) false.

Definition inferredOp (n : nat) (kind : OpKind) (operands : list Value)
  (tys : list TensorType) (attrs : Attrs) (dims : list Z) (e : ElemType) : Created :=
  mkCreated n (mkOp kind operands attrs) tys (TT dims e) true.

(** ** Example graphs *)

Definition f32 (s : list Z) : TensorType := TT s F32.
Definition i64Attr (z : Z) : Attr := AInt (IntTy 64) z.

(** Operands [A] (value 0) and [B] (value 1) feeding a dot (operation 2). *)
Definition dotGraph (a b c : list Z) : Graph :=
  graphOf (A <- addInput (f32 a) ;;
           B <- addInput (f32 b) ;;
           addOp MDot (f32 c) [A; B] []).

(** A single graph input (value 0). *)
Definition inputGraph (ty : TensorType) : Graph := graphOf (addInput ty).

(** Attributes of a target operation after the optional ones were copied
    from the attributes [src] of the matched operation. *)
Definition copiedAttrs (src dst : Attrs) : Attrs :=
  let a1 := match boolAttr "xdlopsV2" src with
            | Some attr => putAttr "xdlopsV2" attr dst
            | None => dst
            end in
  match strAttr "perf_config" src with
  | Some attr => putAttr "perf_config" attr a1
  | None => a1
  end.

(** The multi-broadcast reshape target as the specification words it:
    the leading [R - r] extents of the consumer's output shape, then [r]
    ones. *)
Definition spec_multiBroadcastShape (inShape outShape : list Z) : list Z :=
  take (length outShape - length inShape)%nat outShape
  ++ replicate (length inShape) 1.

(** A multi-broadcast (operation 2) of input 0, consumed by a binary
    operation (operation 3) whose other operand is value 1 and whose
    result has element type [eOut]. *)
Definition multiBroadcastGraph (inShape outShape : list Z) (eIn eOut : ElemType)
  : Graph :=
  graphOf (inp <- addInput (TT inShape eIn) ;;
           X <- addInput (TT outShape eIn) ;;
           mb <- addOp MMultiBroadcast (TT outShape eIn) [inp] [] ;;
           addOp (OtherOp "binary") (TT outShape eOut) [X; mb] []).

Definition matmulOp (n : nat) (a b : Value) (tyA tyB : TensorType)
  (dims : list Z) (e : ElemType) : Created :=
  mkCreated n (mkOp TMatMul [a; b] []) [tyA; tyB] (TT dims e) false.

(** The operations the dot rule builds on its flattening path, and the
    graph it leaves: reshape of A, reshape of B, matmul (with the optional
    attributes copied), reshape back to the output type. *)
Definition dotFlattened (g : Graph) (srcAttrs : Attrs) (in_A in_B : Value)
  (tyA tyB outTy : TensorType) (e : ElemType) (d : DotDims) : Graph :=
  let n := g_next g in
  addCreated
    (reshapeOp (S (S (S n))) (S (S n)) (TT (newDimsOut d) e) (tshape outTy) (telem outTy))
    (setOp (S (S n)) (mkOp TMatMul [n; S n] (copiedAttrs srcAttrs []))
       (addCreated
          (matmulOp (S (S n)) n (S n) (TT (newDimsA d) e) (TT (newDimsB d) e)
                    (newDimsOut d) e)
          (addCreated (reshapeOp (S n) in_B tyB (newDimsB d) e)
             (addCreated (reshapeOp n in_A tyA (newDimsA d) e) g)))).

(** The log of a run holds a reshape of value [v] to [target]. *)
Definition reshapes_to (r : Res Rewrite) (v : Value) (target : list Z) : Prop :=
  exists res g' c,
    r = Ok res g' /\ c ∈ g_log g' /\
    c_op c = mkOp TReshape [v] (newShapeAttr target).

(** A graph in which operation 2 (of kind [kind], over input 0) fans out:
    its result is held by a binary operation (3, first slot), a unary
    operation (4) and a second binary operation (6, first slot); the other
    operand of the binary operations, value 1, has a unary user (5) too.
    Use lists are newest first, so the uses of 2 are slots (6,0), (4,0),
    (3,0) and the uses of 1 are (6,1), (5,0), (3,1). *)
Definition fanoutGraph (kind : OpKind) (attrs : Attrs) (inShape outShape : list Z)
  : Graph :=
  graphOf (inp <- addInput (f32 inShape) ;;
           X <- addInput (f32 outShape) ;;
           b <- addOp kind (f32 outShape) [inp] attrs ;;
           _ <- addOp (OtherOp "add") (f32 outShape) [b; X] [] ;;
           _ <- addOp (OtherOp "exp") (f32 outShape) [b] [] ;;
           _ <- addOp (OtherOp "exp") (f32 outShape) [X] [] ;;
           addOp (OtherOp "add") (f32 outShape) [b; X] []).

Definition broadcastGraph : Graph :=
  fanoutGraph MBroadcast [("axis"%string, i64Attr 1)] [4] [2; 4; 3; 3].

(** The graph after the operations of [l] were built in order. *)
Definition built (g : Graph) (l : list Created) : Graph :=
  fold_left (fun g e => addCreated e g) l g.




(** An oracle for the examples: a reduction sets the extent of its axis
    to 1, every other operation has the shape of its first operand. *)
Definition exampleInfer (kind : OpKind) (tys : list TensorType) (attrs : Attrs)
  : option (list Z) :=
  match kind with
  | TReduceSum | TReduceMax =>
      t ← head tys;
      a ← intAttr "axis" attrs;
      Some (<[Z.to_nat a := 1]> (tshape t))
  | _ => tshape <$> head tys
  end.

(** A quantize-linear (operation 3) over input 0, scale 1 and bias 2. *)
Definition quantizeGraph : Graph :=
  graphOf (x <- addInput (f32 [2; 4]) ;;
           s <- addInput (f32 [2; 4]) ;;
           b <- addInput (f32 [2; 4]) ;;
           addOp MQuantizeLinear (TT [2; 4] (IntTy 8)) [x; s; b] []).

(** A reduce-mean (operation 1) over input 0 with the given axes. *)
Definition reduceMeanGraph (axes : list Attr) : Graph :=
  graphOf (x <- addInput (f32 [2; 4]) ;;
           addOp MReduceMean (f32 [2; 1]) [x] [("axes"%string, AArray axes)]).

Definition multiBroadcastFanout : Graph :=
  fanoutGraph MMultiBroadcast [] [3; 1; 1] [2; 3; 4; 4].

(** ** Shape consistency of the operations a rule builds *)

(** The declared shape of a logged operation is what [infer] computes from
    its kind, operand types and attributes as they were when it was built. *)
Definition shape_inferred (infer : OpKind -> list TensorType -> Attrs -> option (list Z))
  (c : Created) : Prop :=
  infer (op_kind (c_op c)) (c_inputs c) (op_attrs (c_op c)) = Some (tshape (c_type c)).

(** Every operation built through [createOpAndInfer] carries the inferred
    shape. *)
Definition helper_consistent
  (infer : OpKind -> list TensorType -> Attrs -> option (list Z))
  (l : list Created) : Prop :=
  Forall (fun c => c_inferred c = true -> shape_inferred infer c) l.

(** The claim as the specification words it, for an oracle that returns
    shape and element type: every logged operation, stamped by hand or
    not, carries the type the oracle computes. *)
Definition oracle_consistent
  (oracle : OpKind -> list TensorType -> Attrs -> option TensorType)
  (l : list Created) : Prop :=
  Forall (fun c => oracle (op_kind (c_op c)) (c_inputs c) (op_attrs (c_op c))
                   = Some (c_type c)) l.

Definition logOf {A} (r : Res A) : list Created :=
  match r with
  | Ok _ g | Failure _ g => g_log g
  | _ => []
  end.

(** A computation only appends to the creation log, and what it appends
    through the helper carries the inferred shape. *)
Definition log_grows
  (infer : OpKind -> list TensorType -> Attrs -> option (list Z))
  {A} (m : M A) : Prop :=
  forall g,
    match m g with
    | Ok _ g' | Failure _ g' =>
        exists new, g_log g' = g_log g ++ new /\ helper_consistent infer new
    | _ => True
    end.

(** A convolution (operation 2) of input 0 by filter 1. *)
Definition convGraph (stride : Z) (outShape : list Z) : Graph :=
  graphOf (x <- addInput (f32 [1; 3; 8; 8]) ;;
           w <- addInput (f32 [4; 3; 3; 3]) ;;
           addOp MConvolution (f32 outShape) [x; w]
                 [("padding"%string, AArray [i64Attr 0; i64Attr 0; i64Attr 0; i64Attr 0]);
                  ("stride"%string, AArray [i64Attr stride; i64Attr stride]);
                  ("dilation"%string, AArray [i64Attr 1; i64Attr 1])]).

(** A softmax (operation 1, axis 1) of input 0. *)
Definition softmaxGraph : Graph :=
  graphOf (x <- addInput (f32 [2; 4]) ;;
           addOp MSoftmax (f32 [2; 4]) [x] [("axis"%string, i64Attr 1)]).

(** The graph a run leaves ([g0] when it aborted). *)
Definition graphAfter {A} (r : Res A) (g0 : Graph) : Graph :=
  match r with
  | Ok _ g | Failure _ g => g
  | _ => g0
  end.

(** Attributes of the target convolution when the rule is done with it. *)
Definition convAttrs (srcAttrs : Attrs) (elementTy : ElemType)
  (dilation stride pad : list Z) : Attrs :=
  let a := putAttr "pad" (ADenseI64 pad)
             (putAttr "stride" (ADenseI64 stride)
                (putAttr "dilation" (ADenseI64 dilation) [])) in
  let a' := copiedAttrs srcAttrs a in
  if isInteger8 elementTy then putAttr "quantization_info" (AConvQuant 0 0) a'
  else a'.

Definition zeroBias (n : nat) (channels : Z) (e : ElemType) : Created :=
  mkCreated n (mkOp ArithConstant [] [("value"%string, AZero (TT [channels] e))])
            [] (TT [channels] e) false.

Definition conv2dOp (n : nat) (operands : list Value) (tys : list TensorType)
  (outShape : list Z) (e : ElemType) : Created :=
  mkCreated n (mkOp TConv2D operands []) tys (TT outShape e) false.

(** The graph the convolution rule leaves: transposes of input and filter
    to channel-last, zero bias, target convolution with its attributes,
    transpose of the result back to channel-first. *)
Definition convLowered (g : Graph) (srcAttrs : Attrs) (elementTy : ElemType)
  (input_t filter_t : Value) (sI sF sO : list Z) (sI' sF' sO' : list Z)
  (eI eF eOut : ElemType) (channels : Z) (dilation stride pad : list Z) : Graph :=
  let n := g_next g in
  let convOperands := [S n; S (S (S n)); (4 + n)%nat] in
  addCreated (transposeOp (6 + n) (5 + n)%nat sO' sO eOut)
    (addCreated (permConst (6 + n) NHWC2NCHW)
       (setOp (5 + n)
          (mkOp TConv2D convOperands (convAttrs srcAttrs elementTy dilation stride pad))
          (built g
             [permConst n NCHW2NHWC;
              transposeOp n input_t sI sI' eI;
              permConst (2 + n) NCHW2NHWC;
              transposeOp (2 + n) filter_t sF sF' eF;
              zeroBias (4 + n) channels eOut;
              conv2dOp (5 + n) convOperands
                       [TT sI' eI; TT sF' eF; TT [channels] eOut] sO' eOut]))).

(** ** Invariants of the rules *)

(** A computation started in a graph satisfying [I] leaves, on return and
    on reported failure alike, a graph satisfying [I] and related to the
    start by [R]; a returned value satisfies [Q]. *)
Definition hoare (I : Graph -> Prop) (R : Graph -> Graph -> Prop)
  {A} (Q : A -> Prop) (m : M A) : Prop :=
  forall g, I g ->
    match m g with
    | Ok a g' => I g' /\ R g g' /\ Q a
    | Failure _ g' => I g' /\ R g g'
    | _ => True
    end.

(** The rules that edit consumers in place. *)
Definition rewires (r : Rule) : bool :=
  match r with
  | RBroadcast | RMultiBroadcast => true
  | _ => false
  end.

(** Use lists and operand lists agree: a slot is in the use list of a
    value exactly when the slot exists and holds that value. *)
Definition uses_ok (g : Graph) : Prop :=
  forall (v : Value) (o i : nat),
    (o, i) ∈ usesOf g v <->
    exists op, g_ops g !! o = Some op /\ op_operands op !! i = Some v.

(** No slot is listed twice in a use list. *)
Definition uses_nodup (g : Graph) : Prop :=
  forall v : Value, NoDup (usesOf g v).

(** The invariant of a well-formed graph: unused identifiers are unused,
    use lists and operand lists agree, and no slot is listed twice. *)
Definition graph_ok (g : Graph) : Prop :=
  fresh_ok g /\ uses_ok g /\ uses_nodup g.

(** ** What a rule leaves alone *)

(** Graphs [g] and [g'] agree on every operation and value type whose
    identifier is below the watermark [w]. *)
Definition old_ids_kept (w : nat) (g g' : Graph) : Prop :=
  forall k : nat, (k < w)%nat ->
    g_ops g' !! k = g_ops g !! k /\ g_types g' !! k = g_types g !! k.

(** What in-place operand rewiring cannot change of an operation. *)
Definition opSig (op : Op) : OpKind * nat * Attrs :=
  (op_kind op, length (op_operands op), op_attrs op).

Definition old_sigs_kept (w : nat) (g g' : Graph) : Prop :=
  forall k : nat, (k < w)%nat ->
    opSig <$> g_ops g' !! k = opSig <$> g_ops g !! k /\
    g_types g' !! k = g_types g !! k.

(** The state invariant that goes with a watermark. *)
Definition above (w : nat) (g : Graph) : Prop := fresh_ok g /\ (w <= g_next g)%nat.

(** A product with two batch dimensions. *)
Definition batchedDot : Graph := dotGraph [1; 2; 3; 4] [1; 2; 4; 5] [1; 2; 3; 5].

(** ** How a rule can end *)

(** A computation reports a failure only with a message in [P], and runs out
    of iteration budget only if [T] holds. *)
Definition fails_only (P : string -> Prop) (T : Prop) {A} (m : M A) : Prop :=
  forall g, match m g with
            | Failure msg _ => P msg
            | OutOfFuel => T
            | _ => True
            end.

(** The one failure message of each rule, if it has any. *)
Definition failure_of (r : Rule) : option string :=
  match r with
  | RDot => Some dot_error
  | RReduceMean => Some reduce_mean_error
  | RBroadcast | RMultiBroadcast => Some EmptyString
  | RConv | RReshape | RSoftmax | RQuantizeLinear => None
  end.

(** The fan-out graph of a broadcast whose axis counts from the back. *)
Definition negativeAxisGraph : Graph :=
  fanoutGraph MBroadcast [("axis"%string, i64Attr (-1))] [4] [2; 4; 3; 3].

(** A convolution (operation 2) over a three-dimensional input. *)
Definition conv1dGraph : Graph :=
  graphOf (x <- addInput (f32 [1; 3; 8]) ;;
           w <- addInput (f32 [4; 3; 3; 3]) ;;
           addOp MConvolution (f32 [1; 4; 6; 6]) [x; w]
                 [("padding"%string, AArray [i64Attr 0; i64Attr 0; i64Attr 0; i64Attr 0]);
                  ("stride"%string, AArray [i64Attr 1; i64Attr 1]);
                  ("dilation"%string, AArray [i64Attr 1; i64Attr 1])]).

(** A reshape (operation 1) of input 0 whose [dims] disagree with the
    declared result type. *)
Definition reshapeGraph : Graph :=
  graphOf (x <- addInput (f32 [2; 6]) ;;
           addOp MReshape (f32 [3; 4]) [x]
                 [("dims"%string, AArray [i64Attr 4; i64Attr 3])]).

(** ** Element counts *)

Definition numElements (s : list Z) : Z := fold_right Z.mul 1 s.

(** Equal as 64-bit quantities. *)
Definition eq64 (a b : Z) : Prop := a mod 2 ^ 64 = b mod 2 ^ 64.

(** ** Rewiring a consumer *)

(** The graph after operand slot [i] of operation [o] was redirected to [v]. *)
Definition redirect (o i : nat) (v : Value) (g : Graph) : Graph :=
  graphAfter (setOperand o i v g) g.

(** A broadcast-like operation (operation 2) of input 0 whose result is the
    second operand of [consumers] binary operations (3, 4, ...) over
    input 1. *)
Fixpoint addConsumers (consumers : nat) (ty : TensorType) (X b : Value) : M unit :=
  match consumers with
  | O => ret tt
  | S k => (addOp (OtherOp "add") ty [X; b] [] ;;; addConsumers k ty X b)%rw
  end.

Definition secondSlotGraph (kind : OpKind) (attrs : Attrs) (inShape outShape : list Z)
  (consumers : nat) : Graph :=
  graphOf (inp <- addInput (f32 inShape) ;;
           X <- addInput (f32 outShape) ;;
           b <- addOp kind (f32 outShape) [inp] attrs ;;
           addConsumers consumers (f32 outShape) X b).

(** ** What a rule builds *)

(** A computation only appends to the creation log, and only operations
    whose kind satisfies [K]. *)
Definition builds (K : OpKind -> Prop) {A} (m : M A) : Prop :=
  forall g,
    match m g with
    | Ok _ g' | Failure _ g' =>
        exists new, g_log g' = g_log g ++ new /\
                    Forall (fun c => K (op_kind (c_op c))) new
    | _ => True
    end.

(** The target operations of each rule. *)
Definition vocabulary (r : Rule) : list OpKind :=
  match r with
  | RConv => [ArithConstant; TTranspose; TConv2D]
  | RBroadcast | RMultiBroadcast | RReshape => [TReshape]
  | RSoftmax => [TReduceMax; TSub; TExp; TReduceSum; TReciprocal; TMul]
  | RDot => [TReshape; TMatMul]
  | RReduceMean => [TConst; TReciprocal; TMul; TReduceSum]
  | RQuantizeLinear => [TAdd; TCast; TMul]
  end.

(** A five-dimensional input (value 0). *)
Definition rank5Input : Graph := inputGraph (f32 [1; 3; 8; 8; 2]).

(** ** What a rule hands back *)

(** A property of every successful run of a computation. *)
Definition steps {A} (P : Graph -> A -> Graph -> Prop) (m : M A) : Prop :=
  forall g, match m g with Ok a g' => P g a g' | _ => True end.

(** The computation never takes identifiers back. *)
Definition next_mono {A} : M A -> Prop :=
  steps (fun g _ g' => (g_next g <= g_next g')%nat).

(** The computation hands out no identifier and leaves the types alone. *)
Definition next_kept {A} : M A -> Prop :=
  steps (fun g _ g' => g_next g' = g_next g /\ g_types g' = g_types g).

(** The value returned was built by the computation itself. *)
Definition built_here (g : Graph) (v : Value) (g' : Graph) : Prop :=
  (g_next g <= v < g_next g')%nat /\ is_Some (g_types g' !! v).

Definition makes_new : M Value -> Prop := steps built_here.

Definition replaces_by_new : M Rewrite -> Prop :=
  steps (fun g r g' => exists v, r = ReplaceWith v /\ built_here g v g').

Definition erases : M Rewrite -> Prop := steps (fun _ r _ => r = Erase).
(** * Properties *)

(** ** Reasoning about the rewrite monad *)

Lemma bind_Ok {A B} (m : M A) (k : A -> M B) g a g' :
  m g = Ok a g' -> bind m k g = k a g'.
Proof. intros H. unfold bind. rewrite H. reflexivity. Qed.

Lemma bind_Failure {A B} (m : M A) (k : A -> M B) g s g' :
  m g = Failure s g' -> bind m k g = Failure s g'.
Proof. intros H. unfold bind. rewrite H. reflexivity. Qed.

Lemma bind_Crash {A B} (m : M A) (k : A -> M B) g :
  m g = Crash -> bind m k g = Crash.
Proof. intros H. unfold bind. rewrite H. reflexivity. Qed.

Lemma must_Some {A} (o : option A) a g : o = Some a -> must o g = Ok a g.
Proof. intros ->. reflexivity. Qed.

Lemma must_None {A} (o : option A) g : o = None -> must o g = Crash.
Proof. intros ->. reflexivity. Qed.

Lemma getType_Ok g v t : g_types g !! v = Some t -> getType v g = Ok t g.
Proof. intros H. unfold getType. rewrite H. reflexivity. Qed.

Lemma getOp_Ok g o op : g_ops g !! o = Some op -> getOp o g = Ok op g.
Proof. intros H. unfold getOp. rewrite H. reflexivity. Qed.

Lemma fresh_ok_lt g v t : fresh_ok g -> g_types g !! v = Some t -> (v < g_next g)%nat.
Proof. intros [Hf _] Hv. exact (Hf v t Hv). Qed.

Lemma fresh_ok_op_lt g o op : fresh_ok g -> g_ops g !! o = Some op -> (o < g_next g)%nat.
Proof. intros [_ Hf] Hv. exact (Hf o op Hv). Qed.

Lemma create_Ok inferred kind ty operands attrs g tys :
  mapM (fun v => g_types g !! v) operands = Some tys ->
  create inferred kind ty operands attrs g
  = Ok (g_next g)
       (addCreated (mkCreated (g_next g) (mkOp kind operands attrs) tys ty inferred) g).
Proof. intros H. unfold create. rewrite H. reflexivity. Qed.

Lemma addCreated_type_new e g : g_types (addCreated e g) !! c_id e = Some (c_type e).
Proof. unfold addCreated; cbn [g_types]. apply lookup_insert_eq. Qed.

Lemma addCreated_type_old e g v t :
  fresh_ok g -> c_id e = g_next g ->
  g_types g !! v = Some t -> g_types (addCreated e g) !! v = Some t.
Proof.
  intros Hf He Hv. unfold addCreated; cbn [g_types].
  rewrite lookup_insert_ne; [assumption|].
  pose proof (fresh_ok_lt _ _ _ Hf Hv). lia.
Qed.

Lemma addCreated_op_new e g : g_ops (addCreated e g) !! c_id e = Some (c_op e).
Proof. unfold addCreated; cbn [g_ops]. apply lookup_insert_eq. Qed.

Lemma addCreated_op_old e g o op :
  fresh_ok g -> c_id e = g_next g ->
  g_ops g !! o = Some op -> g_ops (addCreated e g) !! o = Some op.
Proof.
  intros Hf He Hv. unfold addCreated; cbn [g_ops].
  rewrite lookup_insert_ne; [assumption|].
  pose proof (fresh_ok_op_lt _ _ _ Hf Hv). lia.
Qed.

Lemma addCreated_fresh e g :
  fresh_ok g -> c_id e = g_next g -> fresh_ok (addCreated e g).
Proof.
  intros [H1 H2] He. unfold fresh_ok, addCreated; cbn [g_types g_ops g_next].
  split; (apply map_Forall_insert_2; [lia|]);
    (eapply map_Forall_impl; [eassumption|]); cbn; intros; lia.
Qed.

(** ** Indexing *)

Lemma at_Some_iff s i d :
  at_ s i = Some d <-> 0 <= i < rank s /\ s !! Z.to_nat i = Some d.
Proof.
  unfold at_.
  destruct (Z.leb_spec 0 i), (Z.ltb_spec i (rank s)); cbn [andb];
    split; try (intros [? ?]; lia); try discriminate; tauto.
Qed.

Lemma at_in_range s i : 0 <= i < rank s -> exists d, at_ s i = Some d.
Proof.
  intros Hi. destruct (lookup_lt_is_Some_2 s (Z.to_nat i)) as [d Hd].
  { unfold rank in Hi. lia. }
  exists d. apply at_Some_iff. auto.
Qed.

Lemma at_out_of_range s i : ~ (0 <= i < rank s) -> at_ s i = None.
Proof.
  intros Hi. destruct (at_ s i) eqn:E; [|reflexivity].
  apply at_Some_iff in E. tauto.
Qed.

(** ** Layout transposes *)

Lemma mapM_types_2 (m : gmap nat TensorType) v1 v2 t1 t2 :
  m !! v1 = Some t1 -> m !! v2 = Some t2 ->
  mapM (fun v => m !! v) [v1; v2] = Some [t1; t2].
Proof. intros H1 H2. cbn [mapM]. rewrite H1, H2. reflexivity. Qed.

Lemma mapM_types_1 (m : gmap nat TensorType) v1 t1 :
  m !! v1 = Some t1 -> mapM (fun v => m !! v) [v1] = Some [t1].
Proof. intros H1. cbn [mapM]. rewrite H1. reflexivity. Qed.

Lemma getRank4TransposeOp_spec g input s e p s' :
  fresh_ok g ->
  g_types g !! input = Some (TT s e) ->
  permuteShape s p = Some s' ->
  getRank4TransposeOp input p g
  = Ok (S (g_next g))
       (addCreated (transposeOp (g_next g) input s s' e)
                   (addCreated (permConst (g_next g) p) g)).
Proof.
  intros Hf Hin Hp. unfold getRank4TransposeOp.
  erewrite bind_Ok by (apply create_Ok; reflexivity).
  fold (permConst (g_next g) p).
  assert (Hin' : g_types (addCreated (permConst (g_next g) p) g) !! input
                 = Some (TT s e)).
  { apply addCreated_type_old; auto. }
  erewrite bind_Ok by (apply getType_Ok; exact Hin').
  cbn [tshape telem].
  erewrite bind_Ok by (apply must_Some; exact Hp).
  erewrite create_Ok.
  2:{ apply mapM_types_2; [exact Hin'|].
      apply (addCreated_type_new (permConst (g_next g) p)). }
  reflexivity.
Qed.

Lemma permuteShape_rank4 a b c d p0 p1 p2 p3 :
  0 <= p0 < 4 -> 0 <= p1 < 4 -> 0 <= p2 < 4 -> 0 <= p3 < 4 ->
  permuteShape [a; b; c; d] [p0; p1; p2; p3]
  = Some [nth (Z.to_nat p0) [a; b; c; d] 0; nth (Z.to_nat p1) [a; b; c; d] 0;
          nth (Z.to_nat p2) [a; b; c; d] 0; nth (Z.to_nat p3) [a; b; c; d] 0].
Proof.
  intros H0 H1 H2 H3.
  assert (E : forall p, 0 <= p < 4 -> p = 0 \/ p = 1 \/ p = 2 \/ p = 3) by lia.
  destruct (E _ H0) as [->|[->|[->| ->]]], (E _ H1) as [->|[->|[->| ->]]],
    (E _ H2) as [->|[->|[->| ->]]], (E _ H3) as [->|[->|[->| ->]]];
    reflexivity.
Qed.

(** C7. The shape stamped by [getRank4TransposeOp] is the input shape
    permuted by the given permutation (extent k of the result is extent
    [permutation[k]] of the input), and for every 4-dimensional shape
    [a,b,c,d] the transpose by [0,2,3,1] followed by the transpose by
    [0,3,1,2] carries the shape [a,b,c,d] again. *)
Theorem C7_layout_transpose_round_trip :
  forall (g : Graph) (input : Value) (a b c d : Z) (e : ElemType),
    fresh_ok g ->
    g_types g !! input = Some (TT [a; b; c; d] e) ->
    (forall p0 p1 p2 p3,
        0 <= p0 < 4 -> 0 <= p1 < 4 -> 0 <= p2 < 4 -> 0 <= p3 < 4 ->
        exists t g',
          getRank4TransposeOp input [p0; p1; p2; p3] g = Ok t g' /\
          g_types g' !! t
          = Some (TT [nth (Z.to_nat p0) [a; b; c; d] 0;
                      nth (Z.to_nat p1) [a; b; c; d] 0;
                      nth (Z.to_nat p2) [a; b; c; d] 0;
                      nth (Z.to_nat p3) [a; b; c; d] 0] e)) /\
    (exists t1 g1 t2 g2,
        getRank4TransposeOp input NCHW2NHWC g = Ok t1 g1 /\
        g_types g1 !! t1 = Some (TT [a; c; d; b] e) /\
        getRank4TransposeOp t1 NHWC2NCHW g1 = Ok t2 g2 /\
        g_types g2 !! t2 = Some (TT [a; b; c; d] e)).
Proof.
  intros g input a b c d e Hf Hin. split.
  - intros p0 p1 p2 p3 H0 H1 H2 H3.
    eexists _, _. split.
    + eapply getRank4TransposeOp_spec; eauto.
      apply permuteShape_rank4; assumption.
    + apply (addCreated_type_new (transposeOp _ _ _ _ _)).
  - eexists _, _, _, _.
    split; [eapply getRank4TransposeOp_spec; eauto; reflexivity|].
    split; [apply (addCreated_type_new (transposeOp _ _ _ _ _))|].
    split.
    + eapply getRank4TransposeOp_spec.
      * apply addCreated_fresh; [apply addCreated_fresh; auto|reflexivity].
      * apply (addCreated_type_new (transposeOp _ _ _ _ _)).
      * reflexivity.
    + apply (addCreated_type_new (transposeOp _ _ _ _ _)).
Qed.

Lemma C7_witness :
  exists t1 g1 t2 g2,
    getRank4TransposeOp 0%nat NCHW2NHWC (inputGraph (f32 [1; 3; 8; 8])) = Ok t1 g1 /\
    g_types g1 !! t1 = Some (TT [1; 8; 8; 3] F32) /\
    getRank4TransposeOp t1 NHWC2NCHW g1 = Ok t2 g2 /\
    g_types g2 !! t2 = Some (TT [1; 3; 8; 8] F32).
Proof.
  apply (C7_layout_transpose_round_trip
           (inputGraph (f32 [1; 3; 8; 8])) 0%nat 1 3 8 8 F32);
    first [reflexivity | apply (bool_decide_unpack _); vm_compute; exact I].
Defined.

(** ** Machine-integer facts *)

Lemma u64_small z : 0 <= z < 2 ^ 64 -> u64 z = z.
Proof. intros H. unfold u64. apply Z.mod_small. exact H. Qed.

Lemma u32_small z : 0 <= z < 2 ^ 32 -> u32 z = z.
Proof. intros H. unfold u32. apply Z.mod_small. exact H. Qed.

Lemma u64_neg z : - 2 ^ 64 <= z < 0 -> u64 z = z + 2 ^ 64.
Proof.
  intros H. unfold u64.
  rewrite <- (Z.mod_add z 1 (2 ^ 64)) by lia.
  apply Z.mod_small. lia.
Qed.

Lemma rank_nonneg s : 0 <= rank s.
Proof. unfold rank. lia. Qed.

Lemma rank_replicate (x : Z) n : rank (replicate n x) = Z.of_nat n.
Proof. unfold rank. rewrite length_replicate. reflexivity. Qed.

Lemma rank_app (s t : list Z) : rank (s ++ t) = rank s + rank t.
Proof. unfold rank. rewrite length_app. lia. Qed.

(** ** Broadcast alignment *)

Lemma reshape_create_Ok g input tyIn newShape e :
  g_types g !! input = Some tyIn ->
  create false TReshape (TT newShape e) [input] (newShapeAttr newShape) g
  = Ok (g_next g) (addCreated (reshapeOp (g_next g) input tyIn newShape e) g).
Proof. intros H. apply create_Ok. apply mapM_types_1. exact H. Qed.

Lemma broadcastShape_ok R axis inShape d :
  0 <= axis < R -> R < 2 ^ 32 -> inShape !! 0%nat = Some d ->
  broadcastShape R axis inShape
  = Some (<[Z.to_nat axis := d]> (replicate (Z.to_nat R) 1)).
Proof.
  intros Ha HR Hd. unfold broadcastShape.
  assert (Hat : at_ inShape 0 = Some d).
  { apply at_Some_iff. split; [|exact Hd].
    apply lookup_lt_Some in Hd. unfold rank. lia. }
  rewrite Hat. cbn [mbind option_bind].
  rewrite u64_small by lia. rewrite rank_replicate.
  destruct (Z.ltb_spec axis (Z.of_nat (Z.to_nat R))); [reflexivity|lia].
Qed.

Lemma aligned_shape_pointwise (d : Z) (a n : nat) :
  (a < n)%nat ->
  length (<[a := d]> (replicate n 1)) = n /\
  <[a := d]> (replicate n 1) !! a = Some d /\
  (forall i, (i < n)%nat -> i <> a -> <[a := d]> (replicate n 1) !! i = Some 1).
Proof.
  intros Ha. split; [|split].
  - rewrite length_insert, length_replicate. reflexivity.
  - apply list_lookup_insert_eq. rewrite length_replicate. exact Ha.
  - intros i Hi Hne. rewrite list_lookup_insert_ne by congruence.
    apply lookup_replicate_2. exact Hi.
Qed.

(** C6. In the broadcast lowering, when the output rank R differs from the
    input rank, the input is reshaped to the rank-R shape that carries the
    input's (leading) extent at the axis and 1 everywhere else; input shape
    [4], rank 4, axis 1 gives [1,4,1,1]; when the ranks are equal no reshape
    is built and the input itself is the new operand. *)
Theorem C6_broadcast_alignment :
  forall (g : Graph) (op : nat) (o : Op) (input_t : Value) (axis : Z)
         (inShape outShape : list Z) (eIn eOut : ElemType),
    fresh_ok g ->
    g_ops g !! op = Some o ->
    intAttr "axis" (op_attrs o) = Some axis ->
    g_types g !! op = Some (TT outShape eOut) ->
    g_types g !! input_t = Some (TT inShape eIn) ->
    rank outShape < 2 ^ 32 ->
    (rank outShape <> rank inShape ->
     1 <= rank inShape -> 0 <= axis < rank outShape ->
     exists d newShape,
       inShape !! 0%nat = Some d /\
       broadcastAlign op input_t g
       = Ok (g_next g)
            (addCreated (reshapeOp (g_next g) input_t (TT inShape eIn) newShape eOut) g) /\
       rank newShape = rank outShape /\
       newShape !! Z.to_nat axis = Some d /\
       (forall i, (i < length outShape)%nat -> i <> Z.to_nat axis ->
                  newShape !! i = Some 1)) /\
    (rank outShape = rank inShape -> broadcastAlign op input_t g = Ok input_t g) /\
    broadcastShape 4 1 [4] = Some [1; 4; 1; 1].
Proof.
  intros g op o input_t axis inShape outShape eIn eOut Hf Hop Hax Hout Hin HR.
  pose proof (rank_nonneg outShape) as HR0.
  assert (Hstart :
             broadcastAlign op input_t g
             = (if negb (rank outShape =? rank inShape)
                then (newShape <- must (broadcastShape (rank outShape) axis inShape) ;;
                      create false TReshape (TT newShape eOut) [input_t]
                             (newShapeAttr newShape))
                else ret input_t) g) by
    (unfold broadcastAlign;
     erewrite bind_Ok by (apply getOp_Ok; exact Hop);
     erewrite bind_Ok by (apply must_Some; exact Hax);
     erewrite bind_Ok by (apply getType_Ok; exact Hout);
     erewrite bind_Ok by (apply getType_Ok; exact Hin);
     cbn [tshape telem]; rewrite u32_small by lia; reflexivity).
  split; [|split].
  - intros Hne Hr Ha.
    destruct inShape as [|d rest]; [unfold rank in Hr; cbn in Hr; lia|].
    exists d, (<[Z.to_nat axis := d]> (replicate (Z.to_nat (rank outShape)) 1)).
    destruct (aligned_shape_pointwise d (Z.to_nat axis) (Z.to_nat (rank outShape)))
      as (Hlen & Hat & Hoth); [lia|].
    split; [reflexivity|]. split; [|split; [|split]].
    + rewrite Hstart.
      destruct (Z.eqb_spec (rank outShape) (rank (d :: rest))); [contradiction|].
      cbn [negb].
      erewrite bind_Ok by (apply must_Some, broadcastShape_ok; [lia|lia|reflexivity]).
      apply reshape_create_Ok. exact Hin.
    + unfold rank at 1. rewrite Hlen. lia.
    + exact Hat.
    + intros i Hi Hne'. apply Hoth; [|exact Hne'].
      unfold rank. lia.
  - intros Heq. rewrite Hstart.
    rewrite (proj2 (Z.eqb_eq _ _) Heq). reflexivity.
  - reflexivity.
Qed.

Lemma C6_witness :
  exists d newShape,
    [4] !! 0%nat = Some d /\
    broadcastAlign 2 0%nat broadcastGraph
    = Ok (g_next broadcastGraph)
         (addCreated (reshapeOp (g_next broadcastGraph) 0%nat (TT [4] F32) newShape F32)
                     broadcastGraph) /\
    rank newShape = rank [2; 4; 3; 3] /\
    newShape !! Z.to_nat 1 = Some d /\
    (forall i, (i < length [2; 4; 3; 3])%nat -> i <> Z.to_nat 1 ->
               newShape !! i = Some 1).
Proof.
  apply (C6_broadcast_alignment broadcastGraph 2%nat
           (mkOp MBroadcast [0%nat] [("axis"%string, i64Attr 1)]) 0%nat 1
           [4] [2; 4; 3; 3] F32 F32);
    first [ reflexivity
          | apply (bool_decide_unpack _); vm_compute; exact I
          | unfold rank; simpl; lia ].
Defined.

(** ** Multi-broadcast alignment *)

Lemma copy_loop_spec rest : forall bound i acc,
  i <= bound -> bound - i <= rank rest ->
  copy_loop bound i rest acc
  = Some (acc ++ take (Z.to_nat (bound - i)) rest, bound).
Proof.
  induction rest as [|d rest IH]; intros bound i acc Hi Hb.
  - unfold rank in Hb; cbn in Hb. assert (i = bound) as -> by lia.
    cbn. rewrite Z.ltb_irrefl, Z.sub_diag, app_nil_r. reflexivity.
  - cbn [copy_loop]. destruct (Z.ltb_spec i bound) as [Hlt|Hge].
    + rewrite IH; [|lia|unfold rank in *; cbn [length] in Hb; lia].
      rewrite <- app_assoc. cbn [app].
      replace (Z.to_nat (bound - i)) with (S (Z.to_nat (bound - (i + 1)))) by lia.
      reflexivity.
    + assert (i = bound) as -> by lia.
      rewrite Z.sub_diag. cbn. rewrite app_nil_r. reflexivity.
Qed.

Lemma copy_loop_out_of_range rest : forall bound i acc,
  rank rest < bound - i -> copy_loop bound i rest acc = None.
Proof.
  induction rest as [|d rest IH]; intros bound i acc Hb;
    unfold rank in Hb; cbn [length] in Hb; cbn [copy_loop].
  - destruct (Z.ltb_spec i bound); [reflexivity|lia].
  - destruct (Z.ltb_spec i bound); [|lia].
    apply IH. unfold rank. lia.
Qed.

Lemma multiBroadcastShape_ok inShape R :
  rank inShape < R <= 2 * rank inShape -> R < 2 ^ 32 ->
  multiBroadcastShape inShape R
  = Some (take (Z.to_nat (R - rank inShape)) inShape
          ++ replicate (length inShape) 1).
Proof.
  intros Hr HR. pose proof (rank_nonneg inShape).
  unfold multiBroadcastShape.
  rewrite (u32_small (rank inShape)) by lia.
  rewrite u32_small by lia.
  rewrite copy_loop_spec by lia.
  cbn [mbind option_bind]. unfold ones_loop. cbn [app].
  rewrite Z.sub_0_r.
  replace (Z.to_nat (R - (R - rank inShape))) with (length inShape)
    by (unfold rank; lia).
  reflexivity.
Qed.

(** C5 (as the code has it). In the multi-broadcast lowering, for a
    consumer whose output rank R exceeds the input rank r by at most r, the
    reshape target has its first R - r extents copied from the input's own
    shape and its remaining r trailing extents set to 1. *)
Theorem C5_multibroadcast_target_from_input :
  forall (g : Graph) (input_t : Value) (expandedOp : nat)
         (inShape outShape : list Z) (eIn eOut : ElemType),
    g_types g !! input_t = Some (TT inShape eIn) ->
    g_types g !! expandedOp = Some (TT outShape eOut) ->
    rank inShape < rank outShape <= 2 * rank inShape ->
    rank outShape < 2 ^ 32 ->
    multiBroadcastAlign input_t inShape expandedOp g
    = Ok (g_next g)
         (addCreated
            (reshapeOp (g_next g) input_t (TT inShape eIn)
               (take (length outShape - length inShape)%nat inShape
                ++ replicate (length inShape) 1) eOut) g).
Proof.
  intros g input_t expandedOp inShape outShape eIn eOut Hin Hout Hr HR.
  pose proof (rank_nonneg inShape).
  unfold multiBroadcastAlign.
  erewrite bind_Ok by (apply getType_Ok; exact Hout).
  cbn [tshape telem]. rewrite u32_small by lia.
  destruct (Z.eqb_spec (rank outShape) (rank inShape)); [lia|]. cbn [negb].
  erewrite bind_Ok by (apply must_Some, multiBroadcastShape_ok; lia).
  replace (Z.to_nat (rank outShape - rank inShape))
    with (length outShape - length inShape)%nat by (unfold rank; lia).
  apply reshape_create_Ok. exact Hin.
Qed.

(** C5, the claim as worded fails: for input shape [3,1,1] and a binary
    consumer of output shape [2,3,4,4] the reshape built by the rule has
    target [3,1,1,1] (leading extent of the input), not [2,1,1,1]. *)
Lemma C5_counterexample :
  exists target,
    opOf (MultiBroadcastConverter 8 2 [0%nat]
            (multiBroadcastGraph [3; 1; 1] [2; 3; 4; 4] F32 F32)) 4
    = Some (mkOp TReshape [0%nat] (newShapeAttr target)) /\
    target <> spec_multiBroadcastShape [3; 1; 1] [2; 3; 4; 4].
Proof.
  exists [3; 1; 1; 1]. split; [vm_compute; reflexivity|].
  vm_compute. discriminate.
Qed.

Lemma C5_witness :
  multiBroadcastAlign 0%nat [3; 1; 1] 3%nat (multiBroadcastGraph [3; 1; 1] [2; 3; 4; 4] F32 F32)
  = Ok 4%nat
       (addCreated
          (reshapeOp 4%nat 0%nat (f32 [3; 1; 1]) [3; 1; 1; 1] F32)
          (multiBroadcastGraph [3; 1; 1] [2; 3; 4; 4] F32 F32)).
Proof.
  apply (C5_multibroadcast_target_from_input
           (multiBroadcastGraph [3; 1; 1] [2; 3; 4; 4] F32 F32) 0%nat 3%nat
           [3; 1; 1] [2; 3; 4; 4] F32 F32);
    [reflexivity | reflexivity | unfold rank; simpl; lia
    | unfold rank; simpl; lia].
Defined.

(** ** Batched dot: the dimension algebra *)

Lemma batch_loop_is_Some rest : forall bound i acc,
  is_Some (batch_loop bound i acc rest) <-> bound - i <= rank rest.
Proof.
  induction rest as [|d rest IH]; intros bound i acc;
    unfold rank; cbn [length batch_loop].
  - destruct (Z.ltb_spec i bound); split; intros H';
      try lia; try (eexists; reflexivity).
    destruct H' as [? ?]; discriminate.
  - destruct (Z.ltb_spec i bound).
    + rewrite IH. unfold rank. lia.
    + split; [lia|]. intros _. eexists; reflexivity.
Qed.

Lemma batchSize_is_Some dims :
  rank dims < 2 ^ 64 -> (is_Some (batchSize dims) <-> 2 <= rank dims).
Proof.
  intros Hr. pose proof (rank_nonneg dims).
  unfold batchSize. rewrite batch_loop_is_Some.
  destruct (Z.le_gt_cases 2 (rank dims)).
  - rewrite u64_small by lia. lia.
  - rewrite u64_neg by lia. lia.
Qed.

Lemma rowsCols_Some dims n r c :
  2 <= n < 2 ^ 64 ->
  (rowsCols dims n = Some (r, c) <->
   n <= rank dims /\
   dims !! Z.to_nat (n - 2) = Some r /\ dims !! Z.to_nat (n - 1) = Some c).
Proof.
  intros Hn. unfold rowsCols.
  rewrite !u64_small by lia. split.
  - destruct (at_ dims (n - 2)) as [r'|] eqn:E1; [|discriminate].
    destruct (at_ dims (n - 1)) as [c'|] eqn:E2; [|discriminate].
    cbn. intros [= -> ->].
    apply at_Some_iff in E1, E2. intuition lia.
  - intros (Hle & H1 & H2).
    rewrite (proj2 (at_Some_iff dims (n - 2) r)) by (split; [lia|exact H1]).
    rewrite (proj2 (at_Some_iff dims (n - 1) c)) by (split; [lia|exact H2]).
    reflexivity.
Qed.

Lemma rowsCols_in_bounds dims n :
  2 <= n < 2 ^ 64 -> n <= rank dims -> is_Some (rowsCols dims n).
Proof.
  intros Hn Hle.
  destruct (at_in_range dims (n - 2)) as [r Hr]; [lia|].
  destruct (at_in_range dims (n - 1)) as [c Hc]; [lia|].
  exists (r, c). apply rowsCols_Some; [exact Hn|].
  apply at_Some_iff in Hr, Hc. intuition.
Qed.

(** C10. In the flattening path the rows and cols of each operand are read
    at positions outRank-2 and outRank-1 of that operand's shape (outRank
    the rank of the dot's output), so the path gets past these reads only
    when each operand's rank is at least the output's rank; the positions
    are not the operand's own last two (shape [7,3,4,5] read for an output
    of rank 3 yields rows 3 and cols 4). *)
Theorem C10_dot_rows_cols_read_at_output_rank :
  forall (orgDimsA orgDimsB orgOutDims : list Z),
    rank orgOutDims < 2 ^ 64 ->
    dotFlatten orgDimsA orgDimsB orgOutDims <> Abort ->
    (rank orgOutDims <= rank orgDimsA /\
     rank orgOutDims <= rank orgDimsB /\
     exists rA cA rB cB,
       rowsCols orgDimsA (rank orgOutDims) = Some (rA, cA) /\
       rowsCols orgDimsB (rank orgOutDims) = Some (rB, cB) /\
       orgDimsA !! (length orgOutDims - 2)%nat = Some rA /\
       orgDimsA !! (length orgOutDims - 1)%nat = Some cA /\
       orgDimsB !! (length orgOutDims - 2)%nat = Some rB /\
       orgDimsB !! (length orgOutDims - 1)%nat = Some cB) /\
    rowsCols [7; 3; 4; 5] 3 = Some (3, 4).
Proof.
  intros A B O HO H. split; [|reflexivity].
  unfold dotFlatten in H.
  destruct (batchSize O) as [bC|] eqn:EC; [|exfalso; apply H; reflexivity].
  destruct (batchSize A) as [bA|]; [|exfalso; apply H; reflexivity].
  destruct (batchSize B) as [bB|]; [|exfalso; apply H; reflexivity].
  destruct (rowsCols A (rank O)) as [[rA cA]|] eqn:EA;
    [|exfalso; apply H; reflexivity].
  destruct (rowsCols B (rank O)) as [[rB cB]|] eqn:EB;
    [|exfalso; apply H; reflexivity].
  clear H.
  assert (H2 : 2 <= rank O).
  { apply batchSize_is_Some; [exact HO|]. rewrite EC. eexists; reflexivity. }
  apply rowsCols_Some in EA as EA'; [|lia]. apply rowsCols_Some in EB as EB'; [|lia].
  destruct EA' as (HA & HA1 & HA2), EB' as (HB & HB1 & HB2).
  replace (Z.to_nat (rank O - 2)) with (length O - 2)%nat in * by (unfold rank; lia).
  replace (Z.to_nat (rank O - 1)) with (length O - 1)%nat in * by (unfold rank; lia).
  split; [exact HA|]. split; [exact HB|].
  exists rA, cA, rB, cB. repeat split; assumption.
Qed.

Lemma C10_witness :
  (rank [2; 3; 4; 6] <= rank [2; 3; 4; 5] /\
   rank [2; 3; 4; 6] <= rank [1; 1; 5; 6] /\
   exists rA cA rB cB,
     rowsCols [2; 3; 4; 5] (rank [2; 3; 4; 6]) = Some (rA, cA) /\
     rowsCols [1; 1; 5; 6] (rank [2; 3; 4; 6]) = Some (rB, cB) /\
     [2; 3; 4; 5] !! (length [2; 3; 4; 6] - 2)%nat = Some rA /\
     [2; 3; 4; 5] !! (length [2; 3; 4; 6] - 1)%nat = Some cA /\
     [1; 1; 5; 6] !! (length [2; 3; 4; 6] - 2)%nat = Some rB /\
     [1; 1; 5; 6] !! (length [2; 3; 4; 6] - 1)%nat = Some cB) /\
  rowsCols [7; 3; 4; 5] 3 = Some (3, 4).
Proof.
  apply (C10_dot_rows_cols_read_at_output_rank [2; 3; 4; 5] [1; 1; 5; 6] [2; 3; 4; 6]).
  - unfold rank; simpl; lia.
  - vm_compute. discriminate.
Defined.

(** Within bounds the flattening branch behaves as follows: a batch-size
    mismatch with batchB = 1 folds the batch of A (and of the output) into
    the rows; any other mismatch is the reportable failure. *)
Lemma dotFlatten_in_bounds (A B O : list Z) :
  2 <= rank O < 2 ^ 64 -> rank A < 2 ^ 64 -> rank B < 2 ^ 64 ->
  rank O <= rank A -> rank O <= rank B ->
  exists bA bB bC rA cA rB cB rO cO,
    batchSize A = Some bA /\ batchSize B = Some bB /\ batchSize O = Some bC /\
    rowsCols A (rank O) = Some (rA, cA) /\
    rowsCols B (rank O) = Some (rB, cB) /\
    rowsCols O (rank O) = Some (rO, cO) /\
    (bA <> bB -> bB = 1 ->
     dotFlatten A B O
     = Val (mkDotDims [1; s64 (rA * bA); cA] [bB; rB; cB] [1; s64 (rO * bC); cO])) /\
    (bA <> bB -> bB <> 1 -> dotFlatten A B O = Err dot_error) /\
    (bA = bB ->
     dotFlatten A B O = Val (mkDotDims [bA; rA; cA] [bB; rB; cB] [bC; rO; cO])).
Proof.
  intros HO HA HB HOA HOB.
  destruct (proj2 (batchSize_is_Some A HA)) as [bA EA]; [lia|].
  destruct (proj2 (batchSize_is_Some B HB)) as [bB EB]; [lia|].
  destruct (proj2 (batchSize_is_Some O (proj2 HO))) as [bC EC]; [lia|].
  destruct (rowsCols_in_bounds A (rank O) HO HOA) as [[rA cA] RA].
  destruct (rowsCols_in_bounds B (rank O) HO HOB) as [[rB cB] RB].
  destruct (rowsCols_in_bounds O (rank O) HO) as [[rO cO] RO]; [lia|].
  exists bA, bB, bC, rA, cA, rB, cB, rO, cO.
  repeat (split; [assumption|]).
  unfold dotFlatten. rewrite EA, EB, EC, RA, RB, RO. cbn [of_opt exc_bind fst snd].
  split; [|split].
  - intros Hne ->. destruct (Z.eqb_spec bA 1); [contradiction|]. reflexivity.
  - intros Hne H1. destruct (Z.eqb_spec bA bB); [contradiction|].
    destruct (Z.eqb_spec bB 1); [contradiction|]. reflexivity.
  - intros ->. rewrite Z.eqb_refl. reflexivity.
Qed.

(** ** Attribute updates *)

Lemma setOp_id g o op : g_ops g !! o = Some op -> setOp o op g = g.
Proof.
  intros H. destruct g as [ops tys uses nxt lg]. unfold setOp; cbn in *.
  f_equal. apply insert_id. exact H.
Qed.

Lemma setOp_setOp g o op1 op2 : setOp o op2 (setOp o op1 g) = setOp o op2 g.
Proof. unfold setOp; cbn. f_equal. apply insert_insert_eq. Qed.

Lemma setOp_fresh g o op :
  fresh_ok g -> (o < g_next g)%nat -> fresh_ok (setOp o op g).
Proof.
  intros [H1 H2] Ho. split; cbn; [exact H1|].
  apply map_Forall_insert_2; assumption.
Qed.

Lemma setAttr_Ok g o op name a :
  g_ops g !! o = Some op ->
  setAttr o name a g
  = Ok tt (setOp o (mkOp (op_kind op) (op_operands op)
                         (putAttr name a (op_attrs op))) g).
Proof. intros H. unfold setAttr. rewrite H. reflexivity. Qed.

Lemma copyOptionalAttrs_Ok g src dst so d :
  g_ops g !! src = Some so -> g_ops g !! dst = Some d ->
  copyOptionalAttrs src dst g
  = Ok tt (setOp dst (mkOp (op_kind d) (op_operands d)
                           (copiedAttrs (op_attrs so) (op_attrs d))) g).
Proof.
  intros Hs Hd. unfold copyOptionalAttrs, copiedAttrs.
  erewrite bind_Ok by (apply getOp_Ok; exact Hs).
  destruct (boolAttr "xdlopsV2" (op_attrs so)) as [a1|],
           (strAttr "perf_config" (op_attrs so)) as [a2|].
  - erewrite bind_Ok by (apply setAttr_Ok; exact Hd).
    erewrite setAttr_Ok by (apply lookup_insert_eq).
    cbn [op_kind op_operands op_attrs]. rewrite setOp_setOp. reflexivity.
  - erewrite bind_Ok by (apply setAttr_Ok; exact Hd). reflexivity.
  - unfold bind, ret. apply setAttr_Ok. exact Hd.
  - unfold bind, ret. f_equal. symmetry. apply setOp_id.
    rewrite Hd. destruct d; reflexivity.
Qed.

(** ** Batched dot: the rule *)

Section DotRule.

Variables (g : Graph) (op : nat) (o : Op) (in0 in_A in_B : Value).
Variables (ty0 tyA tyB outTy : TensorType).
Hypothesis Hfresh : fresh_ok g.
Hypothesis Hop : g_ops g !! op = Some o.
Hypothesis Hin0 : op_operands o !! 0%nat = Some in0.
Hypothesis Hty0 : g_types g !! in0 = Some ty0.
Hypothesis Hout : g_types g !! op = Some outTy.
Hypothesis HtyA : g_types g !! in_A = Some tyA.
Hypothesis HtyB : g_types g !! in_B = Some tyB.

Lemma DotConverter_flatten_Err msg :
  needsFlatten (tshape tyA) (tshape tyB) (tshape outTy) = true ->
  dotFlatten (tshape tyA) (tshape tyB) (tshape outTy) = Err msg ->
  DotConverter op [in_A; in_B] g = Failure msg g.
Proof using Hop Hin0 Hty0 Hout HtyA HtyB.
  intros Hn Hd. unfold DotConverter.
  erewrite bind_Ok by (apply must_Some; reflexivity).
  erewrite bind_Ok by (apply must_Some; reflexivity).
  erewrite bind_Ok by (apply getOp_Ok; exact Hop).
  erewrite bind_Ok by (apply must_Some; exact Hin0).
  erewrite bind_Ok by (apply getType_Ok; exact Hty0).
  erewrite bind_Ok by (apply getType_Ok; exact Hout).
  erewrite bind_Ok by (apply getType_Ok; exact HtyA).
  erewrite bind_Ok by (apply getType_Ok; exact HtyB).
  rewrite Hn. apply bind_Failure. rewrite Hd. reflexivity.
Qed.

Lemma DotConverter_flatten_Abort :
  needsFlatten (tshape tyA) (tshape tyB) (tshape outTy) = true ->
  dotFlatten (tshape tyA) (tshape tyB) (tshape outTy) = Abort ->
  DotConverter op [in_A; in_B] g = Crash.
Proof using Hop Hin0 Hty0 Hout HtyA HtyB.
  intros Hn Hd. unfold DotConverter.
  erewrite bind_Ok by (apply must_Some; reflexivity).
  erewrite bind_Ok by (apply must_Some; reflexivity).
  erewrite bind_Ok by (apply getOp_Ok; exact Hop).
  erewrite bind_Ok by (apply must_Some; exact Hin0).
  erewrite bind_Ok by (apply getType_Ok; exact Hty0).
  erewrite bind_Ok by (apply getType_Ok; exact Hout).
  erewrite bind_Ok by (apply getType_Ok; exact HtyA).
  erewrite bind_Ok by (apply getType_Ok; exact HtyB).
  rewrite Hn. apply bind_Crash. rewrite Hd. reflexivity.
Qed.

Lemma DotConverter_flatten_Ok d :
  needsFlatten (tshape tyA) (tshape tyB) (tshape outTy) = true ->
  dotFlatten (tshape tyA) (tshape tyB) (tshape outTy) = Val d ->
  DotConverter op [in_A; in_B] g
  = Ok (ReplaceWith (S (S (S (g_next g)))))
       (dotFlattened g (op_attrs o) in_A in_B tyA tyB outTy (telem ty0) d).
Proof using All.
  intros Hn Hd. unfold DotConverter.
  erewrite bind_Ok by (apply must_Some; reflexivity).
  erewrite bind_Ok by (apply must_Some; reflexivity).
  erewrite bind_Ok by (apply getOp_Ok; exact Hop).
  erewrite bind_Ok by (apply must_Some; exact Hin0).
  erewrite bind_Ok by (apply getType_Ok; exact Hty0).
  erewrite bind_Ok by (apply getType_Ok; exact Hout).
  erewrite bind_Ok by (apply getType_Ok; exact HtyA).
  erewrite bind_Ok by (apply getType_Ok; exact HtyB).
  rewrite Hn, Hd. cbn [liftExc]. erewrite bind_Ok by reflexivity.
  set (n := g_next g). set (e := telem ty0).
  set (e1 := reshapeOp n in_A tyA (newDimsA d) e).
  set (e2 := reshapeOp (S n) in_B tyB (newDimsB d) e).
  set (e3 := matmulOp (S (S n)) n (S n) (TT (newDimsA d) e) (TT (newDimsB d) e)
                      (newDimsOut d) e).
  assert (F1 : fresh_ok (addCreated e1 g)) by (apply addCreated_fresh; auto).
  assert (F2 : fresh_ok (addCreated e2 (addCreated e1 g)))
    by (apply addCreated_fresh; auto).
  assert (F3 : fresh_ok (addCreated e3 (addCreated e2 (addCreated e1 g))))
    by (apply addCreated_fresh; auto).
  erewrite bind_Ok by (apply reshape_create_Ok; exact HtyA).
  fold n e e1.
  erewrite bind_Ok.
  2:{ apply reshape_create_Ok. apply addCreated_type_old; [auto|reflexivity|exact HtyB]. }
  change (g_next (addCreated e1 g)) with (S n). fold e2.
  erewrite bind_Ok.
  2:{ apply create_Ok. apply mapM_types_2.
      - apply addCreated_type_old; [auto|reflexivity|].
        exact (addCreated_type_new e1 g).
      - exact (addCreated_type_new e2 (addCreated e1 g)). }
  change (g_next (addCreated e2 (addCreated e1 g))) with (S (S n)).
  fold (matmulOp (S (S n)) n (S n) (TT (newDimsA d) e) (TT (newDimsB d) e)
                 (newDimsOut d) e). fold e3.
  erewrite bind_Ok.
  2:{ apply copyOptionalAttrs_Ok with (so := o) (d := c_op e3).
      - repeat (apply addCreated_op_old; [auto|reflexivity|]). exact Hop.
      - exact (addCreated_op_new e3 _). }
  cbn [c_op e3 matmulOp op_kind op_operands op_attrs].
  unfold dotFlattened. destruct outTy as [os oe]. cbn [tshape telem].
  erewrite bind_Ok.
  2:{ apply reshape_create_Ok. cbn [setOp g_types].
      exact (addCreated_type_new e3 _). }
  reflexivity.
Qed.

End DotRule.

Lemma needsFlatten_false A B O : needsFlatten A B O = false -> A = B.
Proof.
  unfold needsFlatten. intros H.
  apply orb_false_iff in H as [H H3]. apply orb_false_iff in H as [H1 _].
  apply negb_false_iff in H1. rewrite H1 in H3. cbn [andb] in H3.
  apply negb_false_iff in H3. apply bool_decide_eq_true in H3. exact H3.
Qed.

Lemma dotFlattened_log g attrs in_A in_B tyA tyB outTy e d :
  g_log (dotFlattened g attrs in_A in_B tyA tyB outTy e d)
  = g_log g ++
    [reshapeOp (g_next g) in_A tyA (newDimsA d) e;
     reshapeOp (S (g_next g)) in_B tyB (newDimsB d) e;
     matmulOp (S (S (g_next g))) (g_next g) (S (g_next g))
              (TT (newDimsA d) e) (TT (newDimsB d) e) (newDimsOut d) e;
     reshapeOp (S (S (S (g_next g)))) (S (S (g_next g)))
               (TT (newDimsOut d) e) (tshape outTy) (telem outTy)].
Proof.
  unfold dotFlattened, addCreated, setOp; cbn [g_log].
  rewrite <- !app_assoc. reflexivity.
Qed.

(** C1 (as the code has it). For operand A of shape [2,3,4,5] and a
    batch-1 operand B of the output's rank, [1,1,5,6] (flattened
    [1,5,6]), the dot rule reshapes A to [1,24,5] and B to [1,5,6], builds
    the matmul of type [1,24,6] and reshapes its result back to the output
    shape [2,3,4,6], which replaces the dot. *)
Theorem C1_dot_broadcast_example :
  forall (g : Graph) (op : nat) (o : Op) (in0 in_A in_B : Value)
         (ty0 : TensorType) (eA eB eOut : ElemType),
    fresh_ok g ->
    g_ops g !! op = Some o ->
    op_operands o !! 0%nat = Some in0 ->
    g_types g !! in0 = Some ty0 ->
    g_types g !! op = Some (TT [2; 3; 4; 6] eOut) ->
    g_types g !! in_A = Some (TT [2; 3; 4; 5] eA) ->
    g_types g !! in_B = Some (TT [1; 1; 5; 6] eB) ->
    exists g',
      DotConverter op [in_A; in_B] g
      = Ok (ReplaceWith (S (S (S (g_next g))))) g' /\
      g_log g'
      = g_log g ++
        [reshapeOp (g_next g) in_A (TT [2; 3; 4; 5] eA) [1; 24; 5] (telem ty0);
         reshapeOp (S (g_next g)) in_B (TT [1; 1; 5; 6] eB) [1; 5; 6] (telem ty0);
         matmulOp (S (S (g_next g))) (g_next g) (S (g_next g))
                  (TT [1; 24; 5] (telem ty0)) (TT [1; 5; 6] (telem ty0))
                  [1; 24; 6] (telem ty0);
         reshapeOp (S (S (S (g_next g)))) (S (S (g_next g)))
                   (TT [1; 24; 6] (telem ty0)) [2; 3; 4; 6] eOut].
Proof.
  intros g op o in0 in_A in_B ty0 eA eB eOut Hf Hop Hin0 Hty0 Hout HA HB.
  eexists. split.
  - eapply (DotConverter_flatten_Ok g op o in0 in_A in_B ty0 _ _ _
              Hf Hop Hin0 Hty0 Hout HA HB
              (mkDotDims [1; 24; 5] [1; 5; 6] [1; 24; 6])); reflexivity.
  - rewrite dotFlattened_log. reflexivity.
Qed.

Lemma C1_witness :
  exists g',
    DotConverter 2 [0%nat; 1%nat] (dotGraph [2; 3; 4; 5] [1; 1; 5; 6] [2; 3; 4; 6])
    = Ok (ReplaceWith 6%nat) g' /\
    g_log g'
    = [reshapeOp 3%nat 0%nat (f32 [2; 3; 4; 5]) [1; 24; 5] F32;
       reshapeOp 4%nat 1%nat (f32 [1; 1; 5; 6]) [1; 5; 6] F32;
       matmulOp 5%nat 3%nat 4%nat (f32 [1; 24; 5]) (f32 [1; 5; 6]) [1; 24; 6] F32;
       reshapeOp 6%nat 5%nat (f32 [1; 24; 6]) [2; 3; 4; 6] F32].
Proof.
  apply (C1_dot_broadcast_example
           (dotGraph [2; 3; 4; 5] [1; 1; 5; 6] [2; 3; 4; 6]) 2%nat
           (mkOp MDot [0%nat; 1%nat] []) 0%nat 0%nat 1%nat
           (f32 [2; 3; 4; 5]) F32 F32 F32);
    first [reflexivity | apply (bool_decide_unpack _); vm_compute; exact I].
Defined.

Lemma dot_example_run :
  exists g',
    DotConverter 2 [0%nat; 1%nat] (dotGraph [2; 3; 4; 5] [1; 1; 5; 6] [2; 3; 4; 6])
    = Ok (ReplaceWith 6%nat) g' /\
    g_log g'
    = [reshapeOp 3%nat 0%nat (f32 [2; 3; 4; 5]) [1; 24; 5] F32;
       reshapeOp 4%nat 1%nat (f32 [1; 1; 5; 6]) [1; 5; 6] F32;
       matmulOp 5%nat 3%nat 4%nat (f32 [1; 24; 5]) (f32 [1; 5; 6]) [1; 24; 6] F32;
       reshapeOp 6%nat 5%nat (f32 [1; 24; 6]) [2; 3; 4; 6] F32].
Proof.
  eexists. split.
  - eapply (DotConverter_flatten_Ok
              (dotGraph [2; 3; 4; 5] [1; 1; 5; 6] [2; 3; 4; 6]) 2%nat
              (mkOp MDot [0%nat; 1%nat] []) 0%nat 0%nat 1%nat
              (f32 [2; 3; 4; 5]) (f32 [2; 3; 4; 5]) (f32 [1; 1; 5; 6])
              (f32 [2; 3; 4; 6]));
      first [reflexivity | apply (bool_decide_unpack _); vm_compute; exact I].
  - rewrite dotFlattened_log. reflexivity.
Qed.

(** C1, the claim as worded fails: with B given as [1,5,6] the rule reads
    B out of range and builds nothing, and with B given as [1,1,5,6] the
    reshape of A goes to [1,24,5]; in neither run is A reshaped to
    [1,12,5]. *)
Lemma C1_counterexample :
  ~ reshapes_to
      (DotConverter 2 [0%nat; 1%nat] (dotGraph [2; 3; 4; 5] [1; 5; 6] [2; 3; 4; 6]))
      0%nat [1; 12; 5] /\
  ~ reshapes_to
      (DotConverter 2 [0%nat; 1%nat] (dotGraph [2; 3; 4; 5] [1; 1; 5; 6] [2; 3; 4; 6]))
      0%nat [1; 12; 5].
Proof.
  split; intros (res & g' & c & Hrun & Hc & Hop).
  - vm_compute in Hrun. discriminate.
  - destruct dot_example_run as (g1 & Hrun1 & Hlog).
    rewrite Hrun1 in Hrun. injection Hrun as _ <-.
    rewrite Hlog in Hc.
    repeat (apply elem_of_cons in Hc as [-> | Hc]; [vm_compute in Hop; discriminate|]).
    apply elem_of_nil in Hc. exact Hc.
Qed.

(** Within bounds (both operands of at least the output's rank) the dot
    rule treats a batch-size mismatch as the specification says: with
    batchB = 1 the batch of A is folded into the rows of A and the batch
    of the output into the rows of the output, otherwise the rule reports
    the failure and leaves the graph as it was. *)
Theorem dot_batch_mismatch_in_bounds :
  forall (g : Graph) (op : nat) (o : Op) (in0 in_A in_B : Value)
         (ty0 tyA tyB outTy : TensorType) (bA bB : Z),
    fresh_ok g ->
    g_ops g !! op = Some o ->
    op_operands o !! 0%nat = Some in0 ->
    g_types g !! in0 = Some ty0 ->
    g_types g !! op = Some outTy ->
    g_types g !! in_A = Some tyA ->
    g_types g !! in_B = Some tyB ->
    2 <= rank (tshape outTy) ->
    rank (tshape outTy) <= rank (tshape tyA) < 2 ^ 64 ->
    rank (tshape outTy) <= rank (tshape tyB) < 2 ^ 64 ->
    batchSize (tshape tyA) = Some bA ->
    batchSize (tshape tyB) = Some bB ->
    bA <> bB ->
    (bB = 1 ->
     exists bC rA cA rB cB rO cO,
       batchSize (tshape outTy) = Some bC /\
       rowsCols (tshape tyA) (rank (tshape outTy)) = Some (rA, cA) /\
       rowsCols (tshape tyB) (rank (tshape outTy)) = Some (rB, cB) /\
       rowsCols (tshape outTy) (rank (tshape outTy)) = Some (rO, cO) /\
       DotConverter op [in_A; in_B] g
       = Ok (ReplaceWith (S (S (S (g_next g)))))
            (dotFlattened g (op_attrs o) in_A in_B tyA tyB outTy (telem ty0)
               (mkDotDims [1; s64 (rA * bA); cA] [1; rB; cB]
                          [1; s64 (rO * bC); cO]))) /\
    (bB <> 1 -> DotConverter op [in_A; in_B] g = Failure dot_error g).
Proof.
  intros g op o in0 in_A in_B ty0 tyA tyB outTy bA bB
         Hf Hop Hin0 Hty0 Hout HA HB HO HOA HOB EA EB Hne.
  destruct (dotFlatten_in_bounds (tshape tyA) (tshape tyB) (tshape outTy))
    as (bA' & bB' & bC & rA & cA & rB & cB & rO & cO
        & EA' & EB' & EC & RA & RB & RO & Hfold & Herr & _); try lia.
  rewrite EA in EA'. rewrite EB in EB'.
  injection EA' as <-. injection EB' as <-.
  assert (Hn : needsFlatten (tshape tyA) (tshape tyB) (tshape outTy) = true).
  { destruct (needsFlatten _ _ _) eqn:E; [reflexivity|].
    apply needsFlatten_false in E. rewrite E in EA. congruence. }
  split.
  - intros H1. exists bC, rA, cA, rB, cB, rO, cO.
    repeat (split; [assumption|]).
    eapply DotConverter_flatten_Ok; eauto.
    rewrite Hfold by assumption. rewrite H1. reflexivity.
  - intros H1. eapply DotConverter_flatten_Err; eauto.
Qed.

Lemma dot_batch_mismatch_in_bounds_witness :
  DotConverter 2 [0%nat; 1%nat] (dotGraph [2; 3; 4; 5] [3; 1; 5; 6] [2; 3; 4; 6])
  = Failure dot_error (dotGraph [2; 3; 4; 5] [3; 1; 5; 6] [2; 3; 4; 6]).
Proof.
  apply (dot_batch_mismatch_in_bounds
           (dotGraph [2; 3; 4; 5] [3; 1; 5; 6] [2; 3; 4; 6]) 2%nat
           (mkOp MDot [0%nat; 1%nat] []) 0%nat 0%nat 1%nat
           (f32 [2; 3; 4; 5]) (f32 [2; 3; 4; 5]) (f32 [3; 1; 5; 6])
           (f32 [2; 3; 4; 6]) 6 3);
    first [ reflexivity
          | apply (bool_decide_unpack _); vm_compute; exact I
          | unfold rank; simpl; lia
          | lia ].
Defined.

(** C4, evaluated where the code departs from it: A of shape [2,3,4,5]
    (batch 6) and B of shape [2,5,6] (batch 2) for an output [2,3,4,6];
    the batch sizes differ and B's is not 1, yet the rule does not reach
    the reportable failure: the read of B at position outRank-1 = 3 is out
    of range. *)
Theorem C4_dot_mismatch_out_of_range :
  batchSize [2; 3; 4; 5] = Some 6 /\
  batchSize [2; 5; 6] = Some 2 /\
  rowsCols [2; 5; 6] (rank [2; 3; 4; 6]) = None /\
  DotConverter 2 [0%nat; 1%nat] (dotGraph [2; 3; 4; 5] [2; 5; 6] [2; 3; 4; 6])
  = Crash.
Proof. repeat split; vm_compute; reflexivity. Qed.

(** ** Rules built on the inference interface *)

Lemma built_log l : forall g, g_log (built g l) = g_log g ++ l.
Proof.
  induction l as [|e l IH]; intros g; cbn [built fold_left].
  - rewrite app_nil_r. reflexivity.
  - fold (built (addCreated e g) l). rewrite IH. cbn [addCreated g_log].
    rewrite <- app_assoc. reflexivity.
Qed.

Lemma createOpAndInfer_Ok infer kind e operands attrs g tys dims :
  mapM (fun v => g_types g !! v) operands = Some tys ->
  infer kind tys attrs = Some dims ->
  createOpAndInfer infer kind e operands attrs g
  = Ok (g_next g) (addCreated (inferredOp (g_next g) kind operands tys attrs dims e) g).
Proof.
  intros Ht Hi. unfold createOpAndInfer.
  erewrite bind_Ok by (unfold getTypes; rewrite Ht; reflexivity).
  erewrite bind_Ok by (apply must_Some; exact Hi).
  apply create_Ok. exact Ht.
Qed.

Lemma createCastOp_Ok e input g tyIn :
  g_types g !! input = Some tyIn ->
  createCastOp e input g
  = Ok (g_next g) (addCreated (castOp (g_next g) input tyIn e) g).
Proof.
  intros H. unfold createCastOp.
  erewrite bind_Ok by (apply getType_Ok; exact H).
  apply create_Ok. apply mapM_types_1. exact H.
Qed.

(** C8. The quantize-linear rule builds exactly this chain: with a bias
    operand, an add of input and bias in the source element type; then a
    cast to f32; then a multiply by the scale in f32; then a cast to i8,
    whose result replaces the operation; without bias the chain starts at
    the cast to f32. *)
Theorem C8_quantize_linear_chain :
  forall (infer : OpKind -> list TensorType -> Attrs -> option (list Z))
         (g : Graph) (op : nat) (o : Op) (operands : list Value)
         (input scale : Value) (tyIn tyScale : TensorType),
    fresh_ok g ->
    g_ops g !! op = Some o ->
    g_types g !! input = Some tyIn ->
    g_types g !! scale = Some tyScale ->
    (forall bias tyBias dAdd dMul,
        op_operands o = [input; scale; bias] ->
        g_types g !! bias = Some tyBias ->
        infer TAdd [tyIn; tyBias] [] = Some dAdd ->
        infer TMul [TT dAdd F32; tyScale] shift0 = Some dMul ->
        QuantizeLinearConverter infer op operands g
        = Ok (ReplaceWith (S (S (S (g_next g)))))
             (built g
                [inferredOp (g_next g) TAdd [input; bias] [tyIn; tyBias] []
                            dAdd (telem tyIn);
                 castOp (S (g_next g)) (g_next g) (TT dAdd (telem tyIn)) F32;
                 inferredOp (S (S (g_next g))) TMul [S (g_next g); scale]
                            [TT dAdd F32; tyScale] shift0 dMul F32;
                 castOp (S (S (S (g_next g)))) (S (S (g_next g)))
                        (TT dMul F32) (IntTy 8)])) /\
    (forall dMul,
        op_operands o = [input; scale] ->
        infer TMul [cloneWith tyIn F32; tyScale] shift0 = Some dMul ->
        QuantizeLinearConverter infer op operands g
        = Ok (ReplaceWith (S (S (g_next g))))
             (built g
                [castOp (g_next g) input tyIn F32;
                 inferredOp (S (g_next g)) TMul [g_next g; scale]
                            [cloneWith tyIn F32; tyScale] shift0 dMul F32;
                 castOp (S (S (g_next g))) (S (g_next g))
                        (TT dMul F32) (IntTy 8)])).
Proof.
  intros infer g op o operands input scale tyIn tyScale Hf Hop Hin Hsc.
  split.
  - intros bias tyBias dAdd dMul Hops Hb HiA HiM.
    unfold QuantizeLinearConverter.
    erewrite bind_Ok by (apply getOp_Ok; exact Hop).
    rewrite Hops. cbn [lookup list_lookup].
    erewrite bind_Ok by reflexivity. erewrite bind_Ok by reflexivity.
    erewrite bind_Ok by (apply getType_Ok; exact Hin).
    set (n := g_next g).
    set (e1 := inferredOp n TAdd [input; bias] [tyIn; tyBias] [] dAdd (telem tyIn)).
    set (e2 := castOp (S n) n (TT dAdd (telem tyIn)) F32).
    set (e3 := inferredOp (S (S n)) TMul [S n; scale] [TT dAdd F32; tyScale]
                          shift0 dMul F32).
    assert (F1 : fresh_ok (addCreated e1 g)) by (apply addCreated_fresh; auto).
    assert (F2 : fresh_ok (addCreated e2 (addCreated e1 g)))
      by (apply addCreated_fresh; auto).
    erewrite bind_Ok.
    2:{ apply createOpAndInfer_Ok with (tys := [tyIn; tyBias]) (dims := dAdd);
        [apply mapM_types_2; assumption | exact HiA]. }
    fold n e1.
    erewrite bind_Ok by (apply createCastOp_Ok; exact (addCreated_type_new e1 g)).
    change (g_next (addCreated e1 g)) with (S n).
    change (c_type e1) with (TT dAdd (telem tyIn)). fold e2.
    erewrite bind_Ok.
    2:{ apply createOpAndInfer_Ok with (tys := [TT dAdd F32; tyScale]) (dims := dMul);
        [|exact HiM].
        apply mapM_types_2; [exact (addCreated_type_new e2 _)|].
        repeat (apply addCreated_type_old; [auto|reflexivity|]). exact Hsc. }
    change (g_next (addCreated e2 (addCreated e1 g))) with (S (S n)). fold e3.
    erewrite bind_Ok by (apply createCastOp_Ok; exact (addCreated_type_new e3 _)).
    reflexivity.
  - intros dMul Hops HiM.
    unfold QuantizeLinearConverter.
    erewrite bind_Ok by (apply getOp_Ok; exact Hop).
    rewrite Hops. cbn [lookup list_lookup].
    erewrite bind_Ok by reflexivity. erewrite bind_Ok by reflexivity.
    erewrite bind_Ok by (apply getType_Ok; exact Hin).
    erewrite bind_Ok by reflexivity.
    set (n := g_next g).
    set (e1 := castOp n input tyIn F32).
    set (e2 := inferredOp (S n) TMul [n; scale] [cloneWith tyIn F32; tyScale]
                          shift0 dMul F32).
    assert (F1 : fresh_ok (addCreated e1 g)) by (apply addCreated_fresh; auto).
    erewrite bind_Ok by (apply createCastOp_Ok; exact Hin).
    fold n e1.
    erewrite bind_Ok.
    2:{ apply createOpAndInfer_Ok
          with (tys := [cloneWith tyIn F32; tyScale]) (dims := dMul); [|exact HiM].
        apply mapM_types_2; [exact (addCreated_type_new e1 _)|].
        apply addCreated_type_old; [auto|reflexivity|exact Hsc]. }
    change (g_next (addCreated e1 g)) with (S n). fold e2.
    erewrite bind_Ok by (apply createCastOp_Ok; exact (addCreated_type_new e2 _)).
    reflexivity.
Qed.

Lemma C8_witness :
  QuantizeLinearConverter exampleInfer 3 [0%nat; 1%nat; 2%nat] quantizeGraph
  = Ok (ReplaceWith 7%nat)
       (built quantizeGraph
          [inferredOp 4%nat TAdd [0%nat; 2%nat] [f32 [2; 4]; f32 [2; 4]] []
                      [2; 4] F32;
           castOp 5%nat 4%nat (f32 [2; 4]) F32;
           inferredOp 6%nat TMul [5%nat; 1%nat] [f32 [2; 4]; f32 [2; 4]] shift0
                      [2; 4] F32;
           castOp 7%nat 6%nat (f32 [2; 4]) (IntTy 8)]).
Proof.
  apply (C8_quantize_linear_chain exampleInfer quantizeGraph 3%nat
           (mkOp MQuantizeLinear [0%nat; 1%nat; 2%nat] []) [0%nat; 1%nat; 2%nat]
           0%nat 1%nat (f32 [2; 4]) (f32 [2; 4]));
    first [reflexivity | apply (bool_decide_unpack _); vm_compute; exact I].
Defined.






(** ** Failure after partial rewiring *)

(** A walk over the uses that ends within its budget ends the same way
    with any larger budget. *)
Lemma forUses_more_fuel (body : Use -> M unit) (k : nat) :
  forall fuel it g,
    forUses fuel body it g <> OutOfFuel ->
    forUses (fuel + k) body it g = forUses fuel body it g.
Proof.
  induction fuel as [|fuel IH]; intros it g H; destruct it as [u|].
  - exfalso. apply H. reflexivity.
  - destruct k; reflexivity.
  - cbn [forUses Nat.add] in *. unfold bind in *.
    destruct (body u g) as [[] g1 | | |]; try reflexivity.
    destruct (nextUse u g1) as [it' g2 | | |]; try reflexivity.
    apply IH. exact H.
  - reflexivity.
Qed.

Lemma BroadcastConverter_more_fuel fuel k op operands g :
  BroadcastConverter fuel op operands g <> OutOfFuel ->
  BroadcastConverter (fuel + k) op operands g = BroadcastConverter fuel op operands g.
Proof.
  unfold BroadcastConverter, bind. intros H.
  destruct (must (operands !! 0%nat) g) as [input_t g1 | | |]; try reflexivity.
  destruct (broadcastAlign op input_t g1) as [newOperand g2 | | |]; try reflexivity.
  destruct (firstUse op g2) as [it g3 | | |]; try reflexivity.
  rewrite forUses_more_fuel; [reflexivity|].
  intros E. rewrite E in H. apply H. reflexivity.
Qed.

Lemma MultiBroadcastConverter_more_fuel fuel k op operands g :
  MultiBroadcastConverter fuel op operands g <> OutOfFuel ->
  MultiBroadcastConverter (fuel + k) op operands g
  = MultiBroadcastConverter fuel op operands g.
Proof.
  unfold MultiBroadcastConverter, bind. intros H.
  destruct (must (operands !! 0%nat) g) as [input_t g1 | | |]; try reflexivity.
  destruct (getType input_t g1) as [inTy g2 | | |]; try reflexivity.
  destruct (firstUse op g2) as [it g3 | | |]; try reflexivity.
  rewrite forUses_more_fuel; [reflexivity|].
  intros E. rewrite E in H. apply H. reflexivity.
Qed.

(** C3, evaluated where the code departs from it. The result of the
    broadcast (operation 2) is held by the binary operation 6 (first
    slot), the unary operation 4 and the binary operation 3. The rule
    swaps the operands of 6 and redirects it to the new reshape 7, then
    meets a unary user and returns failure: operation 6 keeps its rewired
    operand list and the use list of the broadcast has lost the slot. The
    multi-broadcast rule does the same. The walk needs two steps; the
    outcome is the same for every larger budget. *)
Theorem C3_failure_after_rewiring :
  forall k : nat,
    (exists msg g',
        BroadcastConverter (2 + k) 2 [0%nat] broadcastGraph = Failure msg g' /\
        operandsOf broadcastGraph 6 = Some [2%nat; 1%nat] /\
        operandsOf g' 6 = Some [1%nat; 7%nat] /\
        usesOf broadcastGraph 2%nat = [(6, 0); (4, 0); (3, 0)]%nat /\
        usesOf g' 2%nat = [(4, 0); (3, 0)]%nat) /\
    (exists msg g',
        MultiBroadcastConverter (2 + k) 2 [0%nat] multiBroadcastFanout
        = Failure msg g' /\
        operandsOf multiBroadcastFanout 6 = Some [2%nat; 1%nat] /\
        operandsOf g' 6 = Some [1%nat; 7%nat] /\
        usesOf multiBroadcastFanout 2%nat = [(6, 0); (4, 0); (3, 0)]%nat /\
        usesOf g' 2%nat = [(4, 0); (3, 0)]%nat).
Proof.
  intros k. split.
  - rewrite BroadcastConverter_more_fuel by (vm_compute; discriminate).
    destruct (BroadcastConverter 2 2 [0%nat] broadcastGraph) as [| msg g' | |] eqn:E;
      try (vm_compute in E; discriminate).
    exists msg, g'. split; [reflexivity|].
    vm_compute in E. injection E as _ <-.
    repeat split; vm_compute; reflexivity.
  - rewrite MultiBroadcastConverter_more_fuel by (vm_compute; discriminate).
    destruct (MultiBroadcastConverter 2 2 [0%nat] multiBroadcastFanout)
      as [| msg g' | |] eqn:E; try (vm_compute in E; discriminate).
    exists msg, g'. split; [reflexivity|].
    vm_compute in E. injection E as _ <-.
    repeat split; vm_compute; reflexivity.
Qed.

(** ** Shape consistency of the operations built through the helper *)

Section LogGrows.

Variable infer : OpKind -> list TensorType -> Attrs -> option (list Z).

Lemma helper_consistent_nil : helper_consistent infer [].
Proof. constructor. Qed.

Lemma helper_consistent_app l1 l2 :
  helper_consistent infer l1 -> helper_consistent infer l2 ->
  helper_consistent infer (l1 ++ l2).
Proof. unfold helper_consistent. intros H1 H2. apply Forall_app; auto. Qed.

(** A computation that leaves the log alone. *)
Lemma grows_same {A} (m : M A) :
  (forall g, match m g with
             | Ok _ g' | Failure _ g' => g_log g' = g_log g
             | _ => True
             end) ->
  log_grows infer m.
Proof.
  intros H g. specialize (H g).
  destruct (m g); try exact I;
    (exists []; rewrite app_nil_r; split; [exact H|apply helper_consistent_nil]).
Qed.

Lemma grows_ret {A} (a : A) : log_grows infer (ret a).
Proof. apply grows_same. intros g. reflexivity. Qed.

Lemma grows_failure {A} msg : log_grows infer (@failure A msg).
Proof. apply grows_same. intros g. reflexivity. Qed.

Lemma grows_crash {A} : log_grows infer (@crash A).
Proof. intros g. exact I. Qed.

Lemma grows_must {A} (o : option A) : log_grows infer (must o).
Proof. destruct o; [apply grows_ret|apply grows_crash]. Qed.

Lemma grows_liftExc {A} (e : Exc A) : log_grows infer (liftExc e).
Proof. destruct e; [apply grows_ret|apply grows_failure|apply grows_crash]. Qed.

Lemma grows_bind {A B} (m : M A) (k : A -> M B) :
  log_grows infer m -> (forall a, log_grows infer (k a)) ->
  log_grows infer (bind m k).
Proof.
  intros Hm Hk g. unfold bind. specialize (Hm g).
  destruct (m g) as [a g1 | s g1 | |]; try exact I; [|exact Hm].
  destruct Hm as (new1 & E1 & C1). specialize (Hk a g1).
  destruct (k a g1) as [b g2 | s g2 | |]; try exact I;
    destruct Hk as (new2 & E2 & C2);
    (exists (new1 ++ new2); split;
     [rewrite E2, E1, app_assoc; reflexivity
     |apply helper_consistent_app; assumption]).
Qed.

Lemma grows_getType v : log_grows infer (getType v).
Proof. apply grows_same. intros g. unfold getType. destruct (g_types g !! v); exact eq_refl || exact I. Qed.

Lemma grows_getOp o : log_grows infer (getOp o).
Proof. apply grows_same. intros g. unfold getOp. destruct (g_ops g !! o); exact eq_refl || exact I. Qed.

Lemma grows_getTypes vs : log_grows infer (getTypes vs).
Proof.
  apply grows_same. intros g. unfold getTypes.
  destruct (mapM _ vs); exact eq_refl || exact I.
Qed.

Lemma grows_firstUse v : log_grows infer (firstUse v).
Proof. apply grows_same. intros g. reflexivity. Qed.

Lemma grows_nextUse u : log_grows infer (nextUse u).
Proof.
  apply grows_same. intros g. unfold nextUse.
  destruct (g_ops g !! u.1) as [op|]; [|exact I].
  destruct (op_operands op !! u.2); exact eq_refl || exact I.
Qed.

Lemma grows_setAttr o name a : log_grows infer (setAttr o name a).
Proof.
  apply grows_same. intros g. unfold setAttr.
  destruct (g_ops g !! o); exact eq_refl || exact I.
Qed.

Lemma grows_setOperand o i v : log_grows infer (setOperand o i v).
Proof.
  apply grows_same. intros g. unfold setOperand.
  destruct (g_ops g !! o) as [op|]; [|exact I].
  destruct (op_operands op !! i); exact eq_refl || exact I.
Qed.

Lemma grows_create_by_hand kind ty operands attrs :
  log_grows infer (create false kind ty operands attrs).
Proof.
  intros g. unfold create. destruct (mapM _ operands) as [tys|]; [|exact I].
  eexists. split; [reflexivity|].
  constructor; [|constructor]. cbn. discriminate.
Qed.

Lemma grows_createOpAndInfer kind e operands attrs :
  log_grows infer (createOpAndInfer infer kind e operands attrs).
Proof.
  intros g. unfold createOpAndInfer, bind, getTypes.
  destruct (mapM (fun v => g_types g !! v) operands) as [tys|] eqn:Et;
    [|exact I].
  cbn [must ret]. destruct (infer kind tys attrs) as [dims|] eqn:Ei; [|exact I].
  cbn [must ret]. unfold create. rewrite Et.
  eexists. split; [reflexivity|].
  constructor; [|constructor]. intros _. exact Ei.
Qed.

Lemma grows_forUses (body : Use -> M unit) :
  (forall u, log_grows infer (body u)) ->
  forall fuel it, log_grows infer (forUses fuel body it).
Proof.
  intros Hb fuel. induction fuel as [|fuel IH]; intros [u|]; cbn [forUses];
    try apply grows_ret.
  - intros g. exact I.
  - apply grows_bind; [apply Hb|]. intros _.
    apply grows_bind; [apply grows_nextUse|]. intros it'. apply IH.
Qed.

Ltac grows_step :=
  first
    [ apply grows_ret | apply grows_failure | apply grows_crash
    | apply grows_must | apply grows_liftExc
    | apply grows_getType | apply grows_getOp | apply grows_getTypes
    | apply grows_firstUse | apply grows_nextUse
    | apply grows_setAttr | apply grows_setOperand
    | apply grows_create_by_hand | apply grows_createOpAndInfer
    | apply grows_bind; [|intros]
    | match goal with
      | |- log_grows _ (if ?b then _ else _) => destruct b
      | |- log_grows _ (match ?x with _ => _ end) => destruct x
      end ].

Ltac grows := repeat grows_step.

Lemma grows_copyOptionalAttrs src dst : log_grows infer (copyOptionalAttrs src dst).
Proof. unfold copyOptionalAttrs. grows. Qed.

Lemma grows_isBroadcastable op operand : log_grows infer (isBroadcastable op operand).
Proof. unfold isBroadcastable. grows. Qed.

Lemma grows_replaceFirstUse e op v : log_grows infer (replaceFirstUse e op v).
Proof. unfold replaceFirstUse. grows. Qed.

Lemma grows_getRank4TransposeOp input p :
  log_grows infer (getRank4TransposeOp input p).
Proof. unfold getRank4TransposeOp. grows. Qed.

Lemma grows_createCastOp e input : log_grows infer (createCastOp e input).
Proof. unfold createCastOp. grows. Qed.

Lemma grows_runRule r fuel op operands :
  log_grows infer (runRule infer r fuel op operands).
Proof.
  destruct r; cbn [runRule].
  - unfold ConvConverter, getZeroBias.
    repeat first [apply grows_getRank4TransposeOp | apply grows_copyOptionalAttrs
                 | grows_step].
  - unfold BroadcastConverter.
    apply grows_bind; [grows|intros input_t].
    apply grows_bind; [unfold broadcastAlign; grows|intros newOperand].
    apply grows_bind; [grows|intros it].
    apply grows_bind; [|intros; grows].
    apply grows_forUses. intros u. unfold broadcastUse.
    repeat first [apply grows_isBroadcastable | apply grows_replaceFirstUse
                 | grows_step].
  - unfold MultiBroadcastConverter.
    apply grows_bind; [grows|intros input_t].
    apply grows_bind; [grows|intros inTy].
    apply grows_bind; [grows|intros it].
    apply grows_bind; [|intros; grows].
    apply grows_forUses. intros u. unfold multiBroadcastUse, multiBroadcastAlign.
    repeat first [apply grows_isBroadcastable | apply grows_replaceFirstUse
                 | grows_step].
  - unfold ReshapeConverter. grows.
  - unfold SoftmaxConverter. grows.
  - unfold DotConverter.
    repeat first [apply grows_copyOptionalAttrs | grows_step].
  - unfold ReduceMeanConverter, createNumElementsTosaConst. grows.
  - unfold QuantizeLinearConverter.
    repeat first [apply grows_createCastOp | grows_step].
Qed.

End LogGrows.

(** C2 (as the code has it). For every rule and every input on which the
    rule returns (with a replacement or with a reportable failure), the
    operations it has built are appended to the creation log, and each of
    them that was built through [createOpAndInfer] declares the shape the
    inference function computes from its kind, operand types and
    attributes as they were when it was built. *)
Theorem C2_helper_built_shapes_are_inferred :
  forall (infer : OpKind -> list TensorType -> Attrs -> option (list Z))
         (rule : Rule) (fuel : nat) (op : nat) (operands : list Value)
         (g g' : Graph),
    (exists res, runRule infer rule fuel op operands g = Ok res g') \/
    (exists msg, runRule infer rule fuel op operands g = Failure msg g') ->
    exists new,
      g_log g' = g_log g ++ new /\
      Forall (fun c => c_inferred c = true ->
                       infer (op_kind (c_op c)) (c_inputs c) (op_attrs (c_op c))
                       = Some (tshape (c_type c))) new.
Proof.
  intros infer rule fuel op operands g g' H.
  pose proof (grows_runRule infer rule fuel op operands g) as Hg.
  destruct H as [[res E] | [msg E]]; rewrite E in Hg; exact Hg.
Qed.

Lemma C2_witness :
  exists new,
    g_log (graphAfter (SoftmaxConverter exampleInfer 1 [0%nat] softmaxGraph)
                      softmaxGraph)
    = g_log softmaxGraph ++ new /\
    Forall (fun c => c_inferred c = true ->
                     exampleInfer (op_kind (c_op c)) (c_inputs c) (op_attrs (c_op c))
                     = Some (tshape (c_type c))) new.
Proof.
  apply (C2_helper_built_shapes_are_inferred exampleInfer RSoftmax 0%nat 1%nat
           [0%nat] softmaxGraph).
  left. exists (ReplaceWith 7%nat). vm_compute. reflexivity.
Defined.

Lemma softmax_example_builds_six :
  length (filter (fun c => c_inferred c = true)
                 (logOf (SoftmaxConverter exampleInfer 1 [0%nat] softmaxGraph)))
  = 6%nat.
Proof. vm_compute. reflexivity. Qed.

(** C2, the claim as worded fails for the operations stamped by hand,
    whatever the oracle is. Two convolutions over the same input and
    filter with strides 1 and 2 yield target convolutions of the same
    kind, operand types and (empty) attributes at construction but of
    declared shapes [1,6,6,4] and [1,3,3,4]; two consumers of a
    multi-broadcast with result element types i8 and i32 yield reshapes of
    the same kind, operand type and attributes but of declared element
    types i8 and i32. No function of kind, operand types and attributes
    returns both. *)
Lemma C2_counterexample :
  (~ exists oracle,
       oracle_consistent oracle
         (logOf (ConvConverter 2 [0%nat; 1%nat] (convGraph 1 [1; 4; 6; 6]))) /\
       oracle_consistent oracle
         (logOf (ConvConverter 2 [0%nat; 1%nat] (convGraph 2 [1; 4; 3; 3])))) /\
  (~ exists oracle,
       oracle_consistent oracle
         (logOf (MultiBroadcastConverter 8 2 [0%nat]
                   (multiBroadcastGraph [3; 1; 1] [2; 3; 4; 4] (IntTy 8) (IntTy 8)))) /\
       oracle_consistent oracle
         (logOf (MultiBroadcastConverter 8 2 [0%nat]
                   (multiBroadcastGraph [3; 1; 1] [2; 3; 4; 4] (IntTy 8) (IntTy 32))))).
Proof.
  split; intros (oracle & H1 & H2); unfold oracle_consistent in *.
  - eapply (Forall_lookup_1 _ _ 5%nat) in H1; [|vm_compute; reflexivity].
    eapply (Forall_lookup_1 _ _ 5%nat) in H2; [|vm_compute; reflexivity].
    cbn in H1, H2. rewrite H1 in H2. discriminate.
  - eapply (Forall_lookup_1 _ _ 0%nat) in H1; [|vm_compute; reflexivity].
    eapply (Forall_lookup_1 _ _ 0%nat) in H2; [|vm_compute; reflexivity].
    cbn in H1, H2. rewrite H1 in H2. discriminate.
Qed.

(** ** Further rules *)

Ltac fresh_tac := repeat (apply addCreated_fresh; [|reflexivity]); assumption.

Ltac type_tac :=
  repeat first
    [ eassumption
    | exact (addCreated_type_new _ _)
    | apply addCreated_type_old; [fresh_tac | reflexivity | ] ].

Ltac infer_step operandTys inferred :=
  erewrite bind_Ok;
  [| apply (createOpAndInfer_Ok _ _ _ _ _ _ operandTys inferred);
     [first [apply mapM_types_1 | apply mapM_types_2]; type_tac | eassumption]].

(** The softmax rule builds, along the axis of the operation: reduce-max,
    subtract, exponential, reduce-sum, reciprocal and the multiply of
    the exponential by the reciprocal, which replaces the operation; each
    shape is the one inference returns. *)
Theorem softmax_decomposition :
  forall (infer : OpKind -> list TensorType -> Attrs -> option (list Z))
         (g : Graph) (op : nat) (o : Op) (operands : list Value) (input : Value)
         (tyIn : TensorType) (t : ElemType) (z : Z)
         (dMax dSub dExp dSum dRec dMul : list Z),
    fresh_ok g ->
    g_ops g !! op = Some o ->
    operands !! 0%nat = Some input ->
    getAttr "axis" (op_attrs o) = Some (AInt t z) ->
    g_types g !! input = Some tyIn ->
    infer TReduceMax [tyIn] [("axis"%string, AInt t z)] = Some dMax ->
    infer TSub [tyIn; TT dMax (telem tyIn)] [] = Some dSub ->
    infer TExp [TT dSub (telem tyIn)] [] = Some dExp ->
    infer TReduceSum [TT dExp (telem tyIn)] [("axis"%string, AInt t z)] = Some dSum ->
    infer TReciprocal [TT dSum (telem tyIn)] [] = Some dRec ->
    infer TMul [TT dExp (telem tyIn); TT dRec (telem tyIn)] shift0 = Some dMul ->
    SoftmaxConverter infer op operands g
    = Ok (ReplaceWith (5 + g_next g)%nat)
         (built g
            [inferredOp (g_next g) TReduceMax [input] [tyIn]
                        [("axis"%string, AInt t z)] dMax (telem tyIn);
             inferredOp (1 + g_next g)%nat TSub [input; g_next g]
                        [tyIn; TT dMax (telem tyIn)] [] dSub (telem tyIn);
             inferredOp (2 + g_next g)%nat TExp [(1 + g_next g)%nat]
                        [TT dSub (telem tyIn)] [] dExp (telem tyIn);
             inferredOp (3 + g_next g)%nat TReduceSum [(2 + g_next g)%nat]
                        [TT dExp (telem tyIn)] [("axis"%string, AInt t z)]
                        dSum (telem tyIn);
             inferredOp (4 + g_next g)%nat TReciprocal [(3 + g_next g)%nat]
                        [TT dSum (telem tyIn)] [] dRec (telem tyIn);
             inferredOp (5 + g_next g)%nat TMul
                        [(2 + g_next g)%nat; (4 + g_next g)%nat]
                        [TT dExp (telem tyIn); TT dRec (telem tyIn)] shift0
                        dMul (telem tyIn)]).
Proof.
  intros infer g op o operands input tyIn t z dMax dSub dExp dSum dRec dMul
         Hf Hop Hin Hax Hty H1 H2 H3 H4 H5 H6.
  unfold SoftmaxConverter.
  erewrite bind_Ok by (apply must_Some; exact Hin).
  erewrite bind_Ok by (apply getOp_Ok; exact Hop).
  rewrite Hax. erewrite bind_Ok by reflexivity.
  erewrite bind_Ok by (apply getType_Ok; exact Hty).
  set (e := telem tyIn) in *.
  infer_step [tyIn] dMax.
  infer_step [tyIn; TT dMax e] dSub.
  infer_step [TT dSub e] dExp.
  infer_step [TT dExp e] dSum.
  infer_step [TT dSum e] dRec.
  infer_step [TT dExp e; TT dRec e] dMul.
  reflexivity.
Qed.

Lemma softmax_decomposition_witness :
  SoftmaxConverter exampleInfer 1 [0%nat] softmaxGraph
  = Ok (ReplaceWith 7%nat)
       (built softmaxGraph
          [inferredOp 2%nat TReduceMax [0%nat] [f32 [2; 4]]
                      [("axis"%string, i64Attr 1)] [2; 1] F32;
           inferredOp 3%nat TSub [0%nat; 2%nat] [f32 [2; 4]; f32 [2; 1]] []
                      [2; 4] F32;
           inferredOp 4%nat TExp [3%nat] [f32 [2; 4]] [] [2; 4] F32;
           inferredOp 5%nat TReduceSum [4%nat] [f32 [2; 4]]
                      [("axis"%string, i64Attr 1)] [2; 1] F32;
           inferredOp 6%nat TReciprocal [5%nat] [f32 [2; 1]] [] [2; 1] F32;
           inferredOp 7%nat TMul [4%nat; 6%nat] [f32 [2; 4]; f32 [2; 1]] shift0
                      [2; 4] F32]).
Proof.
  apply (softmax_decomposition exampleInfer softmaxGraph 1%nat
           (mkOp MSoftmax [0%nat] [("axis"%string, i64Attr 1)]) [0%nat] 0%nat
           (f32 [2; 4]) (IntTy 64) 1);
    first [reflexivity | apply (bool_decide_unpack _); vm_compute; exact I].
Defined.

Lemma mapM_types_3 (m : gmap nat TensorType) v1 v2 v3 t1 t2 t3 :
  m !! v1 = Some t1 -> m !! v2 = Some t2 -> m !! v3 = Some t3 ->
  mapM (fun v => m !! v) [v1; v2; v3] = Some [t1; t2; t3].
Proof. intros H1 H2 H3. cbn [mapM]. rewrite H1, H2, H3. reflexivity. Qed.

Lemma setAttr_setOp_Ok g o op name a :
  setAttr o name a (setOp o op g)
  = Ok tt (setOp o (mkOp (op_kind op) (op_operands op)
                         (putAttr name a (op_attrs op))) g).
Proof.
  erewrite setAttr_Ok by (apply lookup_insert_eq).
  rewrite setOp_setOp. reflexivity.
Qed.

Lemma copyOptionalAttrs_setOp_Ok g src dst so d :
  src <> dst -> g_ops g !! src = Some so ->
  copyOptionalAttrs src dst (setOp dst d g)
  = Ok tt (setOp dst (mkOp (op_kind d) (op_operands d)
                           (copiedAttrs (op_attrs so) (op_attrs d))) g).
Proof.
  intros Hne Hs.
  erewrite copyOptionalAttrs_Ok with (so := so) (d := d).
  - rewrite setOp_setOp. reflexivity.
  - cbn [setOp g_ops]. rewrite lookup_insert_ne by congruence. exact Hs.
  - apply lookup_insert_eq.
Qed.

(** The convolution rule on a rank-4 convolution with well-formed
    attributes: input and filter are transposed by [0,2,3,1], a zero bias
    of the filter's output-channel extent is built, the target convolution
    is typed with the channel-last permutation of the declared output and
    given dilation, stride and pad (and zero-point quantization info for
    8-bit integers), and its result is transposed back by [0,3,1,2]; the
    replacement has the shape and element type of the original output. *)
Theorem conv_lowering :
  forall (g : Graph) (op : nat) (o : Op) (in0 input_t filter_t : Value)
         (ty0 : TensorType) (eI eF eOut : ElemType)
         (n c h w k ci kh kw o0 o1 o2 o3 : Z)
         (t1 t2 t3 t4 t5 t6 t7 t8 : ElemType)
         (padTop padBottom padLeft padRight sH sW dH dW : Z),
    fresh_ok g ->
    g_ops g !! op = Some o ->
    op_operands o !! 0%nat = Some in0 ->
    g_types g !! in0 = Some ty0 ->
    g_types g !! op = Some (TT [o0; o1; o2; o3] eOut) ->
    g_types g !! input_t = Some (TT [n; c; h; w] eI) ->
    g_types g !! filter_t = Some (TT [k; ci; kh; kw] eF) ->
    arrayAttr "padding" (op_attrs o)
    = Some [AInt t1 padTop; AInt t2 padBottom; AInt t3 padLeft; AInt t4 padRight] ->
    arrayAttr "stride" (op_attrs o) = Some [AInt t5 sH; AInt t6 sW] ->
    arrayAttr "dilation" (op_attrs o) = Some [AInt t7 dH; AInt t8 dW] ->
    ConvConverter op [input_t; filter_t] g
    = Ok (ReplaceWith (7 + g_next g)%nat)
         (convLowered g (op_attrs o) (telem ty0) input_t filter_t
            [n; c; h; w] [k; ci; kh; kw] [o0; o1; o2; o3]
            [n; h; w; c] [k; kh; kw; ci] [o0; o2; o3; o1]
            eI eF eOut k [dH; dW] [sH; sW]
            [padTop; padBottom; padLeft; padRight]) /\
    g_types (convLowered g (op_attrs o) (telem ty0) input_t filter_t
               [n; c; h; w] [k; ci; kh; kw] [o0; o1; o2; o3]
               [n; h; w; c] [k; kh; kw; ci] [o0; o2; o3; o1]
               eI eF eOut k [dH; dW] [sH; sW]
               [padTop; padBottom; padLeft; padRight]) !! (7 + g_next g)%nat
    = Some (TT [o0; o1; o2; o3] eOut).
Proof.
  intros g op o in0 input_t filter_t ty0 eI eF eOut n c h w k ci kh kw o0 o1 o2 o3
         t1 t2 t3 t4 t5 t6 t7 t8 padTop padBottom padLeft padRight sH sW dH dW
         Hf Hop Hin0 Hty0 Hout HI HF Hpad Hstride Hdil.
  split; [|exact (addCreated_type_new (transposeOp _ _ _ _ _) _)].
  pose proof (fresh_ok_op_lt _ _ _ Hf Hop) as Hlt.
  unfold ConvConverter.
  erewrite bind_Ok by reflexivity. erewrite bind_Ok by reflexivity.
  erewrite bind_Ok by (apply getOp_Ok; exact Hop).
  erewrite bind_Ok by (apply must_Some; exact Hin0).
  erewrite bind_Ok by (apply getType_Ok; exact Hty0).
  erewrite bind_Ok by (apply getType_Ok; exact Hout).
  set (k0 := g_next g).
  set (c1 := permConst k0 NCHW2NHWC).
  set (x1 := transposeOp k0 input_t [n; c; h; w] [n; h; w; c] eI).
  set (c2 := permConst (2 + k0) NCHW2NHWC).
  set (x2 := transposeOp (2 + k0) filter_t [k; ci; kh; kw] [k; kh; kw; ci] eF).
  set (b := zeroBias (4 + k0) k eOut).
  set (cv := conv2dOp (5 + k0) [S k0; S (S (S k0)); (4 + k0)%nat]
                      [TT [n; h; w; c] eI; TT [k; kh; kw; ci] eF; TT [k] eOut]
                      [o0; o2; o3; o1] eOut).
  erewrite bind_Ok
    by (eapply getRank4TransposeOp_spec; [exact Hf | exact HI | reflexivity]).
  fold k0 c1 x1.
  assert (F2 : fresh_ok (addCreated x1 (addCreated c1 g))) by fresh_tac.
  erewrite bind_Ok.
  2:{ eapply getRank4TransposeOp_spec with (s := [k; ci; kh; kw]) (e := eF);
      [exact F2 | type_tac | reflexivity]. }
  change (g_next (addCreated x1 (addCreated c1 g))) with (2 + k0)%nat.
  fold c2 x2. cbn [tshape telem].
  erewrite bind_Ok by reflexivity. erewrite bind_Ok by reflexivity.
  erewrite bind_Ok by reflexivity. erewrite bind_Ok by reflexivity.
  set (G4 := addCreated x2 (addCreated c2 (addCreated x1 (addCreated c1 g)))).
  assert (F4 : fresh_ok G4) by (subst G4; fresh_tac).
  erewrite bind_Ok by (apply getType_Ok; exact (addCreated_type_new x2 _)).
  cbn [c_type x2 transposeOp tshape telem].
  erewrite bind_Ok by reflexivity.
  erewrite bind_Ok by (unfold getZeroBias; apply create_Ok; reflexivity).
  change (g_next G4) with (4 + k0)%nat. fold (zeroBias (4 + k0) k eOut). fold b.
  erewrite bind_Ok.
  2:{ apply create_Ok.
      apply (mapM_types_3 _ _ _ _ (TT [n; h; w; c] eI) (TT [k; kh; kw; ci] eF)
                          (TT [k] eOut)).
      - subst G4.
        apply addCreated_type_old; [fresh_tac|reflexivity|].
        apply addCreated_type_old; [fresh_tac|reflexivity|].
        apply addCreated_type_old; [fresh_tac|reflexivity|].
        exact (addCreated_type_new x1 _).
      - apply addCreated_type_old; [fresh_tac|reflexivity|].
        exact (addCreated_type_new x2 _).
      - exact (addCreated_type_new b G4). }
  change (g_next (addCreated b G4)) with (5 + k0)%nat.
  fold (conv2dOp (5 + k0) [S k0; S (S (S k0)); (4 + k0)%nat]
                 [TT [n; h; w; c] eI; TT [k; kh; kw; ci] eF; TT [k] eOut]
                 [o0; o2; o3; o1] eOut). fold cv.
  set (G6 := addCreated cv (addCreated b G4)).
  assert (F6 : fresh_ok G6) by (subst G6; fresh_tac).
  assert (Hop6 : g_ops G6 !! op = Some o).
  { subst G6 G4. repeat (apply addCreated_op_old; [fresh_tac|reflexivity|]).
    exact Hop. }
  erewrite bind_Ok by (apply must_Some; exact Hpad).
  erewrite bind_Ok by (apply must_Some; exact Hstride).
  erewrite bind_Ok by (apply must_Some; exact Hdil).
  do 8 (erewrite bind_Ok by reflexivity).
  erewrite bind_Ok by (apply setAttr_Ok; exact (addCreated_op_new cv _)).
  cbn [c_op cv conv2dOp op_kind op_operands op_attrs].
  erewrite bind_Ok by (apply setAttr_setOp_Ok).
  cbn [op_kind op_operands op_attrs].
  erewrite bind_Ok by (apply setAttr_setOp_Ok).
  cbn [op_kind op_operands op_attrs].
  erewrite bind_Ok
    by (apply copyOptionalAttrs_setOp_Ok with (so := o); [lia|exact Hop6]).
  cbn [op_kind op_operands op_attrs].
  set (final := mkOp TConv2D [S k0; S (S (S k0)); (4 + k0)%nat]
                     (convAttrs (op_attrs o) (telem ty0) [dH; dW] [sH; sW]
                                [padTop; padBottom; padLeft; padRight])).
  assert (Hq : forall A (kont : unit -> M A),
             bind (if isInteger8 (telem ty0)
                   then setAttr (5 + k0) "quantization_info" (AConvQuant 0 0)
                   else ret tt) kont
                  (setOp (5 + k0)
                     (mkOp TConv2D [S k0; S (S (S k0)); (4 + k0)%nat]
                        (copiedAttrs (op_attrs o)
                           (putAttr "pad"
                              (ADenseI64 [padTop; padBottom; padLeft; padRight])
                              (putAttr "stride" (ADenseI64 [sH; sW])
                                 (putAttr "dilation" (ADenseI64 [dH; dW]) [])))))
                     G6)
             = kont tt (setOp (5 + k0) final G6)).
  { intros A kont. subst final. unfold convAttrs.
    destruct (isInteger8 (telem ty0)).
    - erewrite bind_Ok by (apply setAttr_setOp_Ok). reflexivity.
    - reflexivity. }
  rewrite Hq. clear Hq.
  erewrite bind_Ok.
  2:{ eapply getRank4TransposeOp_spec with (s := [o0; o2; o3; o1]) (e := eOut).
      - apply setOp_fresh; [exact F6|]. subst G6 G4. cbn. lia.
      - cbn [setOp g_types]. exact (addCreated_type_new cv _).
      - reflexivity. }
  reflexivity.
Qed.

Lemma conv_lowering_witness :
  ConvConverter 2 [0%nat; 1%nat] (convGraph 1 [1; 4; 6; 6])
  = Ok (ReplaceWith 10%nat)
       (convLowered (convGraph 1 [1; 4; 6; 6])
          [("padding"%string, AArray [i64Attr 0; i64Attr 0; i64Attr 0; i64Attr 0]);
           ("stride"%string, AArray [i64Attr 1; i64Attr 1]);
           ("dilation"%string, AArray [i64Attr 1; i64Attr 1])]
          F32 0%nat 1%nat
          [1; 3; 8; 8] [4; 3; 3; 3] [1; 4; 6; 6]
          [1; 8; 8; 3] [4; 3; 3; 3] [1; 6; 6; 4]
          F32 F32 F32 4 [1; 1] [1; 1] [0; 0; 0; 0]) /\
  g_types (convLowered (convGraph 1 [1; 4; 6; 6])
          [("padding"%string, AArray [i64Attr 0; i64Attr 0; i64Attr 0; i64Attr 0]);
           ("stride"%string, AArray [i64Attr 1; i64Attr 1]);
           ("dilation"%string, AArray [i64Attr 1; i64Attr 1])]
          F32 0%nat 1%nat
          [1; 3; 8; 8] [4; 3; 3; 3] [1; 4; 6; 6]
          [1; 8; 8; 3] [4; 3; 3; 3] [1; 6; 6; 4]
          F32 F32 F32 4 [1; 1] [1; 1] [0; 0; 0; 0]) !! 10%nat
  = Some (TT [1; 4; 6; 6] F32).
Proof.
  apply (conv_lowering (convGraph 1 [1; 4; 6; 6]) 2%nat
           (mkOp MConvolution [0%nat; 1%nat]
              [("padding"%string, AArray [i64Attr 0; i64Attr 0; i64Attr 0; i64Attr 0]);
               ("stride"%string, AArray [i64Attr 1; i64Attr 1]);
               ("dilation"%string, AArray [i64Attr 1; i64Attr 1])])
           0%nat 0%nat 1%nat (f32 [1; 3; 8; 8]) F32 F32 F32
           1 3 8 8 4 3 3 3 1 4 6 6
           (IntTy 64) (IntTy 64) (IntTy 64) (IntTy 64)
           (IntTy 64) (IntTy 64) (IntTy 64) (IntTy 64)
           0 0 0 0 1 1 1 1);
    first [reflexivity | apply (bool_decide_unpack _); vm_compute; exact I].
Defined.

Lemma needsFlatten_false_iff A B O :
  needsFlatten A B O = false <-> rank O = 3 /\ A = B.
Proof.
  split.
  - intros H. split; [|exact (needsFlatten_false _ _ _ H)].
    unfold needsFlatten in H.
    apply orb_false_iff in H as [H _]. apply orb_false_iff in H as [H _].
    apply negb_false_iff, Z.eqb_eq in H. exact H.
  - intros [H3 ->]. unfold needsFlatten.
    rewrite H3, (Z.eqb_refl (rank B)), bool_decide_eq_true_2 by reflexivity.
    reflexivity.
Qed.

(** The dot rule builds the matmul directly on its operands exactly when
    the output has rank 3 and the two operand shapes are equal (all
    extents, not only the batch); the matmul then replaces the dot. For
    every other input the flattening path is taken. *)
Theorem dot_direct_path :
  forall (g : Graph) (op : nat) (o : Op) (in0 in_A in_B : Value)
         (ty0 tyA tyB outTy : TensorType),
    fresh_ok g ->
    g_ops g !! op = Some o ->
    op_operands o !! 0%nat = Some in0 ->
    g_types g !! in0 = Some ty0 ->
    g_types g !! op = Some outTy ->
    g_types g !! in_A = Some tyA ->
    g_types g !! in_B = Some tyB ->
    (needsFlatten (tshape tyA) (tshape tyB) (tshape outTy) = false <->
     rank (tshape outTy) = 3 /\ tshape tyA = tshape tyB) /\
    (rank (tshape outTy) = 3 -> tshape tyA = tshape tyB ->
     DotConverter op [in_A; in_B] g
     = Ok (ReplaceWith (g_next g))
          (setOp (g_next g)
             (mkOp TMatMul [in_A; in_B] (copiedAttrs (op_attrs o) []))
             (addCreated
                (matmulOp (g_next g) in_A in_B tyA tyB (tshape outTy) (telem ty0))
                g))).
Proof.
  intros g op o in0 in_A in_B ty0 tyA tyB outTy Hf Hop Hin0 Hty0 Hout HA HB.
  split; [apply needsFlatten_false_iff|].
  intros H3 Heq.
  assert (Hn : needsFlatten (tshape tyA) (tshape tyB) (tshape outTy) = false)
    by (apply needsFlatten_false_iff; auto).
  unfold DotConverter.
  erewrite bind_Ok by (apply must_Some; reflexivity).
  erewrite bind_Ok by (apply must_Some; reflexivity).
  erewrite bind_Ok by (apply getOp_Ok; exact Hop).
  erewrite bind_Ok by (apply must_Some; exact Hin0).
  erewrite bind_Ok by (apply getType_Ok; exact Hty0).
  erewrite bind_Ok by (apply getType_Ok; exact Hout).
  erewrite bind_Ok by (apply getType_Ok; exact HA).
  erewrite bind_Ok by (apply getType_Ok; exact HB).
  rewrite Hn.
  erewrite bind_Ok by (apply create_Ok; apply mapM_types_2; eassumption).
  fold (matmulOp (g_next g) in_A in_B tyA tyB (tshape outTy) (telem ty0)).
  erewrite bind_Ok.
  2:{ apply copyOptionalAttrs_Ok with (so := o).
      - apply addCreated_op_old; [exact Hf|reflexivity|exact Hop].
      - exact (addCreated_op_new _ _). }
  reflexivity.
Qed.

Lemma dot_direct_path_witness :
  DotConverter 2 [0%nat; 1%nat] (dotGraph [2; 4; 4] [2; 4; 4] [2; 4; 4])
  = Ok (ReplaceWith 3%nat)
       (setOp 3 (mkOp TMatMul [0%nat; 1%nat] [])
          (addCreated
             (matmulOp 3 0%nat 1%nat (f32 [2; 4; 4]) (f32 [2; 4; 4]) [2; 4; 4] F32)
             (dotGraph [2; 4; 4] [2; 4; 4] [2; 4; 4]))).
Proof.
  apply (dot_direct_path (dotGraph [2; 4; 4] [2; 4; 4] [2; 4; 4]) 2%nat
           (mkOp MDot [0%nat; 1%nat] []) 0%nat 0%nat 1%nat
           (f32 [2; 4; 4]) (f32 [2; 4; 4]) (f32 [2; 4; 4]) (f32 [2; 4; 4]));
    first [reflexivity | apply (bool_decide_unpack _); vm_compute; exact I].
Defined.

(** * Invariants kept by the rules *)

Section Hoare.

Variable I : Graph -> Prop.
Variable R : Graph -> Graph -> Prop.
Variable Qnew : Value -> Prop.
Variable infer : OpKind -> list TensorType -> Attrs -> option (list Z).

Hypothesis R_refl : forall g, R g g.
Hypothesis R_trans : forall a b c, R a b -> R b c -> R a c.

(** What the instance has to show of the three primitives that change the
    graph: building an operation (the new value satisfies [Qnew]),
    setting an attribute of an operation satisfying [Qnew], and
    redirecting an operand slot. *)
Hypothesis H_create : forall inferred kind ty operands attrs,
  hoare I R Qnew (create inferred kind ty operands attrs).
Hypothesis H_setAttr : forall o name a,
  Qnew o -> hoare I R (fun _ => True) (setAttr o name a).
Hypothesis H_setOperand : forall o i v,
  hoare I R (fun _ => True) (setOperand o i v).

Lemma hoare_ret {A} (Q : A -> Prop) (a : A) : Q a -> hoare I R Q (ret a).
Proof using R_refl. intros Ha g Hg. cbn. auto. Qed.

Lemma hoare_failure {A} (Q : A -> Prop) msg : hoare I R Q (@failure A msg).
Proof using R_refl. intros g Hg. cbn. auto. Qed.

Lemma hoare_crash {A} (Q : A -> Prop) : hoare I R Q (@crash A).
Proof using Type. intros g Hg. exact Logic.I. Qed.

Lemma hoare_weaken {A} (Q Q' : A -> Prop) (m : M A) :
  (forall a, Q a -> Q' a) -> hoare I R Q m -> hoare I R Q' m.
Proof using Type.
  intros HQ Hm g Hg. specialize (Hm g Hg).
  destruct (m g); try exact Hm. destruct Hm as (? & ? & ?). auto.
Qed.

Lemma hoare_bind {A B} (Q : A -> Prop) (Q' : B -> Prop) (m : M A) (k : A -> M B) :
  hoare I R Q m -> (forall a, Q a -> hoare I R Q' (k a)) ->
  hoare I R Q' (bind m k).
Proof using R_trans.
  intros Hm Hk g Hg. unfold bind. specialize (Hm g Hg).
  destruct (m g) as [a g1 | s g1 | |]; try exact Logic.I; [|exact Hm].
  destruct Hm as (I1 & R1 & Qa). specialize (Hk a Qa g1 I1).
  destruct (k a g1) as [b g2 | s g2 | |]; try exact Logic.I.
  - destruct Hk as (I2 & R2 & Qb). eauto.
  - destruct Hk as (I2 & R2). eauto.
Qed.

(** Computations that only read the graph. *)
Lemma hoare_reads {A} (m : M A) :
  (forall g, match m g with
             | Ok _ g' | Failure _ g' => g' = g
             | _ => True
             end) ->
  hoare I R (fun _ => True) m.
Proof using R_refl.
  intros H g Hg. specialize (H g).
  destruct (m g); try exact Logic.I; subst; auto.
Qed.

Lemma hoare_must {A} (o : option A) : hoare I R (fun _ => True) (must o).
Proof using R_refl. destruct o; [apply hoare_ret; exact Logic.I|apply hoare_crash]. Qed.

Lemma hoare_liftExc {A} (e : Exc A) : hoare I R (fun _ => True) (liftExc e).
Proof using R_refl.
  destruct e; [apply hoare_ret; exact Logic.I|apply hoare_failure|apply hoare_crash].
Qed.

Lemma hoare_getType v : hoare I R (fun _ => True) (getType v).
Proof using R_refl.
  apply hoare_reads. intros g. unfold getType.
  destruct (g_types g !! v); exact eq_refl || exact Logic.I.
Qed.

Lemma hoare_getOp o : hoare I R (fun _ => True) (getOp o).
Proof using R_refl.
  apply hoare_reads. intros g. unfold getOp.
  destruct (g_ops g !! o); exact eq_refl || exact Logic.I.
Qed.

Lemma hoare_getTypes vs : hoare I R (fun _ => True) (getTypes vs).
Proof using R_refl.
  apply hoare_reads. intros g. unfold getTypes.
  destruct (mapM _ vs); exact eq_refl || exact Logic.I.
Qed.

Lemma hoare_firstUse v : hoare I R (fun _ => True) (firstUse v).
Proof using R_refl. apply hoare_reads. intros g. reflexivity. Qed.

Lemma hoare_nextUse u : hoare I R (fun _ => True) (nextUse u).
Proof using R_refl.
  apply hoare_reads. intros g. unfold nextUse.
  destruct (g_ops g !! u.1) as [op|]; [|exact Logic.I].
  destruct (op_operands op !! u.2); exact eq_refl || exact Logic.I.
Qed.

Lemma hoare_forUses (body : Use -> M unit) :
  (forall u, hoare I R (fun _ => True) (body u)) ->
  forall fuel it, hoare I R (fun _ => True) (forUses fuel body it).
Proof using R_refl R_trans.
  intros Hb fuel. induction fuel as [|fuel IH]; intros [u|]; cbn [forUses];
    try (apply hoare_ret; exact Logic.I).
  - intros g Hg. exact Logic.I.
  - eapply hoare_bind; [apply Hb|]. intros _ _.
    eapply hoare_bind; [apply hoare_nextUse|]. intros it' _. apply IH.
Qed.

Lemma hoare_createOpAndInfer kind e operands attrs :
  hoare I R Qnew (createOpAndInfer infer kind e operands attrs).
Proof using R_refl R_trans H_create.
  unfold createOpAndInfer.
  eapply hoare_bind; [apply hoare_getTypes|]. intros tys _.
  eapply hoare_bind; [apply hoare_must|]. intros dims _.
  apply H_create.
Qed.

Lemma hoare_createCastOp e input : hoare I R Qnew (createCastOp e input).
Proof using R_refl R_trans H_create.
  unfold createCastOp.
  eapply hoare_bind; [apply hoare_getType|]. intros ty _. apply H_create.
Qed.

Lemma hoare_copyOptionalAttrs src dst :
  Qnew dst -> hoare I R (fun _ => True) (copyOptionalAttrs src dst).
Proof using R_refl R_trans H_setAttr.
  intros Hd. unfold copyOptionalAttrs.
  eapply hoare_bind; [apply hoare_getOp|]. intros o _.
  eapply hoare_bind.
  - destruct (boolAttr _ _); [apply H_setAttr; exact Hd|apply hoare_ret; exact Logic.I].
  - intros _ _.
    destruct (strAttr _ _); [apply H_setAttr; exact Hd|apply hoare_ret; exact Logic.I].
Qed.

Lemma hoare_getRank4TransposeOp input p :
  hoare I R Qnew (getRank4TransposeOp input p).
Proof using R_refl R_trans H_create.
  unfold getRank4TransposeOp.
  eapply hoare_bind; [apply H_create|]. intros c _.
  eapply hoare_bind; [apply hoare_getType|]. intros ty _.
  eapply hoare_bind; [apply hoare_must|]. intros s _.
  apply H_create.
Qed.

Ltac hoare_read :=
  first [ apply hoare_must | apply hoare_getType | apply hoare_getOp
        | apply hoare_getTypes | apply hoare_firstUse | apply hoare_liftExc ].

Ltac hoare_reads_then := eapply hoare_bind; [hoare_read | intros ? _].

Lemma hoare_ConvConverter op operands :
  hoare I R (fun _ => True) (ConvConverter op operands).
Proof using R_refl R_trans H_create H_setAttr.
  unfold ConvConverter.
  do 6 hoare_reads_then.
  eapply hoare_bind; [apply hoare_getRank4TransposeOp|]. intros input_t _.
  eapply hoare_bind; [apply hoare_getRank4TransposeOp|]. intros filter_t _.
  do 6 hoare_reads_then.
  eapply hoare_bind; [apply H_create|]. intros bias _.
  eapply hoare_bind; [apply H_create|]. intros cop Hcop.
  do 11 hoare_reads_then.
  eapply hoare_bind; [apply H_setAttr; exact Hcop|]. intros _ _.
  eapply hoare_bind; [apply H_setAttr; exact Hcop|]. intros _ _.
  eapply hoare_bind; [apply H_setAttr; exact Hcop|]. intros _ _.
  eapply hoare_bind; [apply hoare_copyOptionalAttrs; exact Hcop|]. intros _ _.
  eapply hoare_bind.
  { destruct (isInteger8 _); [apply H_setAttr; exact Hcop|apply hoare_ret; exact Logic.I]. }
  intros _ _.
  eapply hoare_bind; [apply hoare_getRank4TransposeOp|]. intros top _.
  apply hoare_ret. exact Logic.I.
Qed.

Lemma hoare_DotConverter op operands :
  hoare I R (fun _ => True) (DotConverter op operands).
Proof using R_refl R_trans H_create H_setAttr.
  unfold DotConverter.
  do 8 hoare_reads_then.
  destruct (needsFlatten _ _ _).
  - hoare_reads_then.
    eapply hoare_bind; [apply H_create|]. intros ra _.
    eapply hoare_bind; [apply H_create|]. intros rb _.
    eapply hoare_bind; [apply H_create|]. intros mop Hmop.
    eapply hoare_bind; [apply hoare_copyOptionalAttrs; exact Hmop|]. intros _ _.
    eapply hoare_bind; [apply H_create|]. intros rop _.
    apply hoare_ret. exact Logic.I.
  - eapply hoare_bind; [apply H_create|]. intros mop Hmop.
    eapply hoare_bind; [apply hoare_copyOptionalAttrs; exact Hmop|]. intros _ _.
    apply hoare_ret. exact Logic.I.
Qed.

Lemma hoare_ReshapeConverter op operands :
  hoare I R (fun _ => True) (ReshapeConverter op operands).
Proof using R_refl R_trans H_create.
  unfold ReshapeConverter.
  do 5 hoare_reads_then.
  eapply hoare_bind; [apply H_create|]. intros rop _.
  apply hoare_ret. exact Logic.I.
Qed.

Lemma hoare_SoftmaxConverter op operands :
  hoare I R (fun _ => True) (SoftmaxConverter infer op operands).
Proof using R_refl R_trans H_create.
  unfold SoftmaxConverter.
  do 4 hoare_reads_then.
  do 6 (eapply hoare_bind; [apply hoare_createOpAndInfer|]; intros ? _).
  apply hoare_ret. exact Logic.I.
Qed.

Lemma hoare_ReduceMeanConverter op operands :
  hoare I R (fun _ => True) (ReduceMeanConverter infer op operands).
Proof using R_refl R_trans H_create.
  unfold ReduceMeanConverter.
  do 2 hoare_reads_then.
  destruct (negb _); [apply hoare_failure|].
  do 3 hoare_reads_then.
  eapply hoare_bind.
  { unfold createNumElementsTosaConst. do 2 hoare_reads_then. apply H_create. }
  intros c _.
  do 3 (eapply hoare_bind; [apply hoare_createOpAndInfer|]; intros ? _).
  apply hoare_ret. exact Logic.I.
Qed.

Lemma hoare_QuantizeLinearConverter op operands :
  hoare I R (fun _ => True) (QuantizeLinearConverter infer op operands).
Proof using R_refl R_trans H_create.
  unfold QuantizeLinearConverter.
  do 4 hoare_reads_then.
  eapply hoare_bind with (Q := fun _ => True).
  { destruct (op_operands _ !! 2%nat);
      [eapply hoare_weaken; [|apply hoare_createOpAndInfer]; auto
      |apply hoare_ret; exact Logic.I]. }
  intros shifted _.
  eapply hoare_bind; [apply hoare_createCastOp|]. intros up _.
  eapply hoare_bind; [apply hoare_createOpAndInfer|]. intros sc _.
  eapply hoare_bind; [apply hoare_createCastOp|]. intros down _.
  apply hoare_ret. exact Logic.I.
Qed.

Lemma hoare_isBroadcastable op operand :
  hoare I R (fun _ => True) (isBroadcastable op operand).
Proof using R_refl R_trans H_setOperand.
  unfold isBroadcastable.
  hoare_reads_then.
  destruct (negb _); [apply hoare_ret; exact Logic.I|].
  hoare_reads_then.
  destruct (negb _); [|apply hoare_ret; exact Logic.I].
  eapply hoare_bind; [apply H_setOperand|]. intros _ _.
  eapply hoare_bind; [apply H_setOperand|]. intros _ _.
  apply hoare_ret. exact Logic.I.
Qed.

Lemma hoare_replaceFirstUse e op v :
  hoare I R (fun _ => True) (replaceFirstUse e op v).
Proof using R_refl R_trans H_setOperand.
  unfold replaceFirstUse. hoare_reads_then.
  destruct (findOperand _ _ _); [apply H_setOperand|apply hoare_ret; exact Logic.I].
Qed.

Lemma hoare_BroadcastConverter fuel op operands :
  hoare I R (fun _ => True) (BroadcastConverter fuel op operands).
Proof using R_refl R_trans H_create H_setOperand.
  unfold BroadcastConverter.
  hoare_reads_then.
  eapply hoare_bind with (Q := fun _ => True).
  { unfold broadcastAlign. do 4 hoare_reads_then.
    destruct (negb _); [|apply hoare_ret; exact Logic.I].
    hoare_reads_then. eapply hoare_weaken; [|apply H_create]. auto. }
  intros newOperand _.
  hoare_reads_then.
  eapply hoare_bind; [|intros _ _; apply hoare_ret; exact Logic.I].
  apply hoare_forUses. intros u. unfold broadcastUse.
  eapply hoare_bind; [apply hoare_isBroadcastable|]. intros b _.
  destruct b; [apply hoare_replaceFirstUse|apply hoare_failure].
Qed.

Lemma hoare_MultiBroadcastConverter fuel op operands :
  hoare I R (fun _ => True) (MultiBroadcastConverter fuel op operands).
Proof using R_refl R_trans H_create H_setOperand.
  unfold MultiBroadcastConverter.
  do 3 hoare_reads_then.
  eapply hoare_bind; [|intros _ _; apply hoare_ret; exact Logic.I].
  apply hoare_forUses. intros u. unfold multiBroadcastUse.
  destruct (_ =? _)%nat; [apply hoare_ret; exact Logic.I|].
  eapply hoare_bind; [apply hoare_isBroadcastable|]. intros b _.
  destruct b; [|apply hoare_failure].
  eapply hoare_bind with (Q := fun _ => True); [|intros; apply hoare_replaceFirstUse].
  unfold multiBroadcastAlign. hoare_reads_then.
  destruct (negb _); [|apply hoare_ret; exact Logic.I].
  hoare_reads_then. eapply hoare_weaken; [|apply H_create]. auto.
Qed.

(** The rules that only build operations need nothing of [setOperand]. *)
Lemma hoare_building_rule r fuel op operands :
  rewires r = false ->
  hoare I R (fun _ => True) (runRule infer r fuel op operands).
Proof using R_refl R_trans H_create H_setAttr.
  destruct r; cbn [rewires runRule]; try discriminate; intros _.
  - apply hoare_ConvConverter.
  - apply hoare_ReshapeConverter.
  - apply hoare_SoftmaxConverter.
  - apply hoare_DotConverter.
  - apply hoare_ReduceMeanConverter.
  - apply hoare_QuantizeLinearConverter.
Qed.

Lemma hoare_rule r fuel op operands :
  hoare I R (fun _ => True) (runRule infer r fuel op operands).
Proof using R_refl R_trans H_create H_setAttr H_setOperand.
  destruct (rewires r) eqn:E; [|apply hoare_building_rule; exact E].
  destruct r; try discriminate; cbn [runRule].
  - apply hoare_BroadcastConverter.
  - apply hoare_MultiBroadcastConverter.
Qed.

End Hoare.

(** ** Use lists agree with operand lists *)

Lemma usesOf_pushUse (s : Use) (w v : Value) (uses : gmap nat (list Use)) :
  default [] (pushUse s w uses !! v)
  = if decide (w = v) then s :: default [] (uses !! w) else default [] (uses !! v).
Proof. unfold pushUse. rewrite lookup_insert. destruct (decide (w = v)); reflexivity. Qed.

Lemma usesOf_dropUse (s : Use) (w v : Value) (uses : gmap nat (list Use)) :
  default [] (dropUse s w uses !! v)
  = if decide (w = v) then filter (fun x => x <> s) (default [] (uses !! w))
    else default [] (uses !! v).
Proof.
  unfold dropUse. rewrite lookup_alter. destruct (decide (w = v)); [|reflexivity].
  destruct (uses !! w); reflexivity.
Qed.

Lemma addUses_elem (n : nat) (l : list Value) :
  forall (k : nat) (uses : gmap nat (list Use)) (v : Value) (u : Use),
    u ∈ default [] (addUses n k l uses !! v) <->
    u ∈ default [] (uses !! v) \/ exists j, u = (n, (k + j)%nat) /\ l !! j = Some v.
Proof.
  induction l as [|x l IH]; intros k uses v u; cbn [addUses].
  - split; [auto|]. intros [H|(j & _ & H)]; [exact H|discriminate].
  - rewrite IH, usesOf_pushUse. split.
    + intros [H|(j & -> & Hj)].
      * destruct (decide (x = v)) as [->|]; [|auto].
        apply elem_of_cons in H as [->|H]; [|auto].
        right. exists 0%nat. rewrite Nat.add_0_r. auto.
      * right. exists (S j). split; [f_equal; lia|exact Hj].
    + intros [H|(j & -> & Hj)].
      * left. destruct (decide (x = v)) as [->|]; [|exact H].
        apply elem_of_cons. auto.
      * destruct j as [|j]; cbn in Hj.
        -- injection Hj as ->. left. rewrite decide_True by reflexivity.
           rewrite Nat.add_0_r. apply elem_of_cons. auto.
        -- right. exists j. split; [f_equal; lia|exact Hj].
Qed.

Lemma addUses_nodup (n : nat) (l : list Value) :
  forall (k : nat) (uses : gmap nat (list Use)),
    (forall v j, (k <= j)%nat -> (n, j) ∉ default [] (uses !! v)) ->
    (forall v, NoDup (default [] (uses !! v))) ->
    forall v, NoDup (default [] (addUses n k l uses !! v)).
Proof.
  induction l as [|x l IH]; intros k uses Hn Hd v; cbn [addUses]; [apply Hd|].
  apply IH.
  - intros w j Hj. rewrite usesOf_pushUse.
    destruct (decide (x = w)) as [->|]; [|apply Hn; lia].
    intros [E|H]%elem_of_cons; [injection E; lia|].
    revert H. apply Hn. lia.
  - intros w. rewrite usesOf_pushUse. destruct (decide (x = w)); [|apply Hd].
    apply NoDup_cons. split; [apply Hn; lia|apply Hd].
Qed.

Lemma slot_after_setOperand (ops : gmap nat Op) (o i : nat) (op : Op) (old v w : Value)
  (o2 i2 : nat) :
  ops !! o = Some op -> op_operands op !! i = Some old ->
  ((exists op2,
       <[o := mkOp (op_kind op) (<[i := v]> (op_operands op)) (op_attrs op)]> ops !! o2
       = Some op2 /\ op_operands op2 !! i2 = Some w) <->
   (if decide ((o2, i2) = (o, i)) then w = v
    else exists op2, ops !! o2 = Some op2 /\ op_operands op2 !! i2 = Some w)).
Proof.
  intros Hop Hold. pose proof (lookup_lt_Some _ _ _ Hold) as Hlt.
  destruct (decide ((o2, i2) = (o, i))) as [E|E].
  - injection E as -> ->. rewrite lookup_insert_eq. split.
    + intros (op2 & [= <-] & H). cbn in H.
      rewrite list_lookup_insert_eq in H by exact Hlt. congruence.
    + intros ->. eexists. split; [reflexivity|]. cbn.
      apply list_lookup_insert_eq. exact Hlt.
  - destruct (decide (o2 = o)) as [->|Ho].
    + rewrite lookup_insert_eq. assert (Hi : i2 <> i) by congruence. split.
      * intros (op2 & [= <-] & H). cbn in H.
        rewrite list_lookup_insert_ne in H by congruence. eauto.
      * intros (op2 & H1 & H2). assert (op2 = op) as -> by congruence.
        eexists. split; [reflexivity|]. cbn.
        rewrite list_lookup_insert_ne by congruence. exact H2.
    + rewrite lookup_insert_ne by congruence. reflexivity.
Qed.

Lemma uses_after_setOperand (uses : gmap nat (list Use)) (s u : Use) (old v w : Value) :
  (forall x, s ∈ default [] (uses !! x) <-> x = old) ->
  (u ∈ default [] (pushUse s v (dropUse s old uses) !! w) <->
   (if decide (u = s) then w = v else u ∈ default [] (uses !! w))).
Proof.
  intros Hs. rewrite usesOf_pushUse, !usesOf_dropUse.
  destruct (decide (u = s)) as [->|Hu], (decide (v = w)) as [->|Hv].
  - split; [reflexivity|]. intros _. apply elem_of_cons. auto.
  - destruct (decide (old = w)) as [->|Ho].
    + rewrite list_elem_of_filter. split; [tauto|congruence].
    + rewrite Hs. split; congruence.
  - rewrite elem_of_cons. destruct (decide (old = w)) as [->|Ho].
    + rewrite list_elem_of_filter. tauto.
    + tauto.
  - destruct (decide (old = w)) as [->|Ho]; [|reflexivity].
    rewrite list_elem_of_filter. tauto.
Qed.

Lemma graph_ok_addCreated (e : Created) (g : Graph) :
  graph_ok g -> c_id e = g_next g -> graph_ok (addCreated e g).
Proof.
  intros (Hf & Hu & Hd) He. destruct e as [n [kind operands attrs] tys ty inferred].
  cbn in He. subst n. set (n := g_next g).
  assert (Hnew : forall v j, (n, j) ∉ usesOf g v).
  { intros v j H. apply Hu in H as (op & Hop & _).
    pose proof (fresh_ok_op_lt _ _ _ Hf Hop). subst n. lia. }
  split; [apply addCreated_fresh; auto|]. split.
  - intros v o i. unfold usesOf, addCreated; cbn [g_uses g_ops c_id c_op op_operands].
    rewrite addUses_elem. fold (usesOf g v). rewrite (Hu v o i). split.
    + intros [(op & Hop & Hi)|(j & [= -> ->] & Hj)].
      * exists op. split; [|exact Hi]. rewrite lookup_insert_ne; [exact Hop|].
        pose proof (fresh_ok_op_lt _ _ _ Hf Hop). subst n. lia.
      * eexists. rewrite lookup_insert_eq. split; [reflexivity|exact Hj].
    + intros (op & Hop & Hi). destruct (decide (o = n)) as [->|Hne].
      * rewrite lookup_insert_eq in Hop. injection Hop as <-.
        right. exists i. auto.
      * rewrite lookup_insert_ne in Hop by congruence. left. eauto.
  - intros v. unfold usesOf, addCreated; cbn [g_uses c_id c_op op_operands].
    apply addUses_nodup; [intros w j _; apply Hnew|apply Hd].
Qed.

Lemma graph_ok_create inferred kind ty operands attrs :
  hoare graph_ok (fun _ _ => True) (fun _ : Value => True)
        (create inferred kind ty operands attrs).
Proof.
  intros g Hg. unfold create.
  destruct (mapM _ operands) as [tys|]; [|exact I].
  split; [|auto]. apply graph_ok_addCreated; [exact Hg|reflexivity].
Qed.

Lemma graph_ok_ext (g g' : Graph) :
  g_ops g' = g_ops g -> g_types g' = g_types g -> g_uses g' = g_uses g ->
  g_next g' = g_next g -> graph_ok g -> graph_ok g'.
Proof.
  destruct g, g'; cbn. intros -> -> -> -> H. exact H.
Qed.

Lemma graph_ok_emptyGraph : graph_ok emptyGraph.
Proof.
  split; [split; apply map_Forall_empty|]. split.
  - intros v o i. unfold usesOf; cbn. rewrite !lookup_empty. cbn. split.
    + intros H. inversion H.
    + intros (op & H & _). discriminate.
  - intros v. unfold usesOf; cbn. rewrite lookup_empty. constructor.
Qed.

Lemma graph_ok_addInput (ty : TensorType) :
  hoare graph_ok (fun _ _ => True) (fun _ : Value => True) (addInput ty).
Proof.
  intros g ([H1 H2] & Hu & Hd). cbn. split; [|auto]. split; [|split].
  - split; cbn [g_types g_ops g_next].
    + apply map_Forall_insert_2; [lia|].
      eapply map_Forall_impl; [exact H1|]. cbn; intros; lia.
    + eapply map_Forall_impl; [exact H2|]. cbn; intros; lia.
  - exact Hu.
  - exact Hd.
Qed.

Lemma graph_ok_addOp kind ty operands attrs :
  hoare graph_ok (fun _ _ => True) (fun _ : Value => True)
        (addOp kind ty operands attrs).
Proof.
  intros g Hg. cbn. split; [|auto].
  eapply graph_ok_ext;
    [| | | |apply (graph_ok_addCreated
                     (mkCreated (g_next g) (mkOp kind operands attrs) [] ty false) g
                     Hg eq_refl)]; reflexivity.
Qed.

Lemma graph_ok_graphOf {A} (Q : A -> Prop) (m : M A) :
  hoare graph_ok (fun _ _ => True) Q m -> graph_ok (graphOf m).
Proof.
  intros H. specialize (H emptyGraph graph_ok_emptyGraph). unfold graphOf.
  destruct (m emptyGraph); try apply graph_ok_emptyGraph; tauto.
Qed.

Lemma graph_ok_fanoutGraph kind attrs inShape outShape :
  graph_ok (fanoutGraph kind attrs inShape outShape).
Proof.
  apply (graph_ok_graphOf (fun _ => True)).
  repeat (eapply (hoare_bind _ _ (fun _ _ _ _ _ => Logic.I) (fun _ => True));
          [first [apply graph_ok_addInput | apply graph_ok_addOp]|intros ? _]).
  apply graph_ok_addOp.
Qed.

Lemma graph_ok_setAttr o name a :
  hoare graph_ok (fun _ _ => True) (fun _ : unit => True) (setAttr o name a).
Proof.
  intros g (Hf & Hu & Hd). unfold setAttr.
  destruct (g_ops g !! o) as [op|] eqn:Hop; [|exact I].
  split; [|auto]. split; [|split].
  - apply setOp_fresh; [exact Hf|]. exact (fresh_ok_op_lt _ _ _ Hf Hop).
  - intros v o2 i2. unfold usesOf, setOp; cbn [g_uses g_ops].
    fold (usesOf g v). rewrite (Hu v o2 i2).
    destruct (decide (o2 = o)) as [->|Hne].
    + rewrite lookup_insert_eq, Hop. split.
      * intros (op2 & [= <-] & H). eexists. split; [reflexivity|exact H].
      * intros (op2 & [= <-] & H). eexists. split; [reflexivity|exact H].
    + rewrite lookup_insert_ne by congruence. reflexivity.
  - exact Hd.
Qed.

Lemma graph_ok_setOperand o i v :
  hoare graph_ok (fun _ _ => True) (fun _ : unit => True) (setOperand o i v).
Proof.
  intros g (Hf & Hu & Hd). unfold setOperand.
  destruct (g_ops g !! o) as [op|] eqn:Hop; [|exact I].
  destruct (op_operands op !! i) as [old|] eqn:Hold; [|exact I].
  assert (Hs : forall x, (o, i) ∈ default [] (g_uses g !! x) <-> x = old).
  { intros x. fold (usesOf g x). rewrite (Hu x o i). split.
    - intros (op2 & H1 & H2). congruence.
    - intros ->. eauto. }
  split; [|auto]. split; [|split].
  - destruct Hf as [H1 H2]. split; cbn [g_types g_ops g_next]; [exact H1|].
    apply map_Forall_insert_2; [|exact H2]. exact (H2 _ _ Hop).
  - intros w o2 i2. unfold usesOf; cbn [g_uses g_ops].
    rewrite (uses_after_setOperand _ _ _ _ _ _ Hs).
    rewrite (slot_after_setOperand _ _ _ _ _ _ _ _ _ Hop Hold).
    pose proof (Hu w o2 i2) as Hw. unfold usesOf in Hw.
    repeat case_decide; try contradiction; [reflexivity|exact Hw].
  - intros w. unfold usesOf; cbn [g_uses].
    rewrite usesOf_pushUse, !usesOf_dropUse.
    assert (Hf' : forall x, NoDup (filter (fun y => y <> (o, i))
                                          (default [] (g_uses g !! x)))).
    { intros x. apply NoDup_filter. apply Hd. }
    destruct (decide (v = w)) as [->|Hv].
    + apply NoDup_cons. destruct (decide (old = w)) as [->|Ho].
      * split; [|apply Hf']. rewrite list_elem_of_filter. tauto.
      * split; [|apply Hd]. rewrite Hs. congruence.
    + destruct (decide (old = w)); [apply Hf'|apply Hd].
Qed.

(** Every rule, when it returns or reports a failure, leaves a well-formed
    graph well-formed: use lists and operand lists still agree, no slot is
    listed twice, and unused identifiers are still unused. *)
Theorem rules_keep_uses_consistent :
  forall (infer : OpKind -> list TensorType -> Attrs -> option (list Z))
         (rule : Rule) (fuel : nat) (op : nat) (operands : list Value)
         (g g' : Graph),
    graph_ok g ->
    (exists res, runRule infer rule fuel op operands g = Ok res g') \/
    (exists msg, runRule infer rule fuel op operands g = Failure msg g') ->
    graph_ok g'.
Proof.
  intros infer rule fuel op operands g g' Hg H.
  pose proof (hoare_rule graph_ok (fun _ _ => True) (fun _ => True) infer
                (fun _ => Logic.I) (fun _ _ _ _ _ => Logic.I)
                graph_ok_create (fun o name a _ => graph_ok_setAttr o name a)
                graph_ok_setOperand rule fuel op operands g Hg) as Hr.
  destruct H as [[res E] | [msg E]]; rewrite E in Hr; tauto.
Qed.

Lemma rules_keep_uses_consistent_witness :
  graph_ok broadcastGraph /\
  graph_ok (graphAfter (runRule exampleInfer RBroadcast 10 2 [0%nat] broadcastGraph)
                       broadcastGraph).
Proof.
  split; [apply graph_ok_fanoutGraph|].
  apply (rules_keep_uses_consistent exampleInfer RBroadcast 10 2 [0%nat]
           broadcastGraph);
    [apply graph_ok_fanoutGraph|right; eexists; vm_compute; reflexivity].
Defined.

(** ** What the rules leave alone *)

Lemma hoare_relax (I : Graph -> Prop) (R R' : Graph -> Graph -> Prop) {A}
  (Q : A -> Prop) (m : M A) :
  (forall g g', R g g' -> R' g g') -> hoare I R Q m -> hoare I R' Q m.
Proof.
  intros HR H g Hg. specialize (H g Hg). destruct (m g); intuition auto.
Qed.

Lemma old_ids_kept_refl w g : old_ids_kept w g g.
Proof. intros k _. auto. Qed.

Lemma old_ids_kept_trans w a b c :
  old_ids_kept w a b -> old_ids_kept w b c -> old_ids_kept w a c.
Proof.
  intros H1 H2 k Hk. destruct (H1 k Hk) as [<- <-]. exact (H2 k Hk).
Qed.

Lemma old_sigs_kept_refl w g : old_sigs_kept w g g.
Proof. intros k _. auto. Qed.

Lemma old_sigs_kept_trans w a b c :
  old_sigs_kept w a b -> old_sigs_kept w b c -> old_sigs_kept w a c.
Proof.
  intros H1 H2 k Hk. destruct (H1 k Hk) as [<- <-]. exact (H2 k Hk).
Qed.

Lemma old_ids_sigs w g g' : old_ids_kept w g g' -> old_sigs_kept w g g'.
Proof. intros H k Hk. destruct (H k Hk) as [-> ->]. auto. Qed.

Lemma kept_create w inferred kind ty operands attrs :
  hoare (above w) (old_ids_kept w) (fun a : Value => (w <= a)%nat)
        (create inferred kind ty operands attrs).
Proof.
  intros g [Hf Hw]. unfold create.
  destruct (mapM _ operands) as [tys|]; [|exact I].
  split; [split|split; [|exact Hw]].
  - apply addCreated_fresh; auto.
  - cbn. lia.
  - intros k Hk. unfold addCreated; cbn [g_ops g_types c_id c_op c_type].
    rewrite !lookup_insert_ne by lia. auto.
Qed.

Lemma kept_setAttr w o name a :
  (w <= o)%nat ->
  hoare (above w) (old_ids_kept w) (fun _ : unit => True) (setAttr o name a).
Proof.
  intros Ho g [Hf Hw]. unfold setAttr.
  destruct (g_ops g !! o) as [op|] eqn:Hop; [|exact I].
  split; [split|split; [|exact Logic.I]].
  - apply setOp_fresh; [exact Hf|]. exact (fresh_ok_op_lt _ _ _ Hf Hop).
  - exact Hw.
  - intros k Hk. unfold setOp; cbn [g_ops g_types].
    rewrite lookup_insert_ne by lia. auto.
Qed.

Lemma sigs_setAttr w o name a :
  (w <= o)%nat ->
  hoare (above w) (old_sigs_kept w) (fun _ : unit => True) (setAttr o name a).
Proof.
  intros Ho. eapply hoare_relax; [apply old_ids_sigs|apply kept_setAttr, Ho].
Qed.

Lemma sigs_setOperand w o i v :
  hoare (above w) (old_sigs_kept w) (fun _ : unit => True) (setOperand o i v).
Proof.
  intros g [Hf Hw]. unfold setOperand.
  destruct (g_ops g !! o) as [op|] eqn:Hop; [|exact I].
  destruct (op_operands op !! i) as [old|] eqn:Hold; [|exact I].
  split; [split|split; [|exact Logic.I]].
  - destruct Hf as [H1 H2]. split; cbn [g_types g_ops g_next]; [exact H1|].
    apply map_Forall_insert_2; [|exact H2]. exact (H2 _ _ Hop).
  - exact Hw.
  - intros k Hk. cbn [g_ops g_types]. split; [|reflexivity].
    destruct (decide (k = o)) as [->|Hne].
    + rewrite lookup_insert_eq, Hop. cbn. unfold opSig; cbn.
      rewrite length_insert. reflexivity.
    + rewrite lookup_insert_ne by congruence. reflexivity.
Qed.

(** The six rules that only build operations (convolution, reshape,
    softmax, dot, reduce-mean, quantize-linear) change nothing that the
    graph held before: every operation and every value type with an
    identifier the graph had already handed out is the same afterwards,
    whether the rule returned or reported a failure. *)
Theorem building_rules_leave_graph :
  forall (infer : OpKind -> list TensorType -> Attrs -> option (list Z))
         (rule : Rule) (fuel : nat) (op : nat) (operands : list Value)
         (g g' : Graph),
    fresh_ok g -> rewires rule = false ->
    (exists res, runRule infer rule fuel op operands g = Ok res g') \/
    (exists msg, runRule infer rule fuel op operands g = Failure msg g') ->
    forall k : nat, (k < g_next g)%nat ->
      g_ops g' !! k = g_ops g !! k /\ g_types g' !! k = g_types g !! k.
Proof.
  intros infer rule fuel op operands g g' Hg Hr H.
  set (w := g_next g).
  assert (Hw : above w g) by (split; [exact Hg|reflexivity]).
  pose proof (hoare_building_rule (above w) (old_ids_kept w)
                (fun a => (w <= a)%nat) infer
                (old_ids_kept_refl w) (old_ids_kept_trans w)
                (kept_create w) (kept_setAttr w)
                rule fuel op operands Hr g Hw) as Hh.
  destruct H as [[res E] | [msg E]]; rewrite E in Hh; tauto.
Qed.

Lemma building_rules_leave_graph_witness :
  g_ops (graphAfter (runRule exampleInfer RDot 0 2 [0%nat; 1%nat] batchedDot)
                    batchedDot) !! 2%nat
  = g_ops batchedDot !! 2%nat /\
  g_types (graphAfter (runRule exampleInfer RDot 0 2 [0%nat; 1%nat] batchedDot)
                      batchedDot) !! 2%nat
  = g_types batchedDot !! 2%nat.
Proof.
  apply (building_rules_leave_graph exampleInfer RDot 0 2 [0%nat; 1%nat]
           batchedDot);
    [apply (bool_decide_unpack _); vm_compute; exact I
    |reflexivity
    |left; eexists; vm_compute; reflexivity
    |vm_compute; lia].
Defined.

(** No rule, the two rewiring ones included, changes the kind, the
    attributes or the number of operands of an operation the graph already
    held, nor the type of a value it already held. *)
Theorem rules_keep_signatures :
  forall (infer : OpKind -> list TensorType -> Attrs -> option (list Z))
         (rule : Rule) (fuel : nat) (op : nat) (operands : list Value)
         (g g' : Graph),
    fresh_ok g ->
    (exists res, runRule infer rule fuel op operands g = Ok res g') \/
    (exists msg, runRule infer rule fuel op operands g = Failure msg g') ->
    forall k : nat, (k < g_next g)%nat ->
      opSig <$> g_ops g' !! k = opSig <$> g_ops g !! k /\
      g_types g' !! k = g_types g !! k.
Proof.
  intros infer rule fuel op operands g g' Hg H.
  set (w := g_next g).
  assert (Hw : above w g) by (split; [exact Hg|reflexivity]).
  pose proof (hoare_rule (above w) (old_sigs_kept w)
                (fun a => (w <= a)%nat) infer
                (old_sigs_kept_refl w) (old_sigs_kept_trans w)
                (fun inferred kind ty operands attrs =>
                   hoare_relax _ _ _ _ _ (old_ids_sigs w)
                     (kept_create w inferred kind ty operands attrs))
                (sigs_setAttr w) (sigs_setOperand w)
                rule fuel op operands g Hw) as Hh.
  destruct H as [[res E] | [msg E]]; rewrite E in Hh; tauto.
Qed.

Lemma rules_keep_signatures_witness :
  opSig <$> g_ops (graphAfter (runRule exampleInfer RMultiBroadcast 10 2 [0%nat]
                                 multiBroadcastFanout)
                              multiBroadcastFanout) !! 3%nat
  = opSig <$> g_ops multiBroadcastFanout !! 3%nat /\
  g_types (graphAfter (runRule exampleInfer RMultiBroadcast 10 2 [0%nat]
                         multiBroadcastFanout)
                      multiBroadcastFanout) !! 3%nat
  = g_types multiBroadcastFanout !! 3%nat.
Proof.
  apply (rules_keep_signatures exampleInfer RMultiBroadcast 10 2 [0%nat]
           multiBroadcastFanout);
    [apply (bool_decide_unpack _); vm_compute; exact I
    |right; eexists; vm_compute; reflexivity
    |vm_compute; lia].
Defined.

(** ** How the rules can end *)

Section FailsOnly.

Variable P : string -> Prop.
Variable T : Prop.

Lemma fo_ret {A} (a : A) : fails_only P T (ret a).
Proof using Type. intros g. exact Logic.I. Qed.

Lemma fo_crash {A} : fails_only P T (@crash A).
Proof using Type. intros g. exact Logic.I. Qed.

Lemma fo_failure {A} msg : P msg -> fails_only P T (@failure A msg).
Proof using Type. intros H g. exact H. Qed.

Lemma fo_bind {A B} (m : M A) (k : A -> M B) :
  fails_only P T m -> (forall a, fails_only P T (k a)) ->
  fails_only P T (bind m k).
Proof using Type.
  intros Hm Hk g. unfold bind. specialize (Hm g).
  destruct (m g) as [a g1| | |]; try exact Hm. apply Hk.
Qed.

Lemma fo_must {A} (o : option A) : fails_only P T (must o).
Proof using Type. destruct o; intros g; exact Logic.I. Qed.

Lemma fo_getType v : fails_only P T (getType v).
Proof using Type. intros g. unfold getType. apply fo_must. Qed.

Lemma fo_getOp o : fails_only P T (getOp o).
Proof using Type. intros g. unfold getOp. apply fo_must. Qed.

Lemma fo_getTypes vs : fails_only P T (getTypes vs).
Proof using Type. intros g. unfold getTypes. apply fo_must. Qed.

Lemma fo_firstUse v : fails_only P T (firstUse v).
Proof using Type. intros g. exact Logic.I. Qed.

Lemma fo_nextUse u : fails_only P T (nextUse u).
Proof using Type.
  intros g. unfold nextUse. destruct (g_ops g !! u.1) as [op|]; [|exact Logic.I].
  destruct (op_operands op !! u.2); exact Logic.I.
Qed.

Lemma fo_create inferred kind ty operands attrs :
  fails_only P T (create inferred kind ty operands attrs).
Proof using Type. intros g. unfold create. destruct (mapM _ _); exact Logic.I. Qed.

Lemma fo_setAttr o name a : fails_only P T (setAttr o name a).
Proof using Type. intros g. unfold setAttr. destruct (g_ops g !! o); exact Logic.I. Qed.

Lemma fo_setOperand o i v : fails_only P T (setOperand o i v).
Proof using Type.
  intros g. unfold setOperand. destruct (g_ops g !! o) as [op|]; [|exact Logic.I].
  destruct (op_operands op !! i); exact Logic.I.
Qed.

Lemma fo_liftExc {A} (e : Exc A) :
  (forall msg, e = Err msg -> P msg) -> fails_only P T (liftExc e).
Proof using Type.
  intros H g. destruct e; cbn; try exact Logic.I. apply H. reflexivity.
Qed.

Lemma fo_forUses (body : Use -> M unit) :
  T -> (forall u, fails_only P T (body u)) ->
  forall fuel it, fails_only P T (forUses fuel body it).
Proof using Type.
  intros HT Hb fuel. induction fuel as [|fuel IH]; intros [u|]; cbn [forUses];
    try apply fo_ret.
  - intros g. exact HT.
  - apply fo_bind; [apply Hb|]. intros _.
    apply fo_bind; [apply fo_nextUse|]. apply IH.
Qed.

End FailsOnly.

Ltac fo_step :=
  first [ apply fo_ret | apply fo_crash | apply fo_must | apply fo_getType
        | apply fo_getOp | apply fo_getTypes | apply fo_firstUse
        | apply fo_nextUse | apply fo_create | apply fo_setAttr
        | apply fo_setOperand
        | apply fo_bind; [|intros ?]
        | match goal with
          | |- fails_only _ _ (match ?x with _ => _ end) => destruct x
          end ].

Ltac fo_auto := cbv zeta; repeat fo_step.

Lemma dotFlatten_Err a b c msg : dotFlatten a b c = Err msg -> msg = dot_error.
Proof.
  unfold dotFlatten.
  destruct (batchSize c); [|discriminate].
  destruct (batchSize a); [|discriminate].
  destruct (batchSize b); [|discriminate].
  destruct (rowsCols a _); [|discriminate].
  destruct (rowsCols b _); [|discriminate].
  destruct (rowsCols c _); [|discriminate].
  cbn. destruct (negb _); [|discriminate].
  destruct (_ =? 1); congruence.
Qed.

(** A rule reports a failure only with its own message: the dot rule with
    the matmul-broadcast diagnostic, the reduce-mean rule with the
    single-axis diagnostic, the two broadcast rules without a message, and
    the convolution, reshape, softmax and quantize-linear rules never. *)
Theorem rule_failure_message :
  forall (infer : OpKind -> list TensorType -> Attrs -> option (list Z))
         (rule : Rule) (fuel : nat) (op : nat) (operands : list Value)
         (g g' : Graph) (msg : string),
    runRule infer rule fuel op operands g = Failure msg g' ->
    failure_of rule = Some msg.
Proof.
  intros infer rule fuel op operands g g' msg E.
  assert (H : fails_only (fun m => failure_of rule = Some m) True
                         (runRule infer rule fuel op operands)).
  { destruct rule; cbn [runRule failure_of].
    - unfold ConvConverter, getRank4TransposeOp, copyOptionalAttrs. fo_auto.
    - unfold BroadcastConverter, broadcastAlign. fo_auto.
      apply fo_forUses; [exact Logic.I|]. intros u.
      unfold broadcastUse, isBroadcastable, replaceFirstUse. fo_auto.
      apply fo_failure. reflexivity.
    - unfold MultiBroadcastConverter. fo_auto.
      apply fo_forUses; [exact Logic.I|]. intros u.
      unfold multiBroadcastUse, multiBroadcastAlign, isBroadcastable, replaceFirstUse.
      fo_auto. apply fo_failure. reflexivity.
    - unfold ReshapeConverter. fo_auto.
    - unfold SoftmaxConverter, createOpAndInfer. fo_auto.
    - unfold DotConverter, copyOptionalAttrs. fo_auto.
      apply fo_liftExc. intros m Hm. apply dotFlatten_Err in Hm. congruence.
    - unfold ReduceMeanConverter, createNumElementsTosaConst, createOpAndInfer.
      fo_auto. apply fo_failure. reflexivity.
    - unfold QuantizeLinearConverter, createOpAndInfer, createCastOp. fo_auto. }
  specialize (H g). rewrite E in H. exact H.
Qed.

Lemma rule_failure_message_witness :
  failure_of RReduceMean = Some reduce_mean_error.
Proof.
  apply (rule_failure_message exampleInfer RReduceMean 0 1 [0%nat]
           (reduceMeanGraph [i64Attr 0; i64Attr 1])
           (reduceMeanGraph [i64Attr 0; i64Attr 1]) reduce_mean_error).
  vm_compute. reflexivity.
Defined.

(** ** Where the shape computations leave their range *)

Lemma broadcastShape_None_iff R axis inShape :
  0 <= R < 2 ^ 32 -> - 2 ^ 63 <= axis < 2 ^ 63 ->
  (broadcastShape R axis inShape = None <-> inShape = [] \/ axis < 0 \/ R <= axis).
Proof.
  intros HR Ha. unfold broadcastShape. rewrite rank_replicate.
  destruct inShape as [|d rest].
  - cbn. tauto.
  - assert (Hat : at_ (d :: rest) 0 = Some d).
    { apply at_Some_iff. split; [unfold rank; cbn [length]; lia|reflexivity]. }
    rewrite Hat. cbn [mbind option_bind].
    destruct (Z_lt_dec axis 0) as [Hneg|Hpos].
    + rewrite u64_neg by lia.
      destruct (Z.ltb_spec (axis + 2 ^ 64) (Z.of_nat (Z.to_nat R))); [lia|].
      split; [auto|reflexivity].
    + rewrite u64_small by lia.
      destruct (Z.ltb_spec axis (Z.of_nat (Z.to_nat R))).
      * split; [discriminate|]. intros [?|[?|?]]; [discriminate|lia|lia].
      * split; [intros _; right; right; lia|reflexivity].
Qed.

Lemma broadcastAlign_unfold g op o input_t axis inShape outShape eIn eOut :
  g_ops g !! op = Some o ->
  intAttr "axis" (op_attrs o) = Some axis ->
  g_types g !! op = Some (TT outShape eOut) ->
  g_types g !! input_t = Some (TT inShape eIn) ->
  rank outShape < 2 ^ 32 ->
  broadcastAlign op input_t g
  = (if negb (rank outShape =? rank inShape)
     then (newShape <- must (broadcastShape (rank outShape) axis inShape) ;;
           create false TReshape (TT newShape eOut) [input_t]
                  (newShapeAttr newShape))
     else ret input_t) g.
Proof.
  intros Hop Hax Hout Hin HR. pose proof (rank_nonneg outShape).
  unfold broadcastAlign.
  erewrite bind_Ok by (apply getOp_Ok; exact Hop).
  erewrite bind_Ok by (apply must_Some; exact Hax).
  erewrite bind_Ok by (apply getType_Ok; exact Hout).
  erewrite bind_Ok by (apply getType_Ok; exact Hin).
  cbn [tshape telem]. rewrite u32_small by lia. reflexivity.
Qed.

(** The broadcast rule writes the extent at position [axis] of a vector of
    [outRank] ones: when the ranks differ, the rule aborts exactly if the
    input has no dimension, the axis is negative (it is not counted from
    the back) or the axis is not below the output's rank; in every other
    case it builds the reshape of the input to that vector, typed with the
    result's element type. *)
Theorem broadcast_axis_window :
  forall (g : Graph) (op : nat) (o : Op) (input_t : Value) (axis : Z)
         (inShape outShape : list Z) (eIn eOut : ElemType),
    g_ops g !! op = Some o ->
    intAttr "axis" (op_attrs o) = Some axis ->
    g_types g !! op = Some (TT outShape eOut) ->
    g_types g !! input_t = Some (TT inShape eIn) ->
    rank outShape < 2 ^ 32 ->
    - 2 ^ 63 <= axis < 2 ^ 63 ->
    rank outShape <> rank inShape ->
    (broadcastAlign op input_t g = Crash <->
     inShape = [] \/ axis < 0 \/ rank outShape <= axis) /\
    (~ (inShape = [] \/ axis < 0 \/ rank outShape <= axis) ->
     exists d,
       inShape !! 0%nat = Some d /\
       broadcastAlign op input_t g
       = Ok (g_next g)
            (addCreated
               (reshapeOp (g_next g) input_t (TT inShape eIn)
                  (<[Z.to_nat axis := d]> (replicate (Z.to_nat (rank outShape)) 1))
                  eOut) g)).
Proof.
  intros g op o input_t axis inShape outShape eIn eOut Hop Hax Hout Hin HR Ha Hne.
  pose proof (rank_nonneg outShape).
  rewrite (broadcastAlign_unfold _ _ _ _ _ _ _ _ _ Hop Hax Hout Hin HR).
  destruct (Z.eqb_spec (rank outShape) (rank inShape)); [contradiction|].
  cbn [negb]. split.
  - rewrite <- (broadcastShape_None_iff (rank outShape) axis inShape) by lia.
    destruct (broadcastShape (rank outShape) axis inShape) as [s|] eqn:E.
    + erewrite bind_Ok by reflexivity.
      rewrite (reshape_create_Ok _ _ _ _ _ Hin). split; discriminate.
    + split; reflexivity.
  - intros Hok. destruct inShape as [|d rest]; [tauto|].
    exists d. split; [reflexivity|].
    erewrite bind_Ok by (apply must_Some, broadcastShape_ok; [lia|lia|reflexivity]).
    apply reshape_create_Ok. exact Hin.
Qed.

Lemma broadcast_axis_window_witness :
  (broadcastAlign 2 0%nat negativeAxisGraph = Crash <->
   [4] = [] \/ -1 < 0 \/ rank [2; 4; 3; 3] <= -1) /\
  (exists d,
      [4] !! 0%nat = Some d /\
      broadcastAlign 2 0%nat broadcastGraph
      = Ok (g_next broadcastGraph)
           (addCreated
              (reshapeOp (g_next broadcastGraph) 0%nat (TT [4] F32)
                 (<[Z.to_nat 1 := d]> (replicate (Z.to_nat (rank [2; 4; 3; 3])) 1))
                 F32) broadcastGraph)).
Proof.
  split.
  - apply (broadcast_axis_window negativeAxisGraph 2%nat
             (mkOp MBroadcast [0%nat] [("axis"%string, i64Attr (-1))]) 0%nat (-1)
             [4] [2; 4; 3; 3] F32 F32);
      first [ reflexivity | unfold rank; simpl; lia ].
  - apply (broadcast_axis_window broadcastGraph 2%nat
             (mkOp MBroadcast [0%nat] [("axis"%string, i64Attr 1)]) 0%nat 1
             [4] [2; 4; 3; 3] F32 F32);
      first [ reflexivity
            | unfold rank; simpl; lia
            | intros [H|[H|H]];
              [discriminate | lia | unfold rank in H; simpl in H; lia] ].
Defined.

Lemma multiBroadcastShape_None_iff inShape R :
  0 <= R < 2 ^ 32 -> rank inShape < 2 ^ 31 ->
  (multiBroadcastShape inShape R = None <->
   R < rank inShape \/ 2 * rank inShape < R).
Proof.
  intros HR Hr. pose proof (rank_nonneg inShape).
  unfold multiBroadcastShape. rewrite (u32_small (rank inShape)) by lia.
  destruct (Z_lt_dec R (rank inShape)) as [Hlt|Hge].
  - assert (E : u32 (R - rank inShape) = R - rank inShape + 2 ^ 32).
    { unfold u32. symmetry. apply (Z.mod_unique _ _ (-1)); lia. }
    rewrite E, copy_loop_out_of_range by lia. cbn. tauto.
  - rewrite u32_small by lia.
    destruct (Z_le_dec (R - rank inShape) (rank inShape)) as [Hle|Hgt].
    + rewrite copy_loop_spec by lia. cbn. split; [discriminate|lia].
    + rewrite copy_loop_out_of_range by lia. cbn. split; [lia|reflexivity].
Qed.

(** The multi-broadcast rule copies the first [outRank - inRank] extents of
    the input (an unsigned difference): it aborts on an out-of-range read
    exactly if the consumer's rank is below the input's or above twice the
    input's.  For equal ranks it hands back the input and builds nothing;
    in the remaining window it builds the reshape of the input to those
    extents followed by ones, typed with the consumer's element type. *)
Theorem multibroadcast_rank_window :
  forall (g : Graph) (input_t : Value) (expandedOp : nat)
         (inShape outShape : list Z) (eIn eOut : ElemType),
    g_types g !! input_t = Some (TT inShape eIn) ->
    g_types g !! expandedOp = Some (TT outShape eOut) ->
    rank outShape < 2 ^ 32 -> rank inShape < 2 ^ 31 ->
    (multiBroadcastAlign input_t inShape expandedOp g = Crash <->
     rank outShape < rank inShape \/ 2 * rank inShape < rank outShape) /\
    (rank outShape = rank inShape ->
     multiBroadcastAlign input_t inShape expandedOp g = Ok input_t g) /\
    (rank inShape < rank outShape <= 2 * rank inShape ->
     multiBroadcastAlign input_t inShape expandedOp g
     = Ok (g_next g)
          (addCreated
             (reshapeOp (g_next g) input_t (TT inShape eIn)
                (take (length outShape - length inShape)%nat inShape
                 ++ replicate (length inShape) 1) eOut) g)).
Proof.
  intros g input_t expandedOp inShape outShape eIn eOut Hin Hout HR Hr.
  pose proof (rank_nonneg inShape). pose proof (rank_nonneg outShape).
  unfold multiBroadcastAlign.
  erewrite bind_Ok by (apply getType_Ok; exact Hout).
  cbn [tshape telem]. rewrite u32_small by lia.
  destruct (Z.eqb_spec (rank outShape) (rank inShape)) as [Heq|Hne]; cbn [negb].
  - split; [split; [discriminate|lia]|]. split; [reflexivity|lia].
  - split; [|split; [contradiction|]].
    + rewrite <- (multiBroadcastShape_None_iff inShape (rank outShape)) by lia.
      destruct (multiBroadcastShape inShape (rank outShape)) as [s|] eqn:E.
      * erewrite bind_Ok by reflexivity.
        rewrite (reshape_create_Ok _ _ _ _ _ Hin). split; discriminate.
      * split; reflexivity.
    + intros Hw.
      erewrite bind_Ok by (apply must_Some, multiBroadcastShape_ok; lia).
      replace (Z.to_nat (rank outShape - rank inShape))
        with (length outShape - length inShape)%nat by (unfold rank; lia).
      apply reshape_create_Ok. exact Hin.
Qed.

Lemma multibroadcast_rank_window_witness :
  (multiBroadcastAlign 0%nat [3] 3%nat
     (multiBroadcastGraph [3] [2; 3; 4; 4] F32 F32) = Crash <->
   rank [2; 3; 4; 4] < rank [3] \/ 2 * rank [3] < rank [2; 3; 4; 4]) /\
  multiBroadcastAlign 0%nat [2; 1; 1; 1] 3%nat
    (multiBroadcastGraph [2; 1; 1; 1] [2; 3; 4; 4] F32 F32)
  = Ok 0%nat (multiBroadcastGraph [2; 1; 1; 1] [2; 3; 4; 4] F32 F32) /\
  multiBroadcastAlign 0%nat [3; 1; 1] 3%nat
    (multiBroadcastGraph [3; 1; 1] [2; 3; 4; 4] F32 (IntTy 8))
  = Ok (g_next (multiBroadcastGraph [3; 1; 1] [2; 3; 4; 4] F32 (IntTy 8)))
       (addCreated
          (reshapeOp (g_next (multiBroadcastGraph [3; 1; 1] [2; 3; 4; 4] F32 (IntTy 8)))
             0%nat (TT [3; 1; 1] F32)
             (take (length [2; 3; 4; 4] - length [3; 1; 1])%nat [3; 1; 1]
              ++ replicate (length [3; 1; 1]) 1) (IntTy 8))
          (multiBroadcastGraph [3; 1; 1] [2; 3; 4; 4] F32 (IntTy 8))).
Proof.
  split; [|split].
  - apply (multibroadcast_rank_window (multiBroadcastGraph [3] [2; 3; 4; 4] F32 F32)
             0%nat 3%nat [3] [2; 3; 4; 4] F32 F32);
      first [ reflexivity | unfold rank; simpl; lia ].
  - apply (multibroadcast_rank_window
             (multiBroadcastGraph [2; 1; 1; 1] [2; 3; 4; 4] F32 F32)
             0%nat 3%nat [2; 1; 1; 1] [2; 3; 4; 4] F32 F32);
      first [ reflexivity | unfold rank; simpl; lia ].
  - apply (multibroadcast_rank_window
             (multiBroadcastGraph [3; 1; 1] [2; 3; 4; 4] F32 (IntTy 8))
             0%nat 3%nat [3; 1; 1] [2; 3; 4; 4] F32 (IntTy 8));
      first [ reflexivity | unfold rank; simpl; lia ].
Defined.

Lemma permuteShape_NCHW2NHWC s :
  permuteShape s NCHW2NHWC
  = match s with
    | n :: c :: h :: w :: _ => Some [n; h; w; c]
    | _ => None
    end.
Proof.
  unfold permuteShape, NCHW2NHWC.
  assert (E0 : at_ [0; 2; 3; 1] 0 = Some 0) by reflexivity.
  assert (E1 : at_ [0; 2; 3; 1] 1 = Some 2) by reflexivity.
  assert (E2 : at_ [0; 2; 3; 1] 2 = Some 3) by reflexivity.
  assert (E3 : at_ [0; 2; 3; 1] 3 = Some 1) by reflexivity.
  rewrite E0, E1, E2, E3. cbn [mbind option_bind].
  rewrite !u64_small by lia.
  destruct s as [|n [|c [|h [|w rest]]]]; try reflexivity.
  assert (Hr : 4 <= rank (n :: c :: h :: w :: rest))
    by (unfold rank; cbn [length]; lia).
  assert (A0 : at_ (n :: c :: h :: w :: rest) 0 = Some n)
    by (apply at_Some_iff; split; [lia|reflexivity]).
  assert (A1 : at_ (n :: c :: h :: w :: rest) 1 = Some c)
    by (apply at_Some_iff; split; [lia|reflexivity]).
  assert (A2 : at_ (n :: c :: h :: w :: rest) 2 = Some h)
    by (apply at_Some_iff; split; [lia|reflexivity]).
  assert (A3 : at_ (n :: c :: h :: w :: rest) 3 = Some w)
    by (apply at_Some_iff; split; [lia|reflexivity]).
  rewrite A0, A1, A2, A3. reflexivity.
Qed.

Lemma getRank4TransposeOp_Crash g input s e p :
  fresh_ok g ->
  g_types g !! input = Some (TT s e) ->
  permuteShape s p = None ->
  getRank4TransposeOp input p g = Crash.
Proof.
  intros Hf Hin Hp. unfold getRank4TransposeOp.
  erewrite bind_Ok by (apply create_Ok; reflexivity).
  erewrite bind_Ok
    by (apply getType_Ok; apply addCreated_type_old; [exact Hf|reflexivity|exact Hin]).
  cbn [tshape telem]. rewrite Hp. reflexivity.
Qed.

Lemma rank_below_four (s : list Z) :
  rank s < 4 -> permuteShape s NCHW2NHWC = None /\ at_ s 3 = None.
Proof.
  intros H. split; [|apply at_out_of_range; lia].
  rewrite permuteShape_NCHW2NHWC.
  destruct s as [|n [|c [|h [|w rest]]]]; try reflexivity.
  unfold rank in H. cbn [length] in H. lia.
Qed.

(** The convolution rule reads positions 0 to 3 of the shapes of the
    input, the filter and the result without looking at their ranks: a
    convolution any of whose three shapes has fewer than four dimensions
    aborts the rule. *)
Theorem conv_needs_rank_four :
  forall (g : Graph) (op : nat) (input_t filter_t : Value)
         (sI sF sO : list Z) (eI eF eOut : ElemType),
    fresh_ok g ->
    g_types g !! op = Some (TT sO eOut) ->
    g_types g !! input_t = Some (TT sI eI) ->
    g_types g !! filter_t = Some (TT sF eF) ->
    rank sI < 4 \/ rank sF < 4 \/ rank sO < 4 ->
    ConvConverter op [input_t; filter_t] g = Crash.
Proof.
  intros g op input_t filter_t sI sF sO eI eF eOut Hf Hout HI HF Hr.
  unfold ConvConverter.
  erewrite bind_Ok by reflexivity. erewrite bind_Ok by reflexivity.
  destruct (g_ops g !! op) as [o|] eqn:Hop;
    [|apply bind_Crash; unfold getOp; rewrite Hop; reflexivity].
  erewrite bind_Ok by (apply getOp_Ok; exact Hop).
  destruct (op_operands o !! 0%nat) as [in0|]; [|reflexivity].
  erewrite bind_Ok by reflexivity.
  destruct (g_types g !! in0) as [ty0|] eqn:Hty0;
    [|apply bind_Crash; unfold getType; rewrite Hty0; reflexivity].
  erewrite bind_Ok by (apply getType_Ok; exact Hty0).
  erewrite bind_Ok by (apply getType_Ok; exact Hout).
  destruct (permuteShape sI NCHW2NHWC) as [sI'|] eqn:EI.
  2:{ apply bind_Crash. eapply getRank4TransposeOp_Crash; eauto. }
  erewrite bind_Ok by (eapply getRank4TransposeOp_spec; eauto).
  set (g2 := addCreated _ (addCreated _ g)).
  assert (F2 : fresh_ok g2) by (subst g2; fresh_tac).
  assert (HF2 : g_types g2 !! filter_t = Some (TT sF eF)) by (subst g2; type_tac).
  destruct (permuteShape sF NCHW2NHWC) as [sF'|] eqn:EF.
  2:{ apply bind_Crash. eapply getRank4TransposeOp_Crash; eauto. }
  erewrite bind_Ok by (eapply getRank4TransposeOp_spec; eauto).
  cbn [tshape].
  assert (E3 : at_ sO 3 = None).
  { destruct Hr as [H|[H|H]].
    - apply rank_below_four in H as [H _]. congruence.
    - apply rank_below_four in H as [H _]. congruence.
    - apply rank_below_four in H as [_ H]. exact H. }
  destruct (at_ sO 0) as [o0|]; [|reflexivity]. erewrite bind_Ok by reflexivity.
  destruct (at_ sO 2) as [o2|]; [|reflexivity]. erewrite bind_Ok by reflexivity.
  rewrite E3. reflexivity.
Qed.

Lemma conv_needs_rank_four_witness :
  ConvConverter 2 [0%nat; 1%nat] conv1dGraph = Crash.
Proof.
  apply (conv_needs_rank_four conv1dGraph 2%nat 0%nat 1%nat
           [1; 3; 8] [4; 3; 3; 3] [1; 4; 6; 6] F32 F32 F32);
    first [ reflexivity
          | apply (bool_decide_unpack _); vm_compute; exact I
          | left; unfold rank; simpl; lia ].
Defined.

(** ** Reduce-mean and reshape at their edges *)

(** The reduce-mean rule reports its failure for every number of axes
    other than one, the empty list included; with one axis it reads the
    input's extent at that axis as it stands, so a negative axis or one
    not below the input's rank aborts the rule. *)
Theorem reduce_mean_axis_edges :
  forall (infer : OpKind -> list TensorType -> Attrs -> option (list Z))
         (g : Graph) (op : nat) (o : Op) (operands : list Value)
         (axes : list Attr),
    g_ops g !! op = Some o ->
    arrayAttr "axes" (op_attrs o) = Some axes ->
    (length axes <> 1%nat ->
     ReduceMeanConverter infer op operands g = Failure reduce_mean_error g) /\
    (forall t z input tyIn,
        axes = [AInt t z] ->
        op_operands o !! 0%nat = Some input ->
        g_types g !! input = Some tyIn ->
        - 2 ^ 63 <= z < 2 ^ 63 ->
        rank (tshape tyIn) < 2 ^ 63 ->
        z < 0 \/ rank (tshape tyIn) <= z ->
        ReduceMeanConverter infer op operands g = Crash).
Proof.
  intros infer g op o operands axes Hop Hax.
  split.
  - intros Hlen. unfold ReduceMeanConverter.
    erewrite bind_Ok by (apply getOp_Ok; exact Hop).
    erewrite bind_Ok by (apply must_Some; exact Hax).
    destruct (Nat.eqb_spec (length axes) 1); [contradiction|]. reflexivity.
  - intros t z input tyIn -> Hin Hty Hz Hr Hout.
    pose proof (rank_nonneg (tshape tyIn)).
    unfold ReduceMeanConverter.
    erewrite bind_Ok by (apply getOp_Ok; exact Hop).
    erewrite bind_Ok by (apply must_Some; exact Hax).
    cbn [length Nat.eqb negb lookup list_lookup].
    erewrite bind_Ok by reflexivity.
    erewrite bind_Ok by (apply must_Some; exact Hin).
    erewrite bind_Ok by (apply getType_Ok; exact Hty).
    apply bind_Crash. unfold createNumElementsTosaConst. cbn [snd].
    erewrite bind_Ok by (apply getType_Ok; exact Hty).
    apply bind_Crash. apply must_None. apply at_out_of_range.
    destruct (Z_lt_dec z 0).
    + rewrite u64_neg by lia. lia.
    + rewrite u64_small by lia. lia.
Qed.

Lemma reduce_mean_axis_edges_witness :
  ReduceMeanConverter exampleInfer 1 [0%nat] (reduceMeanGraph [])
  = Failure reduce_mean_error (reduceMeanGraph []) /\
  ReduceMeanConverter exampleInfer 1 [0%nat] (reduceMeanGraph [i64Attr (-1)])
  = Crash.
Proof.
  split.
  - apply (reduce_mean_axis_edges exampleInfer (reduceMeanGraph []) 1%nat
             (mkOp MReduceMean [0%nat] [("axes"%string, AArray [])]) [0%nat] []);
      first [reflexivity | simpl; lia].
  - apply (reduce_mean_axis_edges exampleInfer (reduceMeanGraph [i64Attr (-1)]) 1%nat
             (mkOp MReduceMean [0%nat] [("axes"%string, AArray [i64Attr (-1)])])
             [0%nat] [i64Attr (-1)] eq_refl eq_refl)
      with (t := IntTy 64) (z := -1) (input := 0%nat) (tyIn := f32 [2; 4]);
      first [ reflexivity | unfold rank; simpl; lia ].
Defined.

Lemma intsOf_Some (dims : list Attr) (zs : list Z) :
  intsOf dims = Some zs <->
  Forall2 (fun a z => exists t, a = AInt t z) dims zs.
Proof.
  revert zs. induction dims as [|a dims IH]; intros zs; cbn [intsOf].
  - split.
    + intros [= <-]. constructor.
    + intros H. inversion H. reflexivity.
  - split.
    + destruct a; try discriminate.
      destruct (intsOf dims) as [zs'|] eqn:E; [|discriminate].
      cbn. intros [= <-]. constructor; [eauto|]. apply IH. reflexivity.
    + intros H. inversion H as [|? z ? zs' [t ->] Hrest]; subst.
      apply IH in Hrest. rewrite Hrest. reflexivity.
Qed.

(** The reshape rule builds one target reshape of the adaptor's input,
    typed with the declared result type of the matched operation and
    carrying the integers of [dims] as its new shape; the two are not
    compared.  A [dims] entry that is not an integer aborts the rule. *)
Theorem reshape_lowering :
  forall (g : Graph) (op : nat) (o : Op) (operands : list Value) (input : Value)
         (dims : list Attr) (tyIn outputTy : TensorType),
    g_ops g !! op = Some o ->
    arrayAttr "dims" (op_attrs o) = Some dims ->
    operands !! 0%nat = Some input ->
    g_types g !! op = Some outputTy ->
    g_types g !! input = Some tyIn ->
    (forall newShape,
        Forall2 (fun a z => exists t, a = AInt t z) dims newShape ->
        ReshapeConverter op operands g
        = Ok (ReplaceWith (g_next g))
             (addCreated
                (mkCreated (g_next g)
                   (mkOp TReshape [input] (newShapeAttr newShape))
                   [tyIn] outputTy false) g)) /\
    (intsOf dims = None -> ReshapeConverter op operands g = Crash).
Proof.
  intros g op o operands input dims tyIn outputTy Hop Hdims Hin Hout Hty.
  assert (Hstart : ReshapeConverter op operands g
                   = (newShape <- must (intsOf dims) ;;
                      rop <- create false TReshape outputTy [input]
                                    (newShapeAttr newShape) ;;
                      ret (ReplaceWith rop)) g).
  { unfold ReshapeConverter.
    erewrite bind_Ok by (apply getOp_Ok; exact Hop).
    erewrite bind_Ok by (apply must_Some; exact Hdims).
    erewrite bind_Ok by (apply must_Some; exact Hin).
    erewrite bind_Ok by (apply getType_Ok; exact Hout). reflexivity. }
  rewrite Hstart. split.
  - intros newShape H. apply intsOf_Some in H.
    erewrite bind_Ok by (apply must_Some; exact H).
    erewrite bind_Ok by (apply create_Ok, mapM_types_1; exact Hty).
    reflexivity.
  - intros H. rewrite H. reflexivity.
Qed.

Lemma reshape_lowering_witness :
  ReshapeConverter 1 [0%nat] reshapeGraph
  = Ok (ReplaceWith (g_next reshapeGraph))
       (addCreated
          (mkCreated (g_next reshapeGraph)
             (mkOp TReshape [0%nat] (newShapeAttr [4; 3]))
             [f32 [2; 6]] (f32 [3; 4]) false) reshapeGraph).
Proof.
  apply (reshape_lowering reshapeGraph 1%nat
           (mkOp MReshape [0%nat] [("dims"%string, AArray [i64Attr 4; i64Attr 3])])
           [0%nat] 0%nat [i64Attr 4; i64Attr 3] (f32 [2; 6]) (f32 [3; 4])
           eq_refl eq_refl eq_refl eq_refl eq_refl).
  repeat constructor; eexists; reflexivity.
Defined.

(** ** Flattening keeps the number of elements *)

Lemma eq64_refl a : eq64 a a.
Proof. reflexivity. Qed.

Lemma eq64_trans a b c : eq64 a b -> eq64 b c -> eq64 a c.
Proof. unfold eq64. congruence. Qed.

Lemma eq64_mul a a' b b' : eq64 a a' -> eq64 b b' -> eq64 (a * b) (a' * b').
Proof.
  unfold eq64. intros Ha Hb.
  rewrite (Zmult_mod a b), (Zmult_mod a' b'), Ha, Hb. reflexivity.
Qed.

Lemma s64_eq64 x : eq64 (s64 x) x.
Proof.
  unfold eq64, s64.
  rewrite Zminus_mod, Zmod_mod, <- Zminus_mod. f_equal. lia.
Qed.

Lemma numElements_app s t : numElements (s ++ t) = numElements s * numElements t.
Proof.
  induction s as [|d s IH]; cbn [app numElements fold_right].
  - fold (numElements t). lia.
  - fold (numElements (s ++ t)) (numElements s). rewrite IH. lia.
Qed.

Lemma batch_loop_prod rest : forall bound i acc r,
  batch_loop bound i acc rest = Some r ->
  eq64 r (acc * numElements (take (Z.to_nat (bound - i)) rest)).
Proof.
  induction rest as [|d rest IH]; intros bound i acc r; cbn [batch_loop];
    destruct (Z.ltb_spec i bound) as [Hlt|Hge]; try discriminate.
  - intros [= <-]. rewrite take_nil. cbn. rewrite Z.mul_1_r. apply eq64_refl.
  - intros H. apply IH in H.
    replace (Z.to_nat (bound - i)) with (S (Z.to_nat (bound - (i + 1)))) by lia.
    cbn [take numElements fold_right].
    fold (numElements (take (Z.to_nat (bound - (i + 1))) rest)).
    eapply eq64_trans; [exact H|].
    rewrite Z.mul_assoc. apply eq64_mul; [apply s64_eq64|apply eq64_refl].
  - intros [= <-]. replace (Z.to_nat (bound - i)) with 0%nat by lia.
    cbn. rewrite Z.mul_1_r. apply eq64_refl.
Qed.

(** What the batch size and the two trailing extents, read at the shape's
    own rank, multiply to. *)
Lemma flatten_parts dims b r c :
  rank dims < 2 ^ 64 ->
  batchSize dims = Some b -> rowsCols dims (rank dims) = Some (r, c) ->
  eq64 (b * (r * c)) (numElements dims).
Proof.
  intros Hr Hb Hrc.
  assert (H2 : 2 <= rank dims).
  { apply batchSize_is_Some; [exact Hr|]. rewrite Hb. eauto. }
  apply rowsCols_Some in Hrc as (_ & Er & Ec); [|lia].
  unfold batchSize in Hb. rewrite u64_small in Hb by lia.
  apply batch_loop_prod in Hb. rewrite Z.sub_0_r, Z.mul_1_l in Hb.
  set (n := Z.to_nat (rank dims - 2)) in *.
  replace (Z.to_nat (rank dims - 1)) with (S n) in Ec by (subst n; lia).
  assert (Hlen : length dims = S (S n)) by (subst n; unfold rank in *; lia).
  assert (Hsplit : dims = take n dims ++ [r; c]).
  { rewrite <- (take_drop n dims) at 1. f_equal.
    rewrite (drop_S _ _ _ Er), (drop_S _ _ _ Ec). f_equal. f_equal.
    apply drop_ge. lia. }
  replace (numElements dims) with (numElements (take n dims ++ [r; c]))
    by (rewrite <- Hsplit; reflexivity).
  rewrite numElements_app.
  apply eq64_mul; [exact Hb|].
  cbn. rewrite Z.mul_1_r. apply eq64_refl.
Qed.

(** Whenever the flattening of a batched dot goes through, each of the
    three-dimensional shapes it computes holds as many elements (as a
    64-bit quantity) as the shape it flattens, for the output and for every
    operand whose rank is the output's. *)
Theorem dot_flatten_keeps_count :
  forall (orgDimsA orgDimsB orgOutDims : list Z) (d : DotDims),
    rank orgOutDims < 2 ^ 64 ->
    dotFlatten orgDimsA orgDimsB orgOutDims = Val d ->
    (rank orgDimsA = rank orgOutDims ->
     eq64 (numElements (newDimsA d)) (numElements orgDimsA)) /\
    (rank orgDimsB = rank orgOutDims ->
     eq64 (numElements (newDimsB d)) (numElements orgDimsB)) /\
    eq64 (numElements (newDimsOut d)) (numElements orgOutDims).
Proof.
  intros A B O d HO. unfold dotFlatten.
  destruct (batchSize O) as [bC|] eqn:EbC; [|discriminate].
  destruct (batchSize A) as [bA|] eqn:EbA; [|discriminate].
  destruct (batchSize B) as [bB|] eqn:EbB; [|discriminate].
  destruct (rowsCols A (rank O)) as [[rA cA]|] eqn:EA; [|discriminate].
  destruct (rowsCols B (rank O)) as [[rB cB]|] eqn:EB; [|discriminate].
  destruct (rowsCols O (rank O)) as [[rO cO]|] eqn:EO; [|discriminate].
  cbn [exc_bind of_opt fst snd].
  assert (HA : rank A = rank O -> eq64 (bA * (rA * cA)) (numElements A)).
  { intros E. rewrite <- E in EA. apply flatten_parts; [lia|assumption..]. }
  assert (HB : rank B = rank O -> eq64 (bB * (rB * cB)) (numElements B)).
  { intros E. rewrite <- E in EB. apply flatten_parts; [lia|assumption..]. }
  assert (HC : eq64 (bC * (rO * cO)) (numElements O)).
  { apply flatten_parts; assumption. }
  assert (Hfold : forall b r c, eq64 (1 * (s64 (r * b) * (c * 1))) (b * (r * c))).
  { intros b r c. rewrite Z.mul_1_l, Z.mul_1_r.
    replace (b * (r * c)) with ((r * b) * c) by lia.
    apply eq64_mul; [apply s64_eq64|apply eq64_refl]. }
  destruct (negb (bA =? bB)).
  - destruct (bB =? 1); [|discriminate].
    intros [= <-]. cbn [newDimsA newDimsB newDimsOut numElements fold_right].
    repeat split.
    + intros E. eapply eq64_trans; [apply Hfold|auto].
    + intros E. rewrite Z.mul_1_r. auto.
    + eapply eq64_trans; [apply Hfold|auto].
  - intros [= <-]. cbn [newDimsA newDimsB newDimsOut numElements fold_right].
    rewrite !Z.mul_1_r. auto.
Qed.

Lemma dot_flatten_keeps_count_witness :
  (rank [2; 3; 4; 5] = rank [2; 3; 4; 6] ->
   eq64 (numElements [6; 4; 5]) (numElements [2; 3; 4; 5])) /\
  (rank [2; 3; 5; 6] = rank [2; 3; 4; 6] ->
   eq64 (numElements [6; 5; 6]) (numElements [2; 3; 5; 6])) /\
  eq64 (numElements [6; 4; 6]) (numElements [2; 3; 4; 6]).
Proof.
  apply (dot_flatten_keeps_count [2; 3; 4; 5] [2; 3; 5; 6] [2; 3; 4; 6]
           (mkDotDims [6; 4; 5] [6; 5; 6] [6; 4; 6]));
    first [ reflexivity | unfold rank; simpl; lia ].
Defined.

(** ** The walk over the uses stops after the newest one *)

Lemma filter_other (u : Use) (l : list Use) :
  u ∉ l -> filter (fun x => x <> u) l = l.
Proof.
  induction l as [|y l IH]; intros H; [reflexivity|].
  apply not_elem_of_cons in H as [H1 H2].
  rewrite filter_cons_True by congruence. rewrite IH by exact H2. reflexivity.
Qed.

Lemma isBroadcastable_second g c op kc x ac :
  g_ops g !! c = Some (mkOp kc [x; op] ac) ->
  isBroadcastable c op g = Ok true g.
Proof.
  intros Hc. unfold isBroadcastable.
  erewrite bind_Ok by (apply getOp_Ok; exact Hc).
  cbn [op_operands length Nat.eqb negb].
  erewrite bind_Ok by reflexivity.
  rewrite Nat.eqb_refl. reflexivity.
Qed.

Lemma usesOf_addCreated_other e g input v :
  op_operands (c_op e) = [input] -> v <> input ->
  usesOf (addCreated e g) v = usesOf g v.
Proof.
  intros He Hv. unfold usesOf, addCreated; cbn [g_uses]. rewrite He.
  cbn [addUses]. rewrite usesOf_pushUse.
  destruct (decide (input = v)); [congruence|reflexivity].
Qed.

(** One step of the walk at a consumer holding the value in its second
    slot, with a replacement no operation uses yet. *)
Lemma replace_and_advance g c op kc x ac n rest :
  g_ops g !! c = Some (mkOp kc [x; op] ac) ->
  x <> op -> n <> op -> usesOf g n = [] ->
  usesOf g op = (c, 1%nat) :: rest -> (c, 1%nat) ∉ rest ->
  replaceFirstUse c op n g = Ok tt (redirect c 1 n g) /\
  nextUse (c, 1%nat) (redirect c 1 n g) = Ok None (redirect c 1 n g) /\
  operandsOf (redirect c 1 n g) c = Some [x; n] /\
  usesOf (redirect c 1 n g) n = [(c, 1%nat)] /\
  usesOf (redirect c 1 n g) op = rest.
Proof.
  intros Hc Hx Hn Hun Huop Hnodup.
  assert (Hset : setOperand c 1 n g
                 = Ok tt {| g_ops := <[c := mkOp kc [x; n] ac]> (g_ops g);
                            g_types := g_types g;
                            g_uses := pushUse (c, 1%nat) n
                                        (dropUse (c, 1%nat) op (g_uses g));
                            g_next := g_next g; g_log := g_log g |}).
  { unfold setOperand. rewrite Hc. reflexivity. }
  unfold redirect. rewrite Hset. cbn [graphAfter].
  assert (Hn' : usesOf {| g_ops := <[c := mkOp kc [x; n] ac]> (g_ops g);
                          g_types := g_types g;
                          g_uses := pushUse (c, 1%nat) n
                                      (dropUse (c, 1%nat) op (g_uses g));
                          g_next := g_next g; g_log := g_log g |} n
                = [(c, 1%nat)]).
  { unfold usesOf; cbn [g_uses]. rewrite usesOf_pushUse, usesOf_dropUse.
    fold (usesOf g n). rewrite Hun.
    repeat case_decide; first [reflexivity | congruence]. }
  split; [|split; [|split; [|split]]].
  - unfold replaceFirstUse.
    erewrite bind_Ok by (apply getOp_Ok; exact Hc).
    cbn [op_operands findOperand].
    destruct (Nat.eqb_spec x op); [contradiction|].
    rewrite Nat.eqb_refl. exact Hset.
  - unfold nextUse. cbn [fst snd g_ops]. rewrite lookup_insert_eq.
    cbn [op_operands lookup list_lookup]. rewrite Hn'.
    cbn [succ_in]. case_decide; [reflexivity|congruence].
  - unfold operandsOf; cbn [g_ops]. rewrite lookup_insert_eq. reflexivity.
  - exact Hn'.
  - unfold usesOf; cbn [g_uses]. rewrite usesOf_pushUse, !usesOf_dropUse.
    fold (usesOf g op). rewrite Huop.
    rewrite filter_cons_False by (intros H; apply H; reflexivity).
    rewrite (filter_other _ _ Hnodup).
    repeat case_decide; first [reflexivity | congruence].
Qed.

Lemma forUses_single fuel (body : Use -> M unit) u g g2 :
  body u g = Ok tt g2 -> nextUse u g2 = Ok None g2 ->
  forUses (S fuel) body (Some u) g = Ok tt g2.
Proof.
  intros Hb Hn. cbn [forUses].
  erewrite bind_Ok by exact Hb. erewrite bind_Ok by exact Hn.
  destruct fuel; reflexivity.
Qed.

(** The facts about the graph with the new reshape that the walk needs. *)
Lemma after_reshape g op c cop input_t tyIn tyOp newShape e rest :
  graph_ok g ->
  g_types g !! input_t = Some tyIn -> g_types g !! op = Some tyOp ->
  input_t <> op ->
  g_ops g !! c = Some cop ->
  usesOf g op = (c, 1%nat) :: rest ->
  usesOf g (g_next g) = [] ->
  g_ops (addCreated (reshapeOp (g_next g) input_t tyIn newShape e) g) !! c = Some cop /\
  g_next g <> op /\
  usesOf (addCreated (reshapeOp (g_next g) input_t tyIn newShape e) g) (g_next g) = [] /\
  usesOf (addCreated (reshapeOp (g_next g) input_t tyIn newShape e) g) op
  = (c, 1%nat) :: rest /\
  (c, 1%nat) ∉ rest.
Proof.
  intros (Hf & Hu & Hd) Hin Hop Hne Hc Huop Hfresh.
  pose proof (fresh_ok_lt _ _ _ Hf Hin). pose proof (fresh_ok_lt _ _ _ Hf Hop).
  split; [apply addCreated_op_old; [exact Hf|reflexivity|exact Hc]|].
  split; [lia|]. split; [|split].
  - rewrite (usesOf_addCreated_other _ _ input_t) by (reflexivity || lia).
    exact Hfresh.
  - rewrite (usesOf_addCreated_other _ _ input_t) by (reflexivity || congruence).
    exact Huop.
  - specialize (Hd op). rewrite Huop in Hd. apply NoDup_cons in Hd. tauto.
Qed.

(** The broadcast rule redirects only the newest use of the result.  With
    that use in the second slot of a binary consumer and the ranks of
    input and result different, the rule builds the reshape, redirects
    the slot, and the walk ends there: the slot is now linked into the use
    list of the reshape, which holds nothing else.  The rule returns
    success with every older use of the result still in place. *)
Theorem broadcast_rewires_newest_use :
  forall (g : Graph) (op : nat) (o : Op) (operands : list Value)
         (input_t : Value) (axis d : Z)
         (inShape outShape : list Z) (eIn eOut : ElemType)
         (c : nat) (kc : OpKind) (x : Value) (ac : Attrs) (rest : list Use)
         (k : nat),
    graph_ok g ->
    g_ops g !! op = Some o ->
    intAttr "axis" (op_attrs o) = Some axis ->
    operands !! 0%nat = Some input_t ->
    g_types g !! op = Some (TT outShape eOut) ->
    g_types g !! input_t = Some (TT inShape eIn) ->
    rank outShape < 2 ^ 32 ->
    rank outShape <> rank inShape ->
    inShape !! 0%nat = Some d ->
    0 <= axis < rank outShape ->
    input_t <> op ->
    usesOf g op = (c, 1%nat) :: rest ->
    g_ops g !! c = Some (mkOp kc [x; op] ac) ->
    x <> op ->
    usesOf g (g_next g) = [] ->
    BroadcastConverter (S k) op operands g
    = Ok Erase
         (redirect c 1 (g_next g)
            (addCreated
               (reshapeOp (g_next g) input_t (TT inShape eIn)
                  (<[Z.to_nat axis := d]> (replicate (Z.to_nat (rank outShape)) 1))
                  eOut) g)) /\
    operandsOf
      (redirect c 1 (g_next g)
         (addCreated
            (reshapeOp (g_next g) input_t (TT inShape eIn)
               (<[Z.to_nat axis := d]> (replicate (Z.to_nat (rank outShape)) 1))
               eOut) g)) c = Some [x; g_next g] /\
    usesOf
      (redirect c 1 (g_next g)
         (addCreated
            (reshapeOp (g_next g) input_t (TT inShape eIn)
               (<[Z.to_nat axis := d]> (replicate (Z.to_nat (rank outShape)) 1))
               eOut) g)) op = rest.
Proof.
  intros g op o operands input_t axis d inShape outShape eIn eOut c kc x ac rest k
         Hg Hop Hax Hopnd Hout Hin HR Hne Hd Ha Hio Huop Hc Hx Hfresh.
  set (newShape := <[Z.to_nat axis := d]> (replicate (Z.to_nat (rank outShape)) 1)).
  set (g1 := addCreated (reshapeOp (g_next g) input_t (TT inShape eIn) newShape eOut) g).
  destruct (after_reshape g op c _ input_t (TT inShape eIn) _ newShape eOut rest
              Hg Hin Hout Hio Hc Huop Hfresh) as (Hc1 & Hn & Hun & Huop1 & Hnd).
  fold g1 in Hc1, Hun, Huop1.
  destruct (replace_and_advance g1 c op kc x ac (g_next g) rest
              Hc1 Hx Hn Hun Huop1 Hnd) as (Hrep & Hnext & Hopnds & _ & Hrest).
  split; [|split; [exact Hopnds|exact Hrest]].
  unfold BroadcastConverter.
  erewrite bind_Ok by (apply must_Some; exact Hopnd).
  erewrite bind_Ok.
  2:{ rewrite (broadcastAlign_unfold _ _ _ _ _ _ _ _ _ Hop Hax Hout Hin HR).
      destruct (Z.eqb_spec (rank outShape) (rank inShape)); [contradiction|].
      cbn [negb].
      erewrite bind_Ok by (apply must_Some, broadcastShape_ok; [lia|lia|exact Hd]).
      apply reshape_create_Ok. exact Hin. }
  fold newShape g1.
  erewrite bind_Ok by reflexivity. rewrite Huop1. cbn [head].
  erewrite bind_Ok; [reflexivity|].
  apply forUses_single; [|exact Hnext].
  unfold broadcastUse. cbn [fst].
  erewrite bind_Ok by (eapply isBroadcastable_second; exact Hc1).
  exact Hrep.
Qed.

Lemma graph_ok_addConsumers n ty X b :
  hoare graph_ok (fun _ _ => True) (fun _ : unit => True) (addConsumers n ty X b).
Proof.
  induction n as [|n IH]; cbn [addConsumers].
  - apply hoare_ret; auto.
  - eapply (hoare_bind _ _ (fun _ _ _ _ _ => Logic.I) (fun _ => True));
      [apply graph_ok_addOp|intros _ _; exact IH].
Qed.

Lemma graph_ok_secondSlotGraph kind attrs inShape outShape n :
  graph_ok (secondSlotGraph kind attrs inShape outShape n).
Proof.
  apply (graph_ok_graphOf (fun _ => True)).
  repeat (eapply (hoare_bind _ _ (fun _ _ _ _ _ => Logic.I) (fun _ => True));
          [first [apply graph_ok_addInput | apply graph_ok_addOp]|intros ? _]).
  apply graph_ok_addConsumers.
Qed.

Lemma broadcast_rewires_newest_use_witness :
  BroadcastConverter 1 2 [0%nat]
    (secondSlotGraph MBroadcast [("axis"%string, i64Attr 1)] [4] [2; 4; 3; 3] 2)
  = Ok Erase
       (redirect 4 1 5%nat
          (addCreated (reshapeOp 5 0%nat (f32 [4]) [1; 4; 1; 1] F32)
             (secondSlotGraph MBroadcast [("axis"%string, i64Attr 1)]
                [4] [2; 4; 3; 3] 2))) /\
  operandsOf
    (redirect 4 1 5%nat
       (addCreated (reshapeOp 5 0%nat (f32 [4]) [1; 4; 1; 1] F32)
          (secondSlotGraph MBroadcast [("axis"%string, i64Attr 1)]
             [4] [2; 4; 3; 3] 2))) 4 = Some [1%nat; 5%nat] /\
  usesOf
    (redirect 4 1 5%nat
       (addCreated (reshapeOp 5 0%nat (f32 [4]) [1; 4; 1; 1] F32)
          (secondSlotGraph MBroadcast [("axis"%string, i64Attr 1)]
             [4] [2; 4; 3; 3] 2))) 2%nat = [(3%nat, 1%nat)].
Proof.
  apply (broadcast_rewires_newest_use
           (secondSlotGraph MBroadcast [("axis"%string, i64Attr 1)] [4] [2; 4; 3; 3] 2)
           2%nat (mkOp MBroadcast [0%nat] [("axis"%string, i64Attr 1)]) [0%nat]
           0%nat 1 4 [4] [2; 4; 3; 3] F32 F32
           4%nat (OtherOp "add") 1%nat [] [(3%nat, 1%nat)] 0%nat);
    first [ apply graph_ok_secondSlotGraph
          | reflexivity
          | unfold rank; simpl; lia
          | discriminate ].
Defined.

(** The multi-broadcast rule behaves the same way when the newest
    consumer's rank is above the input's: it builds the reshape for that
    consumer, redirects its second slot, and the walk ends in the use list
    of the new reshape; older uses of the result stay as they were while
    the rule returns success. *)
Theorem multibroadcast_rewires_newest_use :
  forall (g : Graph) (op : nat) (operands : list Value)
         (input_t : Value) (inShape outShape : list Z) (eIn eOut : ElemType)
         (tyOp : TensorType)
         (c : nat) (kc : OpKind) (x : Value) (ac : Attrs) (rest : list Use)
         (k : nat),
    graph_ok g ->
    operands !! 0%nat = Some input_t ->
    g_types g !! op = Some tyOp ->
    g_types g !! input_t = Some (TT inShape eIn) ->
    g_types g !! c = Some (TT outShape eOut) ->
    rank inShape < rank outShape <= 2 * rank inShape ->
    rank outShape < 2 ^ 32 ->
    input_t <> op -> c <> op ->
    usesOf g op = (c, 1%nat) :: rest ->
    g_ops g !! c = Some (mkOp kc [x; op] ac) ->
    x <> op ->
    usesOf g (g_next g) = [] ->
    MultiBroadcastConverter (S k) op operands g
    = Ok Erase
         (redirect c 1 (g_next g)
            (addCreated
               (reshapeOp (g_next g) input_t (TT inShape eIn)
                  (take (length outShape - length inShape)%nat inShape
                   ++ replicate (length inShape) 1) eOut) g)) /\
    operandsOf
      (redirect c 1 (g_next g)
         (addCreated
            (reshapeOp (g_next g) input_t (TT inShape eIn)
               (take (length outShape - length inShape)%nat inShape
                ++ replicate (length inShape) 1) eOut) g)) c
    = Some [x; g_next g] /\
    usesOf
      (redirect c 1 (g_next g)
         (addCreated
            (reshapeOp (g_next g) input_t (TT inShape eIn)
               (take (length outShape - length inShape)%nat inShape
                ++ replicate (length inShape) 1) eOut) g)) op = rest.
Proof.
  intros g op operands input_t inShape outShape eIn eOut tyOp c kc x ac rest k
         Hg Hopnd Hop Hin Hcty Hr HR Hio Hco Huop Hc Hx Hfresh.
  pose proof (rank_nonneg inShape).
  set (newShape := take (length outShape - length inShape)%nat inShape
                   ++ replicate (length inShape) 1).
  set (g1 := addCreated (reshapeOp (g_next g) input_t (TT inShape eIn) newShape eOut) g).
  destruct (after_reshape g op c _ input_t (TT inShape eIn) _ newShape eOut rest
              Hg Hin Hop Hio Hc Huop Hfresh) as (Hc1 & Hn & Hun & Huop1 & Hnd).
  fold g1 in Hc1, Hun, Huop1.
  destruct (replace_and_advance g1 c op kc x ac (g_next g) rest
              Hc1 Hx Hn Hun Huop1 Hnd) as (Hrep & Hnext & Hopnds & _ & Hrest).
  split; [|split; [exact Hopnds|exact Hrest]].
  unfold MultiBroadcastConverter.
  erewrite bind_Ok by (apply must_Some; exact Hopnd).
  erewrite bind_Ok by (apply getType_Ok; exact Hin).
  cbn [tshape].
  erewrite bind_Ok by reflexivity. rewrite Huop. cbn [head].
  erewrite bind_Ok; [reflexivity|].
  apply forUses_single; [|exact Hnext].
  unfold multiBroadcastUse. cbn [fst].
  destruct (Nat.eqb_spec c op); [contradiction|].
  erewrite bind_Ok by (eapply isBroadcastable_second; exact Hc).
  cbv beta iota.
  erewrite bind_Ok; [exact Hrep|].
  unfold multiBroadcastAlign.
  erewrite bind_Ok by (apply getType_Ok; exact Hcty).
  cbn [tshape telem]. rewrite u32_small by lia.
  destruct (Z.eqb_spec (rank outShape) (rank inShape)); [lia|]. cbn [negb].
  erewrite bind_Ok by (apply must_Some, multiBroadcastShape_ok; lia).
  replace (Z.to_nat (rank outShape - rank inShape))
    with (length outShape - length inShape)%nat by (unfold rank; lia).
  apply reshape_create_Ok. exact Hin.
Qed.

Lemma multibroadcast_rewires_newest_use_witness :
  MultiBroadcastConverter 1 2 [0%nat]
    (secondSlotGraph MMultiBroadcast [] [3; 1; 1] [2; 3; 4; 4] 2)
  = Ok Erase
       (redirect 4 1 5%nat
          (addCreated (reshapeOp 5 0%nat (f32 [3; 1; 1]) [3; 1; 1; 1] F32)
             (secondSlotGraph MMultiBroadcast [] [3; 1; 1] [2; 3; 4; 4] 2))) /\
  operandsOf
    (redirect 4 1 5%nat
       (addCreated (reshapeOp 5 0%nat (f32 [3; 1; 1]) [3; 1; 1; 1] F32)
          (secondSlotGraph MMultiBroadcast [] [3; 1; 1] [2; 3; 4; 4] 2))) 4
  = Some [1%nat; 5%nat] /\
  usesOf
    (redirect 4 1 5%nat
       (addCreated (reshapeOp 5 0%nat (f32 [3; 1; 1]) [3; 1; 1; 1] F32)
          (secondSlotGraph MMultiBroadcast [] [3; 1; 1] [2; 3; 4; 4] 2))) 2%nat
  = [(3%nat, 1%nat)].
Proof.
  apply (multibroadcast_rewires_newest_use
           (secondSlotGraph MMultiBroadcast [] [3; 1; 1] [2; 3; 4; 4] 2)
           2%nat [0%nat] 0%nat [3; 1; 1] [2; 3; 4; 4] F32 F32 (f32 [2; 3; 4; 4])
           4%nat (OtherOp "add") 1%nat [] [(3%nat, 1%nat)] 0%nat);
    first [ apply graph_ok_secondSlotGraph
          | reflexivity
          | unfold rank; simpl; lia
          | discriminate ].
Defined.

(** ** Where the walk goes after a redirection *)

(** The step of [replace_and_advance] with a replacement that has uses
    already: the walk goes on with the newest of them. *)
Lemma replace_and_follow g c op kc x ac n :
  g_ops g !! c = Some (mkOp kc [x; op] ac) ->
  x <> op -> n <> op ->
  replaceFirstUse c op n g = Ok tt (redirect c 1 n g) /\
  nextUse (c, 1%nat) (redirect c 1 n g)
  = Ok (head (usesOf g n)) (redirect c 1 n g) /\
  operandsOf (redirect c 1 n g) c = Some [x; n] /\
  usesOf (redirect c 1 n g) n = (c, 1%nat) :: usesOf g n /\
  usesOf (redirect c 1 n g) op = filter (fun u => u <> (c, 1%nat)) (usesOf g op) /\
  (forall o, o <> c -> g_ops (redirect c 1 n g) !! o = g_ops g !! o).
Proof.
  intros Hc Hx Hn.
  assert (Hset : setOperand c 1 n g
                 = Ok tt {| g_ops := <[c := mkOp kc [x; n] ac]> (g_ops g);
                            g_types := g_types g;
                            g_uses := pushUse (c, 1%nat) n
                                        (dropUse (c, 1%nat) op (g_uses g));
                            g_next := g_next g; g_log := g_log g |}).
  { unfold setOperand. rewrite Hc. reflexivity. }
  unfold redirect. rewrite Hset. cbn [graphAfter].
  assert (Hn' : usesOf {| g_ops := <[c := mkOp kc [x; n] ac]> (g_ops g);
                          g_types := g_types g;
                          g_uses := pushUse (c, 1%nat) n
                                      (dropUse (c, 1%nat) op (g_uses g));
                          g_next := g_next g; g_log := g_log g |} n
                = (c, 1%nat) :: usesOf g n).
  { unfold usesOf; cbn [g_uses]. rewrite usesOf_pushUse, usesOf_dropUse.
    repeat case_decide; first [reflexivity | congruence]. }
  split; [|split; [|split; [|split; [|split]]]].
  - unfold replaceFirstUse.
    erewrite bind_Ok by (apply getOp_Ok; exact Hc).
    cbn [op_operands findOperand].
    destruct (Nat.eqb_spec x op); [contradiction|].
    rewrite Nat.eqb_refl. exact Hset.
  - unfold nextUse. cbn [fst snd g_ops]. rewrite lookup_insert_eq.
    cbn [op_operands lookup list_lookup]. rewrite Hn'.
    cbn [succ_in]. case_decide; [reflexivity|congruence].
  - unfold operandsOf; cbn [g_ops]. rewrite lookup_insert_eq. reflexivity.
  - exact Hn'.
  - unfold usesOf; cbn [g_uses]. rewrite usesOf_pushUse, !usesOf_dropUse.
    repeat case_decide; first [reflexivity | congruence].
  - intros o Ho. cbn [g_ops]. apply lookup_insert_ne. congruence.
Qed.

(** With equal ranks the broadcast rule uses the input itself as the
    replacement.  Redirecting the newest consumer then links its slot in
    front of the input's use list, the walk goes on there, and the next
    user it meets is the broadcast operation itself, which is not binary:
    the rule reports a failure, with the consumer already redirected. *)
Theorem broadcast_equal_rank_fails :
  forall (g : Graph) (op : nat) (ko : OpKind) (ao : Attrs)
         (operands : list Value) (input_t : Value) (axis : Z)
         (inShape outShape : list Z) (eIn eOut : ElemType)
         (c : nat) (kc : OpKind) (x : Value) (ac : Attrs)
         (rest restI : list Use) (k : nat),
    g_ops g !! op = Some (mkOp ko [input_t] ao) ->
    intAttr "axis" ao = Some axis ->
    operands !! 0%nat = Some input_t ->
    g_types g !! op = Some (TT outShape eOut) ->
    g_types g !! input_t = Some (TT inShape eIn) ->
    rank outShape < 2 ^ 32 ->
    rank outShape = rank inShape ->
    input_t <> op ->
    usesOf g op = (c, 1%nat) :: rest ->
    usesOf g input_t = (op, 0%nat) :: restI ->
    g_ops g !! c = Some (mkOp kc [x; op] ac) ->
    x <> op ->
    BroadcastConverter (S (S k)) op operands g
    = Failure EmptyString (redirect c 1 input_t g) /\
    operandsOf (redirect c 1 input_t g) c = Some [x; input_t].
Proof.
  intros g op ko ao operands input_t axis inShape outShape eIn eOut c kc x ac
         rest restI k Hop Hax Hopnd Hout Hin HR Heq Hio Huop Huin Hc Hx.
  assert (Hco : op <> c) by (intros ->; rewrite Hop in Hc; discriminate).
  destruct (replace_and_follow g c op kc x ac input_t Hc Hx Hio)
    as (Hrep & Hnext & Hopnds & _ & _ & Hops).
  split; [|exact Hopnds].
  unfold BroadcastConverter.
  erewrite bind_Ok by (apply must_Some; exact Hopnd).
  erewrite bind_Ok.
  2:{ rewrite (broadcastAlign_unfold _ _ _ _ _ _ _ _ _ Hop Hax Hout Hin HR).
      rewrite (proj2 (Z.eqb_eq _ _) Heq). reflexivity. }
  erewrite bind_Ok by reflexivity. rewrite Huop. cbn [head].
  apply bind_Failure. cbn [forUses].
  erewrite bind_Ok.
  2:{ unfold broadcastUse. cbn [fst].
      erewrite bind_Ok by (eapply isBroadcastable_second; exact Hc).
      exact Hrep. }
  erewrite bind_Ok by exact Hnext.
  rewrite Huin. cbn [head forUses].
  apply bind_Failure. unfold broadcastUse. cbn [fst].
  erewrite bind_Ok.
  2:{ unfold isBroadcastable.
      erewrite bind_Ok by (apply getOp_Ok; rewrite (Hops op Hco); exact Hop).
      reflexivity. }
  reflexivity.
Qed.

Lemma broadcast_equal_rank_fails_witness :
  BroadcastConverter 2 2 [0%nat]
    (secondSlotGraph MBroadcast [("axis"%string, i64Attr 0)]
       [2; 1; 1; 1] [2; 4; 3; 3] 1)
  = Failure EmptyString
      (redirect 3 1 0%nat
         (secondSlotGraph MBroadcast [("axis"%string, i64Attr 0)]
            [2; 1; 1; 1] [2; 4; 3; 3] 1)) /\
  operandsOf
    (redirect 3 1 0%nat
       (secondSlotGraph MBroadcast [("axis"%string, i64Attr 0)]
          [2; 1; 1; 1] [2; 4; 3; 3] 1)) 3 = Some [1%nat; 0%nat].
Proof.
  apply (broadcast_equal_rank_fails
           (secondSlotGraph MBroadcast [("axis"%string, i64Attr 0)]
              [2; 1; 1; 1] [2; 4; 3; 3] 1)
           2%nat MBroadcast [("axis"%string, i64Attr 0)] [0%nat] 0%nat 0
           [2; 1; 1; 1] [2; 4; 3; 3] F32 F32
           3%nat (OtherOp "add") 1%nat [] [] [] 0%nat);
    first [ reflexivity | unfold rank; simpl; lia | discriminate ].
Defined.

(** The multi-broadcast rule skips the broadcast operation when the walk
    meets it.  With a newest consumer of the input's rank holding the
    result in its second slot, and an input that only the broadcast uses,
    the rule redirects the consumer to the input, walks over the broadcast
    itself and returns success. *)
Theorem multibroadcast_equal_rank :
  forall (g : Graph) (op : nat) (ko : OpKind) (ao : Attrs)
         (operands : list Value) (input_t : Value)
         (inShape outShape : list Z) (eIn eOut : ElemType)
         (c : nat) (kc : OpKind) (x : Value) (ac : Attrs)
         (rest : list Use) (k : nat),
    g_ops g !! op = Some (mkOp ko [input_t] ao) ->
    operands !! 0%nat = Some input_t ->
    g_types g !! input_t = Some (TT inShape eIn) ->
    g_types g !! c = Some (TT outShape eOut) ->
    rank outShape < 2 ^ 32 ->
    rank outShape = rank inShape ->
    input_t <> op ->
    usesOf g op = (c, 1%nat) :: rest ->
    usesOf g input_t = [(op, 0%nat)] ->
    g_ops g !! c = Some (mkOp kc [x; op] ac) ->
    x <> op ->
    MultiBroadcastConverter (S (S k)) op operands g
    = Ok Erase (redirect c 1 input_t g) /\
    operandsOf (redirect c 1 input_t g) c = Some [x; input_t] /\
    usesOf (redirect c 1 input_t g) op
    = filter (fun u => u <> (c, 1%nat)) rest.
Proof.
  intros g op ko ao operands input_t inShape outShape eIn eOut c kc x ac
         rest k Hop Hopnd Hin Hcty HR Heq Hio Huop Huin Hc Hx.
  pose proof (rank_nonneg outShape).
  assert (Hco : op <> c) by (intros ->; rewrite Hop in Hc; discriminate).
  destruct (replace_and_follow g c op kc x ac input_t Hc Hx Hio)
    as (Hrep & Hnext & Hopnds & Hui & Huo & Hops).
  split; [|split; [exact Hopnds|]].
  2:{ rewrite Huo, Huop.
      rewrite filter_cons_False by (intros H'; apply H'; reflexivity).
      reflexivity. }
  unfold MultiBroadcastConverter.
  erewrite bind_Ok by (apply must_Some; exact Hopnd).
  erewrite bind_Ok by (apply getType_Ok; exact Hin).
  cbn [tshape].
  erewrite bind_Ok by reflexivity. rewrite Huop. cbn [head].
  erewrite bind_Ok; [reflexivity|]. cbn [forUses].
  erewrite bind_Ok.
  2:{ unfold multiBroadcastUse. cbn [fst].
      destruct (Nat.eqb_spec c op); [congruence|].
      erewrite bind_Ok by (eapply isBroadcastable_second; exact Hc).
      cbv beta iota.
      erewrite bind_Ok; [exact Hrep|].
      unfold multiBroadcastAlign.
      erewrite bind_Ok by (apply getType_Ok; exact Hcty).
      cbn [tshape telem]. rewrite u32_small by lia.
      rewrite (proj2 (Z.eqb_eq _ _) Heq). reflexivity. }
  erewrite bind_Ok by exact Hnext.
  rewrite Huin. cbn [head forUses].
  erewrite bind_Ok.
  2:{ unfold multiBroadcastUse. cbn [fst]. rewrite Nat.eqb_refl. reflexivity. }
  erewrite bind_Ok.
  2:{ unfold nextUse. cbn [fst snd]. rewrite (Hops op Hco), Hop.
      cbn [op_operands lookup list_lookup]. rewrite Hui, Huin.
      cbn [succ_in]. reflexivity. }
  assert (E : succ_in (op, 0%nat) [(c, 1%nat); (op, 0%nat)] = None).
  { cbn [succ_in]. repeat case_decide; first [reflexivity | congruence]. }
  cbn [succ_in] in E. rewrite E.
  destruct k; reflexivity.
Qed.

Lemma multibroadcast_equal_rank_witness :
  MultiBroadcastConverter 2 2 [0%nat]
    (secondSlotGraph MMultiBroadcast [] [2; 1; 1; 1] [2; 4; 3; 3] 1)
  = Ok Erase
      (redirect 3 1 0%nat
         (secondSlotGraph MMultiBroadcast [] [2; 1; 1; 1] [2; 4; 3; 3] 1)) /\
  operandsOf
    (redirect 3 1 0%nat
       (secondSlotGraph MMultiBroadcast [] [2; 1; 1; 1] [2; 4; 3; 3] 1)) 3
  = Some [1%nat; 0%nat] /\
  usesOf
    (redirect 3 1 0%nat
       (secondSlotGraph MMultiBroadcast [] [2; 1; 1; 1] [2; 4; 3; 3] 1)) 2%nat
  = filter (fun u => u <> (3%nat, 1%nat)) [].
Proof.
  apply (multibroadcast_equal_rank
           (secondSlotGraph MMultiBroadcast [] [2; 1; 1; 1] [2; 4; 3; 3] 1)
           2%nat MMultiBroadcast [] [0%nat] 0%nat
           [2; 1; 1; 1] [2; 4; 3; 3] F32 F32
           3%nat (OtherOp "add") 1%nat [] [] 0%nat);
    first [ reflexivity | unfold rank; simpl; lia | discriminate ].
Defined.

Lemma redirect_spec g o i v op old :
  g_ops g !! o = Some op -> op_operands op !! i = Some old ->
  setOperand o i v g = Ok tt (redirect o i v g) /\
  g_ops (redirect o i v g) !! o
  = Some (mkOp (op_kind op) (<[i := v]> (op_operands op)) (op_attrs op)) /\
  (forall w,
      usesOf (redirect o i v g) w
      = if decide (v = w)
        then (o, i) :: (if decide (old = v)
                        then filter (fun u => u <> (o, i)) (usesOf g old)
                        else usesOf g v)
        else if decide (old = w)
             then filter (fun u => u <> (o, i)) (usesOf g old)
             else usesOf g w).
Proof.
  intros Hop Hold.
  assert (Hset : setOperand o i v g
                 = Ok tt {| g_ops := <[o := mkOp (op_kind op) (<[i := v]> (op_operands op))
                                                 (op_attrs op)]> (g_ops g);
                            g_types := g_types g;
                            g_uses := pushUse (o, i) v (dropUse (o, i) old (g_uses g));
                            g_next := g_next g; g_log := g_log g |}).
  { unfold setOperand. rewrite Hop, Hold. reflexivity. }
  unfold redirect. rewrite Hset. cbn [graphAfter]. split; [reflexivity|]. split.
  - cbn [g_ops]. apply lookup_insert_eq.
  - intros w. unfold usesOf; cbn [g_uses].
    rewrite usesOf_pushUse, !usesOf_dropUse. reflexivity.
Qed.

(** A consumer that holds the result in its first slot makes the walk
    leave the result's use list.  The loop body swaps the consumer's
    operands (relinking the first slot in front of the other operand's
    use list), redirects the second slot to the replacement, and the
    iterator, which stands on the first slot, then advances to the next
    use of the consumer's other operand: operations that never used the
    result are visited as if they did. *)
Theorem first_slot_consumer_diverts_walk :
  forall (g : Graph) (op c : nat) (kc : OpKind) (x : Value) (ac : Attrs)
         (n : Value),
    uses_ok g ->
    g_ops g !! c = Some (mkOp kc [op; x] ac) ->
    x <> op -> n <> op -> n <> x ->
    exists g2,
      broadcastUse op n (c, 0%nat) g = Ok tt g2 /\
      operandsOf g2 c = Some [x; n] /\
      nextUse (c, 0%nat) g2
      = Ok (head (filter (fun u => u <> (c, 1%nat)) (usesOf g x))) g2 /\
      usesOf g2 op = filter (fun u => u <> (c, 0%nat)) (usesOf g op) /\
      usesOf g2 n = (c, 1%nat) :: usesOf g n.
Proof.
  intros g op c kc x ac n Hu Hc Hx Hn Hnx.
  assert (Hnot : (c, 1%nat) ∉ usesOf g op).
  { intros H. apply Hu in H as (cop & H1 & H2). rewrite Hc in H1.
    injection H1 as <-. cbn in H2. congruence. }
  destruct (redirect_spec g c 0 x _ op Hc eq_refl) as (Sa & Oa & Ua).
  cbn [op_kind op_operands op_attrs list_insert insert] in Oa.
  set (ga := redirect c 0 x g) in *.
  destruct (redirect_spec ga c 1 op _ x Oa eq_refl) as (Sb & Ob & Ub).
  cbn [op_kind op_operands op_attrs list_insert insert] in Ob.
  set (gb := redirect c 1 op ga) in *.
  destruct (redirect_spec gb c 1 n _ op Ob eq_refl) as (Sc & Oc & Uc).
  cbn [op_kind op_operands op_attrs list_insert insert] in Oc.
  set (gc := redirect c 1 n gb) in *.
  assert (Ux : usesOf gc x
               = (c, 0%nat) :: filter (fun u => u <> (c, 1%nat)) (usesOf g x)).
  { repeat (first [rewrite Uc | rewrite Ub | rewrite Ua];
            repeat case_decide; try congruence).
    rewrite filter_cons_True by congruence. reflexivity. }
  exists gc. split; [|split; [|split; [|split]]].
  - unfold broadcastUse. cbn [fst].
    erewrite bind_Ok.
    2:{ unfold isBroadcastable.
        erewrite bind_Ok by (apply getOp_Ok; exact Hc).
        cbn [op_operands length Nat.eqb negb].
        erewrite bind_Ok by reflexivity.
        destruct (Nat.eqb_spec x op); [contradiction|]. cbn [negb].
        erewrite bind_Ok by exact Sa.
        erewrite bind_Ok by exact Sb. reflexivity. }
    cbv beta iota. unfold replaceFirstUse.
    erewrite bind_Ok by (apply getOp_Ok; exact Ob).
    cbn [op_operands findOperand].
    destruct (Nat.eqb_spec x op); [contradiction|].
    rewrite Nat.eqb_refl. exact Sc.
  - unfold operandsOf. rewrite Oc. reflexivity.
  - unfold nextUse. cbn [fst snd]. rewrite Oc.
    cbn [op_operands lookup list_lookup]. rewrite Ux.
    cbn [succ_in].
    repeat case_decide; first [reflexivity | congruence].
  - repeat (first [rewrite Uc | rewrite Ub | rewrite Ua];
            repeat case_decide; try congruence).
    rewrite filter_cons_False by (intros H'; apply H'; reflexivity).
    apply filter_other. intros H'. apply list_elem_of_filter in H' as [_ H'].
    contradiction.
  - repeat (first [rewrite Uc | rewrite Ub | rewrite Ua];
            repeat case_decide; try congruence).
Qed.

Lemma first_slot_consumer_diverts_walk_witness :
  exists g2,
    broadcastUse 2 0%nat (6%nat, 0%nat) broadcastGraph = Ok tt g2 /\
    operandsOf g2 6 = Some [1%nat; 0%nat] /\
    nextUse (6%nat, 0%nat) g2
    = Ok (head (filter (fun u => u <> (6%nat, 1%nat)) (usesOf broadcastGraph 1%nat)))
         g2 /\
    usesOf g2 2%nat
    = filter (fun u => u <> (6%nat, 0%nat)) (usesOf broadcastGraph 2%nat) /\
    usesOf g2 0%nat = (6%nat, 1%nat) :: usesOf broadcastGraph 0%nat.
Proof.
  apply (first_slot_consumer_diverts_walk broadcastGraph 2%nat 6%nat
           (OtherOp "add") 1%nat [] 0%nat);
    first [ exact (proj1 (proj2 (graph_ok_fanoutGraph _ _ _ _)))
          | reflexivity
          | discriminate ].
Defined.

(** ** The operations a rule builds *)

Section Builds.

Variable K : OpKind -> Prop.

Lemma bl_same {A} (m : M A) :
  (forall g, match m g with
             | Ok _ g' | Failure _ g' => g_log g' = g_log g
             | _ => True
             end) ->
  builds K m.
Proof using Type.
  intros H g. specialize (H g).
  destruct (m g); try exact Logic.I;
    (exists []; rewrite app_nil_r; split; [exact H|constructor]).
Qed.

Lemma bl_ret {A} (a : A) : builds K (ret a).
Proof using Type. apply bl_same. intros g. reflexivity. Qed.

Lemma bl_failure {A} msg : builds K (@failure A msg).
Proof using Type. apply bl_same. intros g. reflexivity. Qed.

Lemma bl_crash {A} : builds K (@crash A).
Proof using Type. intros g. exact Logic.I. Qed.

Lemma bl_must {A} (o : option A) : builds K (must o).
Proof using Type. destruct o; [apply bl_ret|apply bl_crash]. Qed.

Lemma bl_liftExc {A} (e : Exc A) : builds K (liftExc e).
Proof using Type. destruct e; [apply bl_ret|apply bl_failure|apply bl_crash]. Qed.

Lemma bl_bind {A B} (m : M A) (k : A -> M B) :
  builds K m -> (forall a, builds K (k a)) -> builds K (bind m k).
Proof using Type.
  intros Hm Hk g. unfold bind. specialize (Hm g).
  destruct (m g) as [a g1 | s g1 | |]; try exact Logic.I; [|exact Hm].
  destruct Hm as (new1 & E1 & C1). specialize (Hk a g1).
  destruct (k a g1) as [b g2 | s g2 | |]; try exact Logic.I;
    destruct Hk as (new2 & E2 & C2);
    (exists (new1 ++ new2); split;
     [rewrite E2, E1, app_assoc; reflexivity|apply Forall_app; auto]).
Qed.

Lemma bl_getType v : builds K (getType v).
Proof using Type.
  apply bl_same. intros g. unfold getType.
  destruct (g_types g !! v); exact eq_refl || exact Logic.I.
Qed.

Lemma bl_getOp o : builds K (getOp o).
Proof using Type.
  apply bl_same. intros g. unfold getOp.
  destruct (g_ops g !! o); exact eq_refl || exact Logic.I.
Qed.

Lemma bl_getTypes vs : builds K (getTypes vs).
Proof using Type.
  apply bl_same. intros g. unfold getTypes.
  destruct (mapM _ vs); exact eq_refl || exact Logic.I.
Qed.

Lemma bl_firstUse v : builds K (firstUse v).
Proof using Type. apply bl_same. intros g. reflexivity. Qed.

Lemma bl_nextUse u : builds K (nextUse u).
Proof using Type.
  apply bl_same. intros g. unfold nextUse.
  destruct (g_ops g !! u.1) as [op|]; [|exact Logic.I].
  destruct (op_operands op !! u.2); exact eq_refl || exact Logic.I.
Qed.

Lemma bl_setAttr o name a : builds K (setAttr o name a).
Proof using Type.
  apply bl_same. intros g. unfold setAttr.
  destruct (g_ops g !! o); exact eq_refl || exact Logic.I.
Qed.

Lemma bl_setOperand o i v : builds K (setOperand o i v).
Proof using Type.
  apply bl_same. intros g. unfold setOperand.
  destruct (g_ops g !! o) as [op|]; [|exact Logic.I].
  destruct (op_operands op !! i); exact eq_refl || exact Logic.I.
Qed.

Lemma bl_create inferred kind ty operands attrs :
  K kind -> builds K (create inferred kind ty operands attrs).
Proof using Type.
  intros Hk g. unfold create. destruct (mapM _ operands) as [tys|]; [|exact Logic.I].
  eexists [_]. split; [reflexivity|]. repeat constructor. exact Hk.
Qed.

Lemma bl_forUses (body : Use -> M unit) :
  (forall u, builds K (body u)) ->
  forall fuel it, builds K (forUses fuel body it).
Proof using Type.
  intros Hb fuel. induction fuel as [|fuel IH]; intros [u|]; cbn [forUses];
    try apply bl_ret.
  - intros g. exact Logic.I.
  - apply bl_bind; [apply Hb|]. intros _.
    apply bl_bind; [apply bl_nextUse|]. apply IH.
Qed.

End Builds.

Ltac bl_step :=
  first [ apply bl_ret | apply bl_crash | apply bl_failure | apply bl_must
        | apply bl_liftExc | apply bl_getType
        | apply bl_getOp | apply bl_getTypes | apply bl_firstUse
        | apply bl_nextUse | apply bl_setAttr | apply bl_setOperand
        | apply bl_create; solve [repeat constructor]
        | apply bl_bind; [|intros ?]
        | match goal with
          | |- builds _ (match ?x with _ => _ end) => destruct x
          end ].

Ltac bl_auto := cbv zeta; repeat bl_step.

(** Each rule builds operations of its own target vocabulary only, on
    success and on failure alike: constants, transposes and the target
    convolution for the convolution rule; reshapes for the broadcast,
    multi-broadcast and reshape rules; the six operations of the softmax
    decomposition; reshape and matmul for the dot rule; constant,
    reciprocal, multiply and reduce-sum for reduce-mean; add, cast and
    multiply for quantize-linear.  No rule builds an operation of the
    source vocabulary. *)
Theorem rule_vocabulary :
  forall (infer : OpKind -> list TensorType -> Attrs -> option (list Z))
         (rule : Rule) (fuel : nat) (op : nat) (operands : list Value)
         (g g' : Graph),
    (exists res, runRule infer rule fuel op operands g = Ok res g') \/
    (exists msg, runRule infer rule fuel op operands g = Failure msg g') ->
    exists new,
      g_log g' = g_log g ++ new /\
      Forall (fun c => op_kind (c_op c) ∈ vocabulary rule) new.
Proof.
  intros infer rule fuel op operands g g' H.
  assert (Hb : builds (fun k => k ∈ vocabulary rule)
                      (runRule infer rule fuel op operands)).
  { destruct rule; cbn [runRule vocabulary].
    - unfold ConvConverter, getRank4TransposeOp, getZeroBias, copyOptionalAttrs.
      bl_auto.
    - unfold BroadcastConverter, broadcastAlign. bl_auto.
      apply bl_forUses. intros u.
      unfold broadcastUse, isBroadcastable, replaceFirstUse. bl_auto.
    - unfold MultiBroadcastConverter. bl_auto.
      apply bl_forUses. intros u.
      unfold multiBroadcastUse, multiBroadcastAlign, isBroadcastable, replaceFirstUse.
      bl_auto.
    - unfold ReshapeConverter. bl_auto.
    - unfold SoftmaxConverter, createOpAndInfer. bl_auto.
    - unfold DotConverter, copyOptionalAttrs. bl_auto.
    - unfold ReduceMeanConverter, createNumElementsTosaConst, createOpAndInfer.
      bl_auto.
    - unfold QuantizeLinearConverter, createOpAndInfer, createCastOp. bl_auto. }
  specialize (Hb g). destruct H as [[res E] | [msg E]]; rewrite E in Hb; exact Hb.
Qed.

Lemma rule_vocabulary_witness :
  exists new,
    g_log (graphAfter (runRule exampleInfer RConv 0 2 [0%nat; 1%nat]
                         (convGraph 1 [1; 4; 6; 6]))
                      (convGraph 1 [1; 4; 6; 6]))
    = g_log (convGraph 1 [1; 4; 6; 6]) ++ new /\
    Forall (fun c => op_kind (c_op c) ∈ vocabulary RConv) new.
Proof.
  apply (rule_vocabulary exampleInfer RConv 0 2 [0%nat; 1%nat]
           (convGraph 1 [1; 4; 6; 6])).
  left. eexists. vm_compute. reflexivity.
Defined.

(** ** Layout transposes of shapes with more than four dimensions *)

Lemma at_prefix4 a b c d rest p :
  0 <= p < 4 ->
  at_ (a :: b :: c :: d :: rest) (u64 p) = at_ [a; b; c; d] (u64 p).
Proof.
  intros Hp. rewrite u64_small by lia.
  assert (Hr : 4 <= rank (a :: b :: c :: d :: rest))
    by (unfold rank; cbn [length]; lia).
  assert (Hc : p = 0 \/ p = 1 \/ p = 2 \/ p = 3) by lia.
  destruct Hc as [-> | [-> | [-> | ->]]];
    (etransitivity; [apply at_Some_iff; split; [lia|reflexivity]|reflexivity]).
Qed.

(** The layout transpose reads four extents of the input shape, at the
    positions the permutation names, and nothing else: on an input of more
    than four dimensions it succeeds and stamps a four-dimensional type on
    the transpose, the trailing dimensions being ignored. *)
Theorem transpose_ignores_trailing_dims :
  forall (g : Graph) (input : Value) (a b c d : Z) (rest : list Z)
         (e : ElemType) (p0 p1 p2 p3 : Z),
    fresh_ok g ->
    g_types g !! input = Some (TT (a :: b :: c :: d :: rest) e) ->
    0 <= p0 < 4 -> 0 <= p1 < 4 -> 0 <= p2 < 4 -> 0 <= p3 < 4 ->
    getRank4TransposeOp input [p0; p1; p2; p3] g
    = Ok (S (g_next g))
         (addCreated
            (transposeOp (g_next g) input (a :: b :: c :: d :: rest)
               [nth (Z.to_nat p0) [a; b; c; d] 0; nth (Z.to_nat p1) [a; b; c; d] 0;
                nth (Z.to_nat p2) [a; b; c; d] 0; nth (Z.to_nat p3) [a; b; c; d] 0]
               e)
            (addCreated (permConst (g_next g) [p0; p1; p2; p3]) g)).
Proof.
  intros g input a b c d rest e p0 p1 p2 p3 Hf Hin H0 H1 H2 H3.
  apply getRank4TransposeOp_spec; [exact Hf|exact Hin|].
  rewrite <- (permuteShape_rank4 a b c d p0 p1 p2 p3) by assumption.
  unfold permuteShape.
  destruct (at_ [p0; p1; p2; p3] 0) as [q0|] eqn:E0; [|reflexivity].
  destruct (at_ [p0; p1; p2; p3] 1) as [q1|] eqn:E1; [|reflexivity].
  destruct (at_ [p0; p1; p2; p3] 2) as [q2|] eqn:E2; [|reflexivity].
  destruct (at_ [p0; p1; p2; p3] 3) as [q3|] eqn:E3; [|reflexivity].
  cbn in E0, E1, E2, E3.
  injection E0 as <-. injection E1 as <-. injection E2 as <-. injection E3 as <-.
  cbn [mbind option_bind].
  rewrite (at_prefix4 a b c d rest p0) by assumption.
  destruct (at_ [a; b; c; d] (u64 p0)); [|reflexivity]. cbn [mbind option_bind].
  rewrite (at_prefix4 a b c d rest p1) by assumption.
  destruct (at_ [a; b; c; d] (u64 p1)); [|reflexivity]. cbn [mbind option_bind].
  rewrite (at_prefix4 a b c d rest p2) by assumption.
  destruct (at_ [a; b; c; d] (u64 p2)); [|reflexivity]. cbn [mbind option_bind].
  rewrite (at_prefix4 a b c d rest p3) by assumption.
  reflexivity.
Qed.

Lemma transpose_ignores_trailing_dims_witness :
  getRank4TransposeOp 0%nat [0; 2; 3; 1] rank5Input
  = Ok (S (g_next rank5Input))
       (addCreated
          (transposeOp (g_next rank5Input) 0%nat [1; 3; 8; 8; 2]
             [nth (Z.to_nat 0) [1; 3; 8; 8] 0; nth (Z.to_nat 2) [1; 3; 8; 8] 0;
              nth (Z.to_nat 3) [1; 3; 8; 8] 0; nth (Z.to_nat 1) [1; 3; 8; 8] 0]
             F32)
          (addCreated (permConst (g_next rank5Input) [0; 2; 3; 1]) rank5Input)).
Proof.
  apply (transpose_ignores_trailing_dims rank5Input 0%nat 1 3 8 8 [2] F32 0 2 3 1);
    first [ apply (bool_decide_unpack _); vm_compute; exact I
          | reflexivity
          | lia ].
Defined.

(** ** What the rules hand back *)

Lemma steps_bind {A B} (P : Graph -> A -> Graph -> Prop)
  (Q R : Graph -> B -> Graph -> Prop) (m : M A) (k : A -> M B) :
  steps P m -> (forall a, steps Q (k a)) ->
  (forall g a g1 b g2, P g a g1 -> Q g1 b g2 -> R g b g2) ->
  steps R (bind m k).
Proof.
  intros Hm Hk HR g. unfold bind. specialize (Hm g).
  destruct (m g) as [a g1| | |]; try exact Logic.I.
  specialize (Hk a g1). destruct (k a g1) as [b g2| | |]; try exact Logic.I.
  eapply HR; eassumption.
Qed.

Lemma nm_ret {A} (a : A) : next_mono (ret a).
Proof. intros g. cbn. lia. Qed.

Lemma nm_crash {A} : next_mono (@crash A).
Proof. intros g. exact Logic.I. Qed.

Lemma nm_failure {A} msg : next_mono (@failure A msg).
Proof. intros g. exact Logic.I. Qed.

Lemma nm_must {A} (o : option A) : next_mono (must o).
Proof. destruct o; [apply nm_ret|apply nm_crash]. Qed.

Lemma nm_liftExc {A} (e : Exc A) : next_mono (liftExc e).
Proof. destruct e; [apply nm_ret|apply nm_failure|apply nm_crash]. Qed.

Lemma nm_getType v : next_mono (getType v).
Proof. intros g. unfold getType. destruct (g_types g !! v); cbn; [lia|exact Logic.I]. Qed.

Lemma nm_getOp o : next_mono (getOp o).
Proof. intros g. unfold getOp. destruct (g_ops g !! o); cbn; [lia|exact Logic.I]. Qed.

Lemma nm_getTypes vs : next_mono (getTypes vs).
Proof. intros g. unfold getTypes. destruct (mapM _ vs); cbn; [lia|exact Logic.I]. Qed.

Lemma nm_create inferred kind ty operands attrs :
  next_mono (create inferred kind ty operands attrs).
Proof. intros g. unfold create. destruct (mapM _ operands); cbn; [lia|exact Logic.I]. Qed.

Lemma nm_setAttr o name a : next_mono (setAttr o name a).
Proof. intros g. unfold setAttr. destruct (g_ops g !! o); cbn; [lia|exact Logic.I]. Qed.

Lemma nm_bind {A B} (m : M A) (k : A -> M B) :
  next_mono m -> (forall a, next_mono (k a)) -> next_mono (bind m k).
Proof.
  intros Hm Hk. eapply steps_bind; [exact Hm|exact Hk|].
  cbn. intros. lia.
Qed.

Ltac nm_step :=
  first [ apply nm_ret | apply nm_crash | apply nm_failure | apply nm_must
        | apply nm_liftExc | apply nm_getType | apply nm_getOp
        | apply nm_getTypes | apply nm_create | apply nm_setAttr
        | apply nm_bind; [|intros ?]
        | match goal with
          | |- next_mono (match ?x with _ => _ end) => destruct x
          end ].

Ltac nm_auto := cbv zeta; repeat nm_step.

Lemma kp_ret {A} (a : A) : next_kept (ret a).
Proof. intros g. cbn. auto. Qed.

Lemma kp_getOp o : next_kept (getOp o).
Proof. intros g. unfold getOp. destruct (g_ops g !! o); cbn; auto. Qed.

Lemma kp_setAttr o name a : next_kept (setAttr o name a).
Proof. intros g. unfold setAttr. destruct (g_ops g !! o); cbn; auto. Qed.

Lemma kp_bind {A B} (m : M A) (k : A -> M B) :
  next_kept m -> (forall a, next_kept (k a)) -> next_kept (bind m k).
Proof.
  intros Hm Hk. eapply steps_bind; [exact Hm|exact Hk|].
  cbn. intros g a g1 b g2 [E1 E2] [E3 E4]. split; congruence.
Qed.

Lemma kp_copyOptionalAttrs src dst : next_kept (copyOptionalAttrs src dst).
Proof.
  unfold copyOptionalAttrs.
  apply kp_bind; [apply kp_getOp|intros o].
  apply kp_bind; [|intros _];
    match goal with
    | |- next_kept (match ?x with _ => _ end) =>
        destruct x; [apply kp_setAttr|apply kp_ret]
    end.
Qed.

Lemma mk_create inferred kind ty operands attrs :
  makes_new (create inferred kind ty operands attrs).
Proof.
  intros g. unfold create. destruct (mapM _ operands); [|exact Logic.I].
  split; [cbn; lia|].
  rewrite (addCreated_type_new (mkCreated (g_next g) _ _ _ _) g). eauto.
Qed.

Lemma mk_bind {A} (m : M A) (k : A -> M Value) :
  next_mono m -> (forall a, makes_new (k a)) -> makes_new (bind m k).
Proof.
  intros Hm Hk. eapply steps_bind; [exact Hm|exact Hk|].
  cbn. intros g a g1 b g2 H1 [H2 H3]. split; [lia|exact H3].
Qed.

Ltac mk_auto :=
  cbv zeta; repeat first [ apply mk_create | apply mk_bind; [nm_auto|intros ?] ].

Lemma rn_crash : replaces_by_new crash.
Proof. intros g. exact Logic.I. Qed.

Lemma rn_failure msg : replaces_by_new (failure msg).
Proof. intros g. exact Logic.I. Qed.

Lemma rn_tail (m : M Value) :
  makes_new m -> replaces_by_new (v <- m ;; ret (ReplaceWith v)).
Proof.
  intros Hm g. unfold bind. specialize (Hm g).
  destruct (m g) as [v g1| | |]; try exact Logic.I. cbn. eauto.
Qed.

Lemma rn_tail_keep (m : M Value) (k : Value -> M unit) :
  makes_new m -> (forall v, next_kept (k v)) ->
  replaces_by_new (v <- m ;; k v ;;; ret (ReplaceWith v)).
Proof.
  intros Hm Hk g. unfold bind. specialize (Hm g).
  destruct (m g) as [v g1| | |]; try exact Logic.I.
  specialize (Hk v g1). destruct (k v g1) as [u g2| | |]; try exact Logic.I.
  cbn. destruct Hm as [H1 H2], Hk as [E1 E2].
  exists v. split; [reflexivity|]. split; [lia|]. rewrite E2. exact H2.
Qed.

Lemma rn_bind {A} (m : M A) (k : A -> M Rewrite) :
  next_mono m -> (forall a, replaces_by_new (k a)) -> replaces_by_new (bind m k).
Proof.
  intros Hm Hk. eapply steps_bind; [exact Hm|exact Hk|].
  cbn. intros g a g1 b g2 H1 (v & -> & [H2 H3]).
  exists v. split; [reflexivity|]. split; [lia|exact H3].
Qed.

Ltac rn_step :=
  first [ apply rn_crash | apply rn_failure
        | apply rn_tail; solve [mk_auto]
        | apply rn_tail_keep; [solve [mk_auto]|intros ?; apply kp_copyOptionalAttrs]
        | apply rn_bind; [solve [nm_auto]|intros ?]
        | match goal with
          | |- replaces_by_new (match ?x with _ => _ end) => destruct x
          end ].

Ltac rn_auto := cbv zeta; repeat rn_step.

Lemma er_tail {A} (m : M A) : erases (m ;;; ret Erase).
Proof.
  intros g. unfold bind. destruct (m g); try exact Logic.I. reflexivity.
Qed.

Lemma er_bind {A} (m : M A) (k : A -> M Rewrite) :
  (forall a, erases (k a)) -> erases (bind m k).
Proof.
  intros Hk g. unfold bind. destruct (m g) as [a g1| | |]; try exact Logic.I.
  apply Hk.
Qed.

(** What a successful rule asks of the driver: the two rewiring rules ask
    for the operation to be erased; each of the other six asks for it to be
    replaced by a value the rule has built in this very application, never
    by a value the graph already held. *)
Theorem rule_result :
  forall (infer : OpKind -> list TensorType -> Attrs -> option (list Z))
         (rule : Rule) (fuel : nat) (op : nat) (operands : list Value)
         (g g' : Graph) (res : Rewrite),
    runRule infer rule fuel op operands g = Ok res g' ->
    if rewires rule then res = Erase
    else exists v, res = ReplaceWith v /\
                   (g_next g <= v < g_next g')%nat /\
                   is_Some (g_types g' !! v).
Proof.
  intros infer rule fuel op operands g g' res E.
  destruct (rewires rule) eqn:Hr.
  - assert (H : erases (runRule infer rule fuel op operands)).
    { destruct rule; try discriminate; cbn [runRule].
      - unfold BroadcastConverter.
        repeat first [apply er_tail | apply er_bind; intros ?].
      - unfold MultiBroadcastConverter. cbv zeta.
        repeat first [apply er_tail | apply er_bind; intros ?]. }
    specialize (H g). rewrite E in H. exact H.
  - assert (H : replaces_by_new (runRule infer rule fuel op operands)).
    { destruct rule; try discriminate; cbn [runRule].
      - unfold ConvConverter.
        repeat first
          [ apply rn_tail; unfold getRank4TransposeOp; solve [mk_auto]
          | apply rn_bind;
            [first [ apply kp_copyOptionalAttrs
                   | unfold getRank4TransposeOp, getZeroBias, copyOptionalAttrs;
                     solve [nm_auto] ]
            |intros ?] ].
      - unfold ReshapeConverter. rn_auto.
      - unfold SoftmaxConverter, createOpAndInfer. rn_auto.
      - unfold DotConverter. rn_auto.
      - unfold ReduceMeanConverter, createNumElementsTosaConst, createOpAndInfer.
        rn_auto.
      - unfold QuantizeLinearConverter, createOpAndInfer, createCastOp. rn_auto. }
    specialize (H g). rewrite E in H. exact H.
Qed.

Lemma rule_result_witness :
  exists v,
    ReplaceWith 7%nat = ReplaceWith v /\
    (g_next softmaxGraph <= v
     < g_next (graphAfter (runRule exampleInfer RSoftmax 0 1 [0%nat] softmaxGraph)
                          softmaxGraph))%nat /\
    is_Some (g_types (graphAfter (runRule exampleInfer RSoftmax 0 1 [0%nat]
                                    softmaxGraph) softmaxGraph) !! v).
Proof.
  apply (rule_result exampleInfer RSoftmax 0 1 [0%nat] softmaxGraph).
  vm_compute. reflexivity.
Defined.
